(** * Box drawing rasterizer of kitty ([kitty/fonts/box_drawing.py])

    A shallow embedding of the procedural rasterizer for box-drawing,
    block-element and geometric-shape characters, and the properties of its
    specification.

    Modelling conventions.
    - A pixel buffer ([BufType], a Python [bytearray]) is a [list Z]; the
      drawing routines mutate it in place, so each routine is a computation
      in a state-and-exception monad [M] over the buffer.  An exception keeps
      the writes made before it, as in Python.
    - Subscripting follows Python: an index [i] with [-len <= i < 0] counts
      from the end, anything outside [-len <= i < len] raises [IndexError].
    - Python [int] is [Z]; [//] and [%] are [Z.div] and [Z.modulo] (both
      floor).  Python [float] is idealised as an exact rational, kept in
      lowest terms ([Qc]): arithmetic does not round, [math.ceil] is
      [Qceiling], [int(.)] truncates toward zero and [round] rounds half to
      even.  What is stated of lines, curves and block fractions is what
      does not depend on the rounding of binary64.
    - [thickness], the one float computation every glyph depends on, is
      given a second time with the binary64 operations of the kernel
      (module [Binary64]); its properties are stated of that version, which
      agrees with the exact one for the module's table at every integer dpi
      from 1 to 1200.
    - Allocating a [bytearray] always succeeds.
    - The module globals [scale] and [_dpi] form the record [globals];
      drawing routines only read it, [render_box_char] and [set_scale]
      update it.
    - Characters are Unicode code points ([ord]). *)

From Stdlib Require Import ZArith QArith Qround Qabs Qcanon Lia Lqa List Bool
  String Ascii.
From Stdlib Require PrimFloat FloatOps SpecFloat.
From stdpp Require Import base option list gmap.

Open Scope Z_scope.

(** ** Exceptions and the drawing monad *)

Inductive exn : Type :=
| KeyError
| IndexError
| ValueError
| ZeroDivisionError
| UnboundLocalError
| OverflowError
| LoopBound.

Inductive result (A : Type) : Type :=
| Ok (a : A)
| Raise (e : exn).
Arguments Ok {A} a.
Arguments Raise {A} e.

Abbreviation BufType := (list Z).

Definition M (A : Type) : Type := BufType -> BufType * result A.

Definition ret {A} (a : A) : M A := fun buf => (buf, Ok a).

Definition raise {A} (e : exn) : M A := fun buf => (buf, Raise e).

Definition bind {A B} (m : M A) (k : A -> M B) : M B :=
  fun buf =>
    match m buf with
    | (buf', Ok a) => k a buf'
    | (buf', Raise e) => (buf', Raise e)
    end.

Definition lift {A} (r : result A) : M A := fun buf => (buf, r).

Declare Scope draw_scope.
Delimit Scope draw_scope with draw.
Notation "x <- m ;; k" := (bind m (fun x => k))
  (at level 100, m at next level, k at level 200, right associativity)
  : draw_scope.
Notation "m ;; k" := (bind m (fun _ => k))
  (at level 100, k at level 200, right associativity) : draw_scope.
Open Scope draw_scope.

(** [for x in l: body(x)] *)
Fixpoint for_each {A} (l : list A) (body : A -> M unit) : M unit :=
  match l with
  | [] => ret tt
  | x :: l' => body x ;; for_each l' body
  end.

(** [for x in l: acc = body(acc, x)] for loops that carry local variables. *)
Fixpoint for_fold {A S} (l : list A) (acc : S) (body : S -> A -> M S) : M S :=
  match l with
  | [] => ret acc
  | x :: l' => acc' <- body acc x ;; for_fold l' acc' body
  end.

(** [while True: body].  The loop variables are a state [S]; one run of the
    body gives the next state ([inl]), the value of a [return] ([inr]) or an
    exception.  [fuel] bounds the number of iterations; reaching the bound is
    reported as [LoopBound], which is no Python exception (the lemmas
    [find_bezier_for_D_terminates] and [find_t_for_x_terminates] show that
    the loops of this module never reach theirs). *)
Fixpoint iterate {S R} (fuel : positive) (body : S -> result (S + R)) (s : S)
    : result (S + R) :=
  match fuel with
  | xH => body s
  | xO p =>
      match iterate p body s with
      | Ok (inl s') => iterate p body s'
      | r => r
      end
  | xI p =>
      match body s with
      | Ok (inl s') =>
          match iterate p body s' with
          | Ok (inl s'') => iterate p body s''
          | r => r
          end
      | r => r
      end
  end.

Definition while_true {S R} (fuel : positive) (body : S -> result (S + R))
    (s : S) : result R :=
  match iterate fuel body s with
  | Ok (inr r) => Ok r
  | Ok (inl _) => Raise LoopBound
  | Raise e => Raise e
  end.

(** [for x in l: body(x)] where the body may [break]: it returns [true] to
    leave the loop. *)
Fixpoint for_break {A} (l : list A) (body : A -> M bool) : M unit :=
  match l with
  | [] => ret tt
  | x :: l' => stop <- body x ;; if stop : bool then ret tt else for_break l' body
  end.

(** A call whose returned value is dropped. *)
Definition void {A} (m : M A) : M unit := _ <- m ;; ret tt.

(** [range(a, b)] *)
Definition range (a b : Z) : list Z :=
  map (fun i => a + Z.of_nat i) (seq 0 (Z.to_nat (b - a))).

(** ** Buffers *)

(** Position denoted by a Python subscript into a sequence of [n] items. *)
Definition norm_index (n i : Z) : option nat :=
  if (0 <=? i) && (i <? n) then Some (Z.to_nat i)
  else if (- n <=? i) && (i <? 0) then Some (Z.to_nat (i + n))
  else None.

(** [buf[i] = v] *)
Definition setitem (i v : Z) : M unit := fun buf =>
  match norm_index (Z.of_nat (length buf)) i with
  | Some k => (<[k := v]> buf, Ok tt)
  | None => (buf, Raise IndexError)
  end.

(** [src[i]] for a sequence that is only read. *)
Definition seq_get (src : BufType) (i : Z) : result Z :=
  match norm_index (Z.of_nat (length src)) i with
  | Some k => match src !! k with Some v => Ok v | None => Raise IndexError end
  | None => Raise IndexError
  end.

(** [buf[i]] *)
Definition getitem (i : Z) : M Z := fun buf => (buf, seq_get buf i).

(** [bytearray(n)] *)
Definition bytearray (n : Z) : result BufType :=
  if n <? 0 then Raise ValueError else Ok (replicate (Z.to_nat n) 0).

(** ** Floats *)

Definition float : Type := Qc.
Bind Scope Qc_scope with float.

(** The float literal [n / d] *)
Definition lit (n : Z) (d : positive) : float := Q2Qc (n # d).

(** [float(z)] *)
Definition float_of_int (z : Z) : float := Q2Qc (inject_Z z).

(** [a <= b] and [a < b] *)
Definition fle (a b : float) : bool := Qle_bool a b.
Definition flt (a b : float) : bool := negb (Qle_bool b a).

(** [abs(q)] *)
Definition fabs (q : float) : float := Q2Qc (Qabs q).

(** [math.ceil(q)] *)
Definition ceil (q : float) : Z := Qceiling q.

(** [int(q)] *)
Definition int_of_float (q : float) : Z :=
  if fle 0%Qc q then Qfloor q else Qceiling q.

(** [round(q)] *)
Definition py_round (q : float) : Z :=
  let f := Qfloor q in
  match (q - float_of_int f ?= lit 1 2)%Qc with
  | Lt => f
  | Gt => f + 1
  | Eq => if Z.even f then f else f + 1
  end.

(** ** ScaleConfig: [scale], [_dpi], [set_scale], [thickness] *)

Record globals : Type := Globals {
  scale : float * float * float * float;
  _dpi : float
}.

Definition initial_scale : float * float * float * float :=
  (lit 1 1000, lit 1 1, lit 3 2, lit 2 1).

Definition initial_globals : globals :=
  {| scale := initial_scale; _dpi := lit 96 1 |}.

(** [t[i]] for a 4-tuple *)
Definition tuple4_get (t : float * float * float * float) (i : Z)
    : result float :=
  let '(t0, t1, t2, t3) := t in
  match (if i <? 0 then i + 4 else i) with
  | 0 => Ok t0
  | 1 => Ok t1
  | 2 => Ok t2
  | 3 => Ok t3
  | _ => Raise IndexError
  end.

Definition set_scale (g : globals)
    (new_scale : float * float * float * float) : globals :=
  {| scale := new_scale; _dpi := _dpi g |}.

Definition thickness (g : globals) (level : Z) (horizontal : bool) : result Z :=
  match tuple4_get (scale g) level with
  | Ok pts => Ok (ceil (pts * (_dpi g / lit 72 1)))
  | Raise e => Raise e
  end.

(** ** ScaleConfig in binary64

    [thickness] is the one place where the rounding of Python floats decides
    an integer that every glyph depends on.  The module [Binary64] gives
    [scale], [_dpi] and [thickness] again with the IEEE 754 binary64
    operations of the kernel, so that the properties of [thickness] are
    stated of the arithmetic the code runs. *)

Module Binary64.
Import PrimFloat FloatOps SpecFloat.

Definition float : Type := PrimFloat.float.

Record globals : Type := Globals {
  scale : float * float * float * float;
  _dpi : float
}.

(** [scale = (0.001, 1., 1.5, 2.)]; 0.001 is read as the nearest binary64
    number, as Python reads it. *)
#[warnings="-inexact-float"]
Definition initial_scale : float * float * float * float :=
  (0.001, 1, 1.5, 2)%float.

Definition initial_globals : globals :=
  {| scale := initial_scale; _dpi := 96%float |}.

(** [t[i]] for a 4-tuple *)
Definition tuple4_get (t : float * float * float * float) (i : Z)
    : result float :=
  let '(t0, t1, t2, t3) := t in
  match (if i <? 0 then i + 4 else i) with
  | 0 => Ok t0
  | 1 => Ok t1
  | 2 => Ok t2
  | 3 => Ok t3
  | _ => Raise IndexError
  end.

(** [int(math.ceil(x))]: a finite [x] is [(-1)^s * m * 2^e]; [math.ceil]
    raises [OverflowError] for an infinity and [ValueError] for a NaN. *)
Definition ceil (x : float) : result Z :=
  match Prim2SF x with
  | S754_zero _ => Ok 0
  | S754_infinity _ => Raise OverflowError
  | S754_nan => Raise ValueError
  | S754_finite s m e =>
      let v := if s then Z.neg m else Z.pos m in
      Ok (if 0 <=? e then v * 2 ^ e else - ((- v) / 2 ^ (- e)))
  end.

Definition thickness (g : globals) (level : Z) (horizontal : bool)
    : result Z :=
  match tuple4_get (scale g) level with
  | Ok pts => ceil (pts * (_dpi g / 72))%float
  | Raise e => Raise e
  end.

(** [float(z)], exact for [|z| < 2^53] *)
Definition float_of_int (z : Z) : float :=
  match z with
  | Z0 => 0%float
  | Z.pos p => SF2Prim (S754_finite false p 0)
  | Z.neg p => SF2Prim (S754_finite true p 0)
  end.

(** The module's scale table at the dpi [float(dpi)]. *)
Definition at_dpi (dpi : Z) : globals :=
  {| scale := initial_scale; _dpi := float_of_int dpi |}.

(** The rational number a finite binary64 number stands for (0 for an
    infinity or a NaN). *)
Definition exact (x : float) : Qc :=
  match Prim2SF x with
  | S754_finite s m e =>
      let v := if s then Z.neg m else Z.pos m in
      Q2Qc (if 0 <=? e then inject_Z (v * 2 ^ e)
            else Qmake v (Z.to_pos (2 ^ (- e))))
  | _ => 0%Qc
  end.

Definition exact_scale (t : float * float * float * float)
    : Qc * Qc * Qc * Qc :=
  let '(t0, t1, t2, t3) := t in (exact t0, exact t1, exact t2, exact t3).

(** [96 + 2^-46], the binary64 number after 96. *)
Definition after_96 : float := 0x1.8000000000001p+6%float.

(** [scale[2]] of the module's table *)
Definition medium : float := 1.5%float.


End Binary64.

(** ** PrimitiveDrawing and LinePatternBuilders *)

Section Drawing.

Variable g : globals.

Definition draw_hline (width x1 x2 y level : Z) : M unit :=
  sz <- lift (thickness g level false) ;;
  let start := y - sz / 2 in
  for_each (range start (start + sz)) (fun y =>
    let offset := y * width in
    for_each (range x1 x2) (fun x => setitem (offset + x) 255)).

Definition draw_vline (width y1 y2 x level : Z) : M unit :=
  sz <- lift (thickness g level true) ;;
  let start := x - sz / 2 in
  for_each (range start (start + sz)) (fun x =>
    for_each (range y1 y2) (fun y => setitem (x + y * width) 255)).

Definition half_hline (width height : Z) (level : Z) (which : string)
    (extend_by : Z) : M unit :=
  let '(x1, x2) :=
    if String.eqb which "left" then (0, extend_by + width / 2)
    else (width / 2 - extend_by, width) in
  draw_hline width x1 x2 (height / 2) level.

Definition half_vline (width height : Z) (level : Z) (which : string)
    (extend_by : Z) : M unit :=
  let '(y1, y2) :=
    if String.eqb which "top" then (0, height / 2 + extend_by)
    else (height / 2 - extend_by, height) in
  draw_vline width y1 y2 (width / 2) level.

Definition get_holes (sz hole_sz num : Z) : result (list (list Z)) :=
  match
    (if num =? 1 then Ok [sz / 2]
     else if num =? 2 then
       let ssz := (sz - 2 * hole_sz) / 3 in
       Ok [ssz + hole_sz / 2; 2 * ssz + hole_sz / 2 + hole_sz]
     else if num =? 3 then
       let ssz := (sz - 3 * hole_sz) / 4 in
       Ok [ssz + hole_sz / 2; 2 * ssz + hole_sz / 2 + hole_sz;
           3 * ssz + 2 * hole_sz + hole_sz / 2]
     else Raise UnboundLocalError)
  with
  | Ok pts =>
      Ok (map (fun c => range (c - hole_sz / 2) (c - hole_sz / 2 + hole_sz)) pts)
  | Raise e => Raise e
  end.

Definition hole_factor : Z := 8.

Definition add_hholes (width height : Z) (level num : Z) : M unit :=
  line_sz <- lift (thickness g level true) ;;
  let hole_sz := width / hole_factor in
  let start := height / 2 - line_sz / 2 in
  holes <- lift (get_holes width hole_sz num) ;;
  for_each (range start (start + line_sz)) (fun y =>
    let offset := y * width in
    for_each holes (fun hole =>
      for_each hole (fun x => setitem (offset + x) 0))).

Definition add_vholes (width height : Z) (level num : Z) : M unit :=
  line_sz <- lift (thickness g level false) ;;
  let hole_sz := height / hole_factor in
  let start := width / 2 - line_sz / 2 in
  holes <- lift (get_holes height hole_sz num) ;;
  for_each (range start (start + line_sz)) (fun x =>
    for_each holes (fun hole =>
      for_each hole (fun y => setitem (x + width * y) 0))).

Definition hline (width height : Z) (level : Z) : M unit :=
  half_hline width height level "left" 0 ;;
  half_hline width height level "right" 0.

Definition vline (width height : Z) (level : Z) : M unit :=
  half_vline width height level "top" 0 ;;
  half_vline width height level "bottom" 0.

Definition hholes (width height : Z) (level num : Z) : M unit :=
  hline width height level ;;
  add_hholes width height level num.

Definition vholes (width height : Z) (level num : Z) : M unit :=
  vline width height level ;;
  add_vholes width height level num.


(** [which in chars] for a one-character [which] *)
Definition char_in (which : Z) (chars : list Z) : bool :=
  existsb (Z.eqb which) chars.

Definition opt_char_in (which : option Z) (chars : list Z) : bool :=
  match which with
  | Some c => char_in c chars
  | None => false
  end.

Definition opt_char_eq (which : option Z) (c : Z) : bool :=
  match which with
  | Some c' => c' =? c
  | None => false
  end.

Definition corner (width height : Z) (hlevel vlevel : Z) (which : option Z)
    : M unit :=
  let wh := if opt_char_in which [0x250c; 0x2514] then "right"%string else "left"%string in
  e <- lift (thickness g vlevel true) ;;
  half_hline width height hlevel wh (e / 2) ;;
  let wv := if opt_char_in which [0x2514; 0x2518] then "top"%string else "bottom"%string in
  half_vline width height vlevel wv 0.

Definition vert_t (width height : Z) (a b c : Z) (which : option Z) : M unit :=
  half_vline width height a "top" 0 ;;
  half_hline width height b
    (if opt_char_eq which 0x2524 then "left"%string else "right"%string) 0 ;;
  half_vline width height c "bottom" 0.

Definition horz_t (width height : Z) (a b c : Z) (which : option Z) : M unit :=
  half_hline width height a "left" 0 ;;
  half_hline width height b "right" 0 ;;
  half_vline width height c
    (if opt_char_eq which 0x2534 then "top"%string else "bottom"%string) 0.

Definition cross (width height : Z) (a b c d : Z) : M unit :=
  half_hline width height a "left" 0 ;;
  half_hline width height b "right" 0 ;;
  half_vline width height c "top" 0 ;;
  half_vline width height d "bottom" 0.

End Drawing.

(** ** Supersampler *)

Definition rbind {A B} (r : result A) (k : A -> result B) : result B :=
  match r with
  | Ok a => k a
  | Raise e => Raise e
  end.

Fixpoint rfold {A S} (l : list A) (acc : S) (body : S -> A -> result S)
    : result S :=
  match l with
  | [] => Ok acc
  | x :: l' => rbind (body acc x) (fun acc' => rfold l' acc' body)
  end.

(** [a // b] *)
Definition floordiv (a b : Z) : result Z :=
  if b =? 0 then Raise ZeroDivisionError else Ok (a / b).

(** The closure [average_intensity_in_src] of [downsample]. *)
Definition average_intensity_in_src (src : BufType) (src_width factor : Z)
    (dest_x dest_y : Z) : result Z :=
  let src_y := dest_y * factor in
  let src_x := dest_x * factor in
  rbind
    (rfold (range src_y (src_y + factor)) 0 (fun total y =>
       let offset := src_width * y in
       rfold (range src_x (src_x + factor)) total (fun total x =>
         rbind (seq_get src (offset + x)) (fun v => Ok (total + v)))))
    (fun total => floordiv total (factor * factor)).

Definition downsample (src : BufType) (dest_width dest_height factor : Z)
    : M unit :=
  let src_width := 4 * dest_width in
  for_each (range 0 dest_height) (fun y =>
    let offset := dest_width * y in
    for_each (range 0 dest_width) (fun x =>
      old <- getitem (offset + x) ;;
      avg <- lift (average_intensity_in_src src src_width factor x y) ;;
      setitem (offset + x) (Z.min 255 (old + avg)))).

(** Run a drawing computation on another buffer [other] (a scratch buffer,
    not the one being drawn on) and hand back that buffer's final contents. *)
Definition run_on {A} (other : BufType) (m : M A) : M (BufType * A) :=
  fun buf =>
    match m other with
    | (other', Ok a) => (buf, Ok (other', a))
    | (_, Raise e) => (buf, Raise e)
    end.

Definition supersample_factor : Z := 4.

(** [supersampled()(f)].  The scratch buffer is an [SSByteArray] whose
    attribute [supersample_factor] the wrapped routine may read with
    [getattr]; the wrapped routine receives it as its first argument. *)
Definition supersampled (f : Z -> Z -> Z -> M unit) (width height : Z)
    : M unit :=
  let w := supersample_factor * width in
  let h := supersample_factor * height in
  ssbuf <- lift (bytearray (w * h)) ;;
  r <- run_on ssbuf (f supersample_factor w h) ;;
  downsample (fst r) width height supersample_factor.

(** ** CurveRasterizers *)

Definition enumerate {A} (l : list A) : list (Z * A) :=
  zip (range 0 (Z.of_nat (length l))) l.

Definition fill_region (width height : Z) (xlimits : list (float * float))
    : M unit :=
  for_each (range 0 height) (fun y =>
    let offset := y * width in
    for_each (enumerate xlimits) (fun '(x, (upper, lower)) =>
      setitem (x + offset)
        (if fle upper (float_of_int y) && fle (float_of_int y) lower
         then 255 else 0))).

(** [a / b] on integers *)
Definition truediv (a b : Z) : result float :=
  if b =? 0 then Raise ZeroDivisionError
  else Ok (float_of_int a / float_of_int b)%Qc.

Definition line_equation (x1 y1 x2 y2 : Z) : result (Z -> float) :=
  rbind (truediv (y2 - y1) (x2 - x1)) (fun m =>
    let c := (float_of_int y1 - m * float_of_int x1)%Qc in
    Ok (fun x => (m * float_of_int x + c)%Qc)).

Definition triangle_body (ssf width height : Z) (left : bool) : M unit :=
  let '(ay1, by1, y2) := (0, height - 1, height / 2) in
  let '(x1, x2) := if left then (0, width - 1) else (width - 1, 0) in
  uppery <- lift (line_equation x1 ay1 x2 y2) ;;
  lowery <- lift (line_equation x1 by1 x2 y2) ;;
  let xlimits := map (fun x => (uppery x, lowery x)) (range 0 width) in
  fill_region width height xlimits.

Definition triangle (width height : Z) (left : bool) : M unit :=
  supersampled (fun ssf w h => triangle_body ssf w h left) width height.

Definition corner_triangle_body (ssf width height : Z) (corner : string)
    : M unit :=
  xlimits <-
    (if String.eqb corner "top-right" || String.eqb corner "bottom-left" then
       diagonal_y <- lift (line_equation 0 0 (width - 1) (height - 1)) ;;
       if String.eqb corner "top-right" then
         ret (map (fun x => (lit 0 1, diagonal_y x)) (range 0 width))
       else if String.eqb corner "bottom-left" then
         ret (map (fun x => (diagonal_y x, (float_of_int height - lit 1 1)%Qc))
                  (range 0 width))
       else raise UnboundLocalError
     else
       diagonal_y <- lift (line_equation (width - 1) 0 0 (height - 1)) ;;
       if String.eqb corner "top-left" then
         ret (map (fun x => (lit 0 1, diagonal_y x)) (range 0 width))
       else if String.eqb corner "bottom-right" then
         ret (map (fun x => (diagonal_y x, (float_of_int height - lit 1 1)%Qc))
                  (range 0 width))
       else raise UnboundLocalError) ;;
  fill_region width height xlimits.

Definition corner_triangle (width height : Z) (corner : string) : M unit :=
  supersampled (fun ssf w h => corner_triangle_body ssf w h corner)
    width height.

Definition thick_line (width height thickness_in_pixels : Z)
    (p1 p2 : Z * Z) : M unit :=
  let '(p1, p2) := if fst p2 <? fst p1 then (p2, p1) else (p1, p2) in
  leq <- lift (line_equation (fst p1) (snd p1) (fst p2) (snd p2)) ;;
  let '(delta, extra) :=
    (thickness_in_pixels / 2, thickness_in_pixels mod 2) in
  for_each (range (fst p1) (fst p2 + 1)) (fun x =>
    if (0 <=? x) && (x <? width) then
      let y_p := leq x in
      let r := range (int_of_float y_p - delta)
                     (int_of_float y_p + delta + extra) in
      for_each r (fun y =>
        if (0 <=? y) && (y <? height) then setitem (x + y * width) 255
        else ret tt)
    else ret tt).

Section Curves.

Variable g : globals.

Definition cross_line_body (ssf width height : Z) (left : bool) (level : Z)
    : M unit :=
  let '(p1, p2) :=
    if left then ((0, 0), (width - 1, height - 1))
    else ((width - 1, 0), (0, height - 1)) in
  t <- lift (thickness g level true) ;;
  thick_line width height (ssf * t) p1 p2.

Definition cross_line (width height : Z) (left : bool) (level : Z) : M unit :=
  supersampled (fun ssf w h => cross_line_body ssf w h left level)
    width height.

Definition half_cross_line_body (ssf width height : Z) (which : string)
    (level : Z) : M unit :=
  t <- lift (thickness g level true) ;;
  let thickness_in_pixels := t * ssf in
  let my := (height - 1) / 2 in
  let '(p1, p2) :=
    if String.eqb which "tl" then ((0, 0), (width - 1, my))
    else if String.eqb which "bl" then ((width - 1, my), (0, height - 1))
    else if String.eqb which "tr" then ((width - 1, 0), (0, my))
    else ((0, my), (width - 1, height - 1)) in
  thick_line width height thickness_in_pixels p1 p2.

Definition half_cross_line (width height : Z) (which : string) (level : Z)
    : M unit :=
  supersampled (fun ssf w h => half_cross_line_body ssf w h which level)
    width height.

End Curves.

Definition BezierFunc : Type := float -> float.

Definition bezier_eq (p0 p1 p2 p3 : Z) : BezierFunc := fun t =>
  (let tm1 := 1 - t in
   let tm1_3 := tm1 * tm1 * tm1 in
   let t_3 := t * t * t in
   tm1_3 * float_of_int p0
   + float_of_int 3 * t * tm1 * (tm1 * float_of_int p1 + t * float_of_int p2)
   + t_3 * float_of_int p3)%Qc.

Definition cubic_bezier (start end_ c1 c2 : Z * Z) : BezierFunc * BezierFunc :=
  let bezier_x := bezier_eq (fst start) (fst c1) (fst c2) (fst end_) in
  let bezier_y := bezier_eq (snd start) (snd c1) (snd c2) (snd end_) in
  (bezier_x, bezier_y).

Definition find_bezier_for_D_fuel (width : Z) : positive :=
  Z.to_pos (4 * Z.abs width + 8).

Definition find_bezier_for_D (width height : Z) : result Z :=
  let start := (0, 0) in
  let end_ := (0, height - 1) in
  while_true (find_bezier_for_D_fuel width)
    (fun '(cx, last_cx) =>
       let c1 := (cx, snd start) in
       let c2 := (cx, snd end_) in
       let '(bezier_x, bezier_y) := cubic_bezier start end_ c1 c2 in
       if flt (float_of_int (width - 1)) (bezier_x (lit 1 2))
       then Ok (inr last_cx)
       else Ok (inl (cx + 1, cx)))
    (width - 1, width - 1).

Definition find_t_for_x_fuel : positive := 1099511627776.

(** The closure [find_t_for_x] of [get_bezier_limits]. *)
Definition find_t_for_x (bezier_x : BezierFunc) (t_limit : float) (x : Z)
    (start_t : float) : result float :=
  if flt (fabs (bezier_x start_t - float_of_int x)) (lit 1 10)
  then Ok start_t
  else
    let increment := (t_limit - start_t)%Qc in
    if fle increment 0%Qc then Ok start_t
    else
      while_true find_t_for_x_fuel
        (fun '(start_t, increment) =>
           let q := bezier_x (start_t + increment)%Qc in
           if flt (fabs (q - float_of_int x)) (lit 1 10)
           then Ok (inr (start_t + increment)%Qc)
           else if flt (float_of_int x) q then
             let increment := (increment / float_of_int 2)%Qc in
             if flt increment (lit 1 1000000) then Raise ValueError
             else Ok (inl (start_t, increment))
           else
             let start_t := (start_t + increment)%Qc in
             let increment := (t_limit - start_t)%Qc in
             if fle increment 0%Qc then Ok (inr start_t)
             else Ok (inl (start_t, increment)))
        (start_t, increment).

(** The values [get_bezier_limits] yields, as the list [list(...)] collects
    them; the [for] loop carries [last_t] and stops at [break]. *)
Fixpoint bezier_limits_loop (bezier_x bezier_y : BezierFunc)
    (t_limit : float) (start_x : Z) (xs : list Z) (last_t : float)
    : result (list (float * float)) :=
  match xs with
  | [] => Ok []
  | x :: xs' =>
      rbind (if start_x <? x then find_t_for_x bezier_x t_limit x last_t
             else Ok last_t)
        (fun last_t =>
           let '(upper, lower) := (bezier_y last_t, bezier_y (1 - last_t)%Qc) in
           if fle (fabs (upper - lower)) (float_of_int 2) then Ok []
           else
             rbind (bezier_limits_loop bezier_x bezier_y t_limit start_x xs'
                      last_t)
               (fun rest => Ok ((upper, lower) :: rest)))
  end.

Definition get_bezier_limits (bezier_x bezier_y : BezierFunc)
    : result (list (float * float)) :=
  let start_x := int_of_float (bezier_x (float_of_int 0)) in
  let max_x := int_of_float (bezier_x (lit 1 2)) in
  let '(last_t, t_limit) := (lit 0 1, lit 1 2) in
  bezier_limits_loop bezier_x bezier_y t_limit start_x
    (range start_x (max_x + 1)) last_t.

Definition D_body (ssf width height : Z) (left : bool) : M unit :=
  c1x <- lift (find_bezier_for_D width height) ;;
  let start := (0, 0) in
  let end_ := (0, height - 1) in
  let c1 := (c1x, snd start) in
  let c2 := (c1x, snd end_) in
  let '(bezier_x, bezier_y) := cubic_bezier start end_ c1 c2 in
  xlimits <- lift (get_bezier_limits bezier_x bezier_y) ;;
  if left then fill_region width height xlimits
  else
    mbuf <- lift (bytearray (width * height)) ;;
    r <- run_on mbuf (fill_region width height xlimits) ;;
    let mbuf := fst r in
    for_each (range 0 height) (fun y =>
      let offset := y * width in
      for_each (range 0 width) (fun src_x =>
        let dest_x := width - 1 - src_x in
        v <- lift (seq_get mbuf (offset + src_x)) ;;
        setitem (offset + dest_x) v)).

Definition D (width height : Z) (left : bool) : M unit :=
  supersampled (fun ssf w h => D_body ssf w h left) width height.

Definition draw_parametrized_curve (width height thickness_in_pixels : Z)
    (xfunc yfunc : BezierFunc) : M unit :=
  let num_samples := height * 4 in
  let '(delta, extra) :=
    (thickness_in_pixels / 2, thickness_in_pixels mod 2) in
  seen <- for_fold (range 0 (num_samples + 1)) (∅ : gset (Z * Z))
    (fun seen i =>
       t <- lift (truediv i num_samples) ;;
       let '(x_p, y_p) := (int_of_float (xfunc t), int_of_float (yfunc t)) in
       if bool_decide ((x_p, y_p) ∈ seen) then ret seen
       else
         let seen := seen ∪ {[ (x_p, y_p) ]} in
         for_each (range (y_p - delta) (y_p + delta + extra)) (fun y =>
           if (0 <=? y) && (y <? height) then
             let offset := y * width in
             for_each (range (x_p - delta) (x_p + delta + extra)) (fun x =>
               if (0 <=? x) && (x <? width) then
                 let pos := offset + x in
                 old <- getitem pos ;;
                 setitem pos (Z.min 255 (old + 255))
               else ret tt)
           else ret tt) ;;
         ret seen) ;;
  ret tt.

Section RoundedCorner.

Variable g : globals.

Definition rounded_corner_body (ssf width height : Z) (level : Z) (which : Z)
    : M unit :=
  t <- lift (thickness g level true) ;;
  let thickness_in_pixels := t * ssf in
  pts <-
    (if which =? 0x256d then
       ret ((width / 2, height - 1), (width - 1, height / 2),
            (width / 2, int_of_float (lit 3 4 * float_of_int height)),
            (width / 2, height / 2 + 1))
     else if which =? 0x256e then
       ret ((0, height / 2), (width / 2, height - 1),
            (width / 2, height / 2 + 1),
            (width / 2, int_of_float (lit 3 4 * float_of_int height)))
     else if which =? 0x2570 then
       ret ((width / 2, 0), (width - 1, height / 2),
            (width / 2, int_of_float (lit 1 4 * float_of_int height)),
            (width / 2 - 1, height / 2 - 1))
     else if which =? 0x256f then
       ret ((0, height / 2), (width / 2, 0),
            (width / 2 - 1, height / 2 - 1),
            (width / 2, int_of_float (lit 1 4 * float_of_int height)))
     else raise UnboundLocalError) ;;
  let '(start, end_, c1, c2) := pts in
  let '(xfunc, yfunc) := cubic_bezier start end_ c1 c2 in
  draw_parametrized_curve width height thickness_in_pixels xfunc yfunc.

Definition rounded_corner (width height : Z) (level : Z) (which : Z)
    : M unit :=
  supersampled (fun ssf w h => rounded_corner_body ssf w h level which)
    width height.

End RoundedCorner.

(** ** Double lines, corners and pips *)

Section DoubleLines.

Variable g : globals.

Definition opt_str_eq (o : option string) (s : string) : bool :=
  match o with
  | Some s' => String.eqb s' s
  | None => false
  end.

Definition half_dhline (width height : Z) (level : Z) (which : string)
    (only : option string) : M (Z * Z) :=
  let '(x1, x2) :=
    if String.eqb which "left" then (0, width / 2) else (width / 2, width) in
  gap <- lift (thickness g (level + 1) false) ;;
  (if negb (opt_str_eq only "bottom")
   then draw_hline g width x1 x2 (height / 2 - gap) level else ret tt) ;;
  (if negb (opt_str_eq only "top")
   then draw_hline g width x1 x2 (height / 2 + gap) level else ret tt) ;;
  ret (height / 2 - gap, height / 2 + gap).

Definition half_dvline (width height : Z) (level : Z) (which : string)
    (only : option string) : M (Z * Z) :=
  let '(y1, y2) :=
    if String.eqb which "top" then (0, height / 2) else (height / 2, height) in
  gap <- lift (thickness g (level + 1) true) ;;
  (if negb (opt_str_eq only "right")
   then draw_vline g width y1 y2 (width / 2 - gap) level else ret tt) ;;
  (if negb (opt_str_eq only "left")
   then draw_vline g width y1 y2 (width / 2 + gap) level else ret tt) ;;
  ret (width / 2 - gap, width / 2 + gap).

Definition dvline (width height : Z) (only : option string) (level : Z)
    : M (Z * Z) :=
  half_dvline width height level "top" only ;;
  half_dvline width height level "bottom" only.

Definition dhline (width height : Z) (only : option string) (level : Z)
    : M (Z * Z) :=
  half_dhline width height level "left" only ;;
  half_dhline width height level "bottom" only.

Definition dvcorner (width height : Z) (level : Z) (which : Z) : M unit :=
  let hw := if char_in which [0x2552; 0x2558]
            then "right"%string else "left"%string in
  half_dhline width height 1 hw None ;;
  let vw := if char_in which [0x2558; 0x255b]
            then "top"%string else "bottom"%string in
  gap <- lift (thickness g (level + 1) false) ;;
  t <- lift (thickness g level false) ;;
  half_vline g width height 1 vw (gap / 2 + t).

Definition dhcorner (width height : Z) (level : Z) (which : Z) : M unit :=
  let vw := if char_in which [0x2559; 0x255c]
            then "top"%string else "bottom"%string in
  half_dvline width height 1 vw None ;;
  let hw := if char_in which [0x2553; 0x2559]
            then "right"%string else "left"%string in
  gap <- lift (thickness g (level + 1) true) ;;
  t <- lift (thickness g level true) ;;
  half_hline g width height 1 hw (gap / 2 + t).

Definition dcorner (width height : Z) (level : Z) (which : Z) : M unit :=
  let hw := if char_in which [0x2554; 0x255a]
            then "right"%string else "left"%string in
  let vw := if char_in which [0x255a; 0x255d]
            then "top"%string else "bottom"%string in
  hgap <- lift (thickness g (level + 1) false) ;;
  vgap <- lift (thickness g (level + 1) true) ;;
  let '(x1, x2) :=
    if String.eqb hw "left" then (0, width / 2) else (width / 2, width) in
  let ydelta := if String.eqb vw "top" then hgap else - hgap in
  let '(x1, x2) :=
    if String.eqb hw "left" then (x1, x2 + vgap) else (x1 - vgap, x2) in
  draw_hline g width x1 x2 (height / 2 + ydelta) level ;;
  let '(x1, x2) :=
    if String.eqb hw "left" then (x1, x2 - 2 * vgap)
    else (x1 + 2 * vgap, x2) in
  draw_hline g width x1 x2 (height / 2 - ydelta) level ;;
  let '(y1, y2) :=
    if String.eqb vw "top" then (0, height / 2) else (height / 2, height) in
  let xdelta := if String.eqb hw "right" then vgap else - vgap in
  t <- lift (thickness g level true) ;;
  let yd := t / 2 in
  let '(y1, y2) :=
    if String.eqb vw "top" then (y1, y2 + (hgap + yd))
    else (y1 - (hgap + yd), y2) in
  draw_vline g width y1 y2 (width / 2 - xdelta) level ;;
  let '(y1, y2) :=
    if String.eqb vw "top" then (y1, y2 - 2 * hgap)
    else (y1 + 2 * hgap, y2) in
  draw_vline g width y1 y2 (width / 2 + xdelta) level.

Definition dpip (width height : Z) (level : Z) (which : Z) : M unit :=
  if char_in which [0x255f; 0x2562] then
    lr <- dvline width height None 1 ;;
    let '(left_, right_) := lr in
    let '(x1, x2) := if which =? 0x2562 then (0, left_) else (right_, width) in
    draw_hline g width x1 x2 (height / 2) level
  else
    tb <- dhline width height None 1 ;;
    let '(top, bottom) := tb in
    let '(y1, y2) := if which =? 0x2567 then (0, top) else (bottom, height) in
    draw_vline g width y1 y2 (width / 2) level.

(** ['c' in s] for a one-character ['c'] *)
Fixpoint str_contains (c : ascii) (s : string) : bool :=
  match s with
  | EmptyString => false
  | String c' s' => Ascii.eqb c c' || str_contains c s'
  end.

Definition inner_corner (width height : Z) (which : string) (level : Z)
    : M unit :=
  hgap <- lift (thickness g (level + 1) true) ;;
  vgap <- lift (thickness g (level + 1) false) ;;
  t <- lift (thickness g level true) ;;
  let vthick := t / 2 in
  let '(x1, x2) :=
    if str_contains "l" which then (0, width / 2 - hgap + vthick + 1)
    else (width / 2 + hgap - vthick, width) in
  let yd := if str_contains "t" which then -1 else 1 in
  draw_hline g width x1 x2 (height / 2 + yd * vgap) level ;;
  let '(y1, y2) :=
    if str_contains "t" which then (0, height / 2 - vgap)
    else (height / 2 + vgap, height) in
  let xd := if str_contains "l" which then -1 else 1 in
  draw_vline g width y1 y2 (width / 2 + xd * hgap) level.

End DoubleLines.

(** ** BlockShadeQuadFillers *)

Definition vblock (width height : Z) (frac : float) (gravity : string)
    : M unit :=
  let num_rows := Z.min height (py_round (frac * float_of_int height)) in
  let start := if String.eqb gravity "top" then 0 else height - num_rows in
  for_each (range start (start + num_rows)) (fun r =>
    let off := r * width in
    for_each (range off (off + width)) (fun c => setitem c 255)).

Definition hblock (width height : Z) (frac : float) (gravity : string)
    : M unit :=
  let num_cols := Z.min width (py_round (frac * float_of_int width)) in
  let start := if String.eqb gravity "left" then 0 else width - num_cols in
  for_each (range 0 height) (fun r =>
    let off := r * width + start in
    for_each (range off (off + num_cols)) (fun c => setitem c 255)).

(** The first loop nest of [shade], which writes to [dest]. *)
Definition shade_squares (width height : Z) (light : bool) : M unit :=
  let square_sz := Z.max 1 (width / 12) in
  let number_of_rows := height / square_sz in
  let number_of_cols := width / square_sz in
  let nums := range 0 square_sz in
  for_each (range 0 number_of_rows) (fun r =>
    let is_odd := negb (r mod 2 =? 0) in
    if is_odd then ret tt
    else
      let fill_even := r mod 4 =? 0 in
      for_break nums (fun yr =>
        let y := r * square_sz + yr in
        if height <=? y then ret true
        else
          let off := width * y in
          for_each (range 0 number_of_cols) (fun c =>
            let fill :=
              if light then c mod 4 =? (if fill_even then 0 else 2)
              else Bool.eqb (c mod 2 =? 0) fill_even in
            if fill then
              for_break nums (fun xc =>
                let x := c * square_sz + xc in
                if width <=? x then ret true
                else setitem (off + x) 255 ;; ret false)
            else ret tt) ;;
          ret false)).

Definition shade (width height : Z) (light invert : bool) : M unit :=
  if invert then
    dest <- lift (bytearray (width * height)) ;;
    r <- run_on dest (shade_squares width height light) ;;
    let dest := fst r in
    for_each (range 0 height) (fun y =>
      let off := width * y in
      for_each (range 0 width) (fun x =>
        let q := off + x in
        v <- lift (seq_get dest q) ;;
        setitem q (255 - v)))
  else shade_squares width height light.

Definition quad (width height : Z) (x y : Z) : M unit :=
  let num_cols := width / 2 in
  let left := x * num_cols in
  let right := if x =? 0 then num_cols else width in
  let num_rows := height / 2 in
  let top := y * num_rows in
  let bottom := if y =? 0 then num_rows else height in
  for_each (range top bottom) (fun r =>
    let off := r * width in
    for_each (range left right) (fun c => setitem (off + c) 255)).

(** ** GlyphDispatchTable and RenderEntryPoint *)

(** A drawing step of a recipe: a routine bound to its parameters
    ([functools.partial]), called as [func(buf, width, height)].  It reads the
    module globals at the time of the call. *)
Definition DrawingStep : Type := globals -> Z -> Z -> M unit.

(** The entries of the dict display.  Every key is a character literal of the
    source, written here as its code point: the box drawing block U+2500 to
    U+257F, the powerline symbols U+E0B0 to U+E0BE and the block elements
    U+2580 to U+259F. *)
Definition box_chars_display : list (Z * list DrawingStep) := [
  (0x2500, [fun g w h => hline g w h 1]);
  (0x2501, [fun g w h => hline g w h 3]);
  (0x2502, [fun g w h => vline g w h 1]);
  (0x2503, [fun g w h => vline g w h 3]);
  (0x254c, [fun g w h => hholes g w h 1 1]);
  (0x254d, [fun g w h => hholes g w h 3 1]);
  (0x2504, [fun g w h => hholes g w h 1 2]);
  (0x2505, [fun g w h => hholes g w h 3 2]);
  (0x2508, [fun g w h => hholes g w h 1 3]);
  (0x2509, [fun g w h => hholes g w h 3 3]);
  (0x254e, [fun g w h => vholes g w h 1 1]);
  (0x254f, [fun g w h => vholes g w h 3 1]);
  (0x2506, [fun g w h => vholes g w h 1 2]);
  (0x2507, [fun g w h => vholes g w h 3 2]);
  (0x250a, [fun g w h => vholes g w h 1 3]);
  (0x250b, [fun g w h => vholes g w h 3 3]);
  (0x2574, [fun g w h => half_hline g w h 1 "left" 0]);
  (0x2575, [fun g w h => half_vline g w h 1 "top" 0]);
  (0x2576, [fun g w h => half_hline g w h 1 "right" 0]);
  (0x2577, [fun g w h => half_vline g w h 1 "bottom" 0]);
  (0x2578, [fun g w h => half_hline g w h 3 "left" 0]);
  (0x2579, [fun g w h => half_vline g w h 3 "top" 0]);
  (0x257a, [fun g w h => half_hline g w h 3 "right" 0]);
  (0x257b, [fun g w h => half_vline g w h 3 "bottom" 0]);
  (0x257c, [fun g w h => half_hline g w h 1 "left" 0;
            fun g w h => half_hline g w h 3 "right" 0]);
  (0x257d, [fun g w h => half_vline g w h 1 "top" 0;
            fun g w h => half_vline g w h 3 "bottom" 0]);
  (0x257e, [fun g w h => half_hline g w h 3 "left" 0;
            fun g w h => half_hline g w h 1 "right" 0]);
  (0x257f, [fun g w h => half_vline g w h 3 "top" 0;
            fun g w h => half_vline g w h 1 "bottom" 0]);
  (0xe0b0, [fun g w h => triangle w h true]);
  (0xe0b2, [fun g w h => triangle w h false]);
  (0xe0b4, [fun g w h => D w h true]);
  (0xe0b6, [fun g w h => D w h false]);
  (0xe0b1, [fun g w h => half_cross_line g w h "tl" 1;
            fun g w h => half_cross_line g w h "bl" 1]);
  (0xe0b3, [fun g w h => half_cross_line g w h "tr" 1;
            fun g w h => half_cross_line g w h "br" 1]);
  (0xe0b8, [fun g w h => corner_triangle w h "bottom-left"]);
  (0xe0ba, [fun g w h => corner_triangle w h "bottom-right"]);
  (0xe0bc, [fun g w h => corner_triangle w h "top-left"]);
  (0xe0be, [fun g w h => corner_triangle w h "top-right"]);
  (0x2550, [fun g w h => void (dhline g w h None 1)]);
  (0x2551, [fun g w h => void (dvline g w h None 1)]);
  (0x255e, [fun g w h => vline g w h 1;
            fun g w h => void (half_dhline g w h 1 "right" None)]);
  (0x2561, [fun g w h => vline g w h 1;
            fun g w h => void (half_dhline g w h 1 "left" None)]);
  (0x2565, [fun g w h => hline g w h 1;
            fun g w h => void (half_dvline g w h 1 "bottom" None)]);
  (0x2568, [fun g w h => hline g w h 1;
            fun g w h => void (half_dvline g w h 1 "top" None)]);
  (0x256a, [fun g w h => vline g w h 1;
            fun g w h => void (half_dhline g w h 1 "left" None);
            fun g w h => void (half_dhline g w h 1 "right" None)]);
  (0x256b, [fun g w h => hline g w h 1;
            fun g w h => void (half_dvline g w h 1 "top" None);
            fun g w h => void (half_dvline g w h 1 "bottom" None)]);
  (0x256c, map (fun x => (fun g w h => inner_corner g w h x 1) : DrawingStep)
             ["tl"; "tr"; "bl"; "br"]%string);
  (0x2560, [fun g w h => inner_corner g w h "tr" 1;
            fun g w h => inner_corner g w h "br" 1;
            fun g w h => void (dvline g w h (Some "left"%string) 1)]);
  (0x2563, [fun g w h => inner_corner g w h "tl" 1;
            fun g w h => inner_corner g w h "bl" 1;
            fun g w h => void (dvline g w h (Some "right"%string) 1)]);
  (0x2566, [fun g w h => inner_corner g w h "bl" 1;
            fun g w h => inner_corner g w h "br" 1;
            fun g w h => void (dhline g w h (Some "top"%string) 1)]);
  (0x2569, [fun g w h => inner_corner g w h "tl" 1;
            fun g w h => inner_corner g w h "tr" 1;
            fun g w h => void (dhline g w h (Some "bottom"%string) 1)]);
  (0x2571, [fun g w h => cross_line g w h false 1]);
  (0x2572, [fun g w h => cross_line g w h true 1]);
  (0x2573, [fun g w h => cross_line g w h true 1;
            fun g w h => cross_line g w h false 1]);
  (0x2580, [fun g w h => vblock w h (lit 1 2) "top"]);
  (0x2581, [fun g w h => vblock w h (lit 1 8) "bottom"]);
  (0x2582, [fun g w h => vblock w h (lit 1 4) "bottom"]);
  (0x2583, [fun g w h => vblock w h (lit 3 8) "bottom"]);
  (0x2584, [fun g w h => vblock w h (lit 1 2) "bottom"]);
  (0x2585, [fun g w h => vblock w h (lit 5 8) "bottom"]);
  (0x2586, [fun g w h => vblock w h (lit 3 4) "bottom"]);
  (0x2587, [fun g w h => vblock w h (lit 7 8) "bottom"]);
  (0x2588, [fun g w h => vblock w h (float_of_int 1) "bottom"]);
  (0x2589, [fun g w h => hblock w h (lit 7 8) "left"]);
  (0x258a, [fun g w h => hblock w h (lit 3 4) "left"]);
  (0x258b, [fun g w h => hblock w h (lit 5 8) "left"]);
  (0x258c, [fun g w h => hblock w h (lit 1 2) "left"]);
  (0x258d, [fun g w h => hblock w h (lit 3 8) "left"]);
  (0x258e, [fun g w h => hblock w h (lit 1 4) "left"]);
  (0x258f, [fun g w h => hblock w h (lit 1 8) "left"]);
  (0x2590, [fun g w h => hblock w h (lit 1 2) "right"]);
  (0x2591, [fun g w h => shade w h true false]);
  (0x2592, [fun g w h => shade w h false false]);
  (0x2593, [fun g w h => shade w h false true]);
  (0x2594, [fun g w h => vblock w h (lit 1 8) "top"]);
  (0x2595, [fun g w h => hblock w h (lit 1 8) "right"]);
  (0x2596, [fun g w h => quad w h 0 1]);
  (0x2597, [fun g w h => quad w h 1 1]);
  (0x2598, [fun g w h => quad w h 0 0]);
  (0x2599, [fun g w h => quad w h 0 0; fun g w h => quad w h 0 1;
            fun g w h => quad w h 1 1]);
  (0x259a, [fun g w h => quad w h 0 0; fun g w h => quad w h 1 1]);
  (0x259b, [fun g w h => quad w h 0 0; fun g w h => quad w h 1 0;
            fun g w h => quad w h 0 1]);
  (0x259c, [fun g w h => quad w h 0 0; fun g w h => quad w h 1 1;
            fun g w h => quad w h 1 0]);
  (0x259d, [fun g w h => quad w h 1 0]);
  (0x259e, [fun g w h => quad w h 1 0; fun g w h => quad w h 0 1]);
  (0x259f, [fun g w h => quad w h 1 0; fun g w h => quad w h 0 1;
            fun g w h => quad w h 1 1])
].

Definition t : Z := 1.
Definition f : Z := 3.

(** [enumerate] with the index added to a code point *)
Definition family {A} (start : Z) (params : list A)
    (entry : A -> list DrawingStep) : list (Z * list DrawingStep) :=
  map (fun '(i, a) => (start + i, entry a)) (enumerate params).

Definition corner_family : list (Z * list DrawingStep) :=
  flat_map (fun start =>
    family start [(t, t); (f, t); (t, f); (f, f)]
      (fun '(hlevel, vlevel) =>
         [fun g w h => corner g w h hlevel vlevel (Some start)]))
    [0x250c; 0x2510; 0x2514; 0x2518].

Definition rounded_corner_family : list (Z * list DrawingStep) :=
  map (fun ch => (ch, [(fun g w h => rounded_corner g w h 1 ch) : DrawingStep]))
    [0x256d; 0x256e; 0x2570; 0x256f].

(** The family of crosses starts at U+253C, the full light cross. *)
Definition cross_family : list (Z * list DrawingStep) :=
  family 0x253c
    [(t, t, t, t); (f, t, t, t); (t, f, t, t); (f, f, t, t); (t, t, f, t);
     (t, t, t, f); (t, t, f, f); (f, t, f, t); (t, f, f, t); (f, t, t, f);
     (t, f, t, f); (f, f, f, t); (f, f, t, f); (f, t, f, f); (t, f, f, f);
     (f, f, f, f)]
    (fun '(a_, b_, c_, d_) => [fun g w h => cross g w h a_ b_ c_ d_]).

Definition t_families : list (Z * list DrawingStep) :=
  flat_map (fun '(starts, func, pattern) =>
    flat_map (fun start =>
      family start pattern
        (fun '(a_, b_, c_) =>
           [(fun g w h => func g w h a_ b_ c_ (Some start)) : DrawingStep]))
      starts)
    [([0x251c; 0x2524], vert_t,
      [(t, t, t); (t, f, t); (f, t, t); (t, t, f); (f, t, f); (f, f, t);
       (t, f, f); (f, f, f)]);
     ([0x252c; 0x2534], horz_t,
      [(t, t, t); (f, t, t); (t, f, t); (f, f, t); (t, t, f); (f, t, f);
       (t, f, f); (f, f, f)])].

Definition double_families : list (Z * list DrawingStep) :=
  flat_map (fun '(chars, func_) =>
    map (fun ch => (ch, [(fun g w h => func_ g w h 1 ch) : DrawingStep]))
      chars)
    [([0x2552; 0x2555; 0x2558; 0x255b], dvcorner);
     ([0x2553; 0x2556; 0x2559; 0x255c], dhcorner);
     ([0x2554; 0x2557; 0x255a; 0x255d], dcorner);
     ([0x255f; 0x2562; 0x2564; 0x2567], dpip)].

(** [d[k] = v] for each pair, in order. *)
Definition dict_update (d : gmap Z (list DrawingStep))
    (items : list (Z * list DrawingStep)) : gmap Z (list DrawingStep) :=
  foldl (fun d '(k, v) => <[k := v]> d) d items.

Definition box_chars : gmap Z (list DrawingStep) :=
  dict_update ∅
    (box_chars_display ++ corner_family ++ rounded_corner_family
     ++ cross_family ++ t_families ++ double_families).

(** [render_box_char(ch, buf, width, height, dpi)].  The result is the
    module globals after the call, the contents of [buf] after the call, and
    the outcome; on [Ok] the call returns [buf] itself. *)
Definition render_box_char (g : globals) (ch : Z) (buf : BufType)
    (width height : Z) (dpi : float) : globals * (BufType * result unit) :=
  let g := {| scale := scale g; _dpi := dpi |} in
  match box_chars !! ch with
  | None => (g, (buf, Raise KeyError))
  | Some recipe =>
      (g, for_each recipe (fun func => func g width height) buf)
  end.

Definition render_missing_glyph (g : globals) (width height : Z) : M unit :=
  hgap <- lift (rbind (thickness g 0 true) (fun v => Ok (v + 1))) ;;
  vgap <- lift (rbind (thickness g 0 false) (fun v => Ok (v + 1))) ;;
  draw_hline g width hgap (width - hgap + 1) vgap 0 ;;
  draw_hline g width hgap (width - hgap + 1) (height - vgap) 0 ;;
  draw_vline g width vgap (height - vgap + 1) hgap 0 ;;
  draw_vline g width vgap (height - vgap + 1) (width - hgap) 0.

Definition zeros (n : Z) : BufType := replicate (Z.to_nat n) 0.


(** * Properties *)

(** ** Ranges and subscripts *)

Lemma in_range (a b x : Z) : In x (range a b) <-> a <= x < b.
Proof.
  unfold range. rewrite in_map_iff. split.
  - intros (i & <- & Hi). apply in_seq in Hi. lia.
  - intros H. exists (Z.to_nat (x - a)). split; [lia|].
    apply in_seq. lia.
Qed.

Lemma range_empty (a b : Z) : b <= a -> range a b = [].
Proof.
  intros H. unfold range. replace (Z.to_nat (b - a)) with 0%nat by lia.
  reflexivity.
Qed.

Lemma range_cons (a b : Z) : a < b -> range a b = a :: range (a + 1) b.
Proof.
  intros H. unfold range.
  replace (Z.to_nat (b - a)) with (S (Z.to_nat (b - (a + 1)))) by lia.
  cbn [seq map]. f_equal; [lia|].
  rewrite <- seq_shift, map_map. apply map_ext. intros i. lia.
Qed.

Lemma length_range (a b : Z) : length (range a b) = Z.to_nat (b - a).
Proof. unfold range. now rewrite length_map, length_seq. Qed.

Lemma norm_index_in_range (n i : Z) :
  0 <= i < n -> norm_index n i = Some (Z.to_nat i).
Proof.
  intros H. unfold norm_index.
  destruct (Z.leb_spec 0 i), (Z.ltb_spec i n); try lia. reflexivity.
Qed.

Lemma norm_index_lt (n i : Z) (k : nat) :
  norm_index n i = Some k -> (Z.of_nat k < n)%Z.
Proof.
  unfold norm_index.
  destruct (Z.leb_spec 0 i), (Z.ltb_spec i n), (Z.leb_spec (- n) i),
    (Z.ltb_spec i 0); cbn; intros [= <-]; lia.
Qed.

Lemma setitem_length (i v : Z) (buf : BufType) :
  length (fst (setitem i v buf)) = length buf.
Proof.
  unfold setitem. destruct (norm_index _ i); cbn; [apply length_insert|easy].
Qed.

Lemma setitem_in_range (i v : Z) (buf : BufType) :
  0 <= i < Z.of_nat (length buf) ->
  setitem i v buf = (<[Z.to_nat i := v]> buf, Ok tt).
Proof.
  intros H. unfold setitem. now rewrite norm_index_in_range.
Qed.

Lemma seq_get_in_range (i : Z) (buf : BufType) :
  0 <= i < Z.of_nat (length buf) ->
  exists v, buf !! Z.to_nat i = Some v /\ seq_get buf i = Ok v.
Proof.
  intros H. unfold seq_get. rewrite norm_index_in_range by easy.
  destruct (buf !! Z.to_nat i) as [v|] eqn:E; [eauto|].
  apply lookup_ge_None in E. lia.
Qed.

(** ** Painting: computations that store one value at a set of positions *)

(** [painted m S v]: on a buffer that contains every position of [S], the
    computation [m] returns normally, keeps the length, stores [v] at the
    positions of [S] and leaves the other items as they were. *)
Definition painted (m : M unit) (S : Z -> bool) (v : Z) : Prop :=
  forall buf : BufType,
    (forall i, S i = true -> 0 <= i < Z.of_nat (length buf)) ->
    exists buf' : BufType,
      m buf = (buf', Ok tt) /\ length buf' = length buf /\
      forall i, 0 <= i ->
        buf' !! Z.to_nat i = if S i then Some v else buf !! Z.to_nat i.

Lemma painted_ext (m : M unit) (S S' : Z -> bool) (v : Z) :
  (forall i, S i = S' i) -> painted m S v -> painted m S' v.
Proof.
  intros E H buf Hb.
  destruct (H buf) as (buf' & ? & ? & Hp).
  - intros i Hi. apply Hb. now rewrite <- E.
  - exists buf'. repeat split; try easy. intros i Hi. rewrite <- E. now apply Hp.
Qed.

Lemma painted_ret (v : Z) : painted (ret tt) (fun _ => false) v.
Proof. intros buf _. exists buf. easy. Qed.

Lemma painted_setitem (j v : Z) : painted (setitem j v) (Z.eqb j) v.
Proof.
  intros buf Hb. assert (Hj : 0 <= j < Z.of_nat (length buf))
    by (apply Hb, Z.eqb_refl).
  exists (<[Z.to_nat j := v]> buf). rewrite setitem_in_range by easy.
  repeat split; [apply length_insert|]. intros i Hi.
  destruct (Z.eqb_spec j i) as [->|Hne].
  - apply list_lookup_insert_eq. lia.
  - apply list_lookup_insert_ne. lia.
Qed.

Lemma painted_seq (m1 m2 : M unit) (S1 S2 : Z -> bool) (v : Z) :
  painted m1 S1 v -> painted m2 S2 v ->
  painted (m1 ;; m2) (fun i => S1 i || S2 i) v.
Proof.
  intros H1 H2 buf Hb.
  destruct (H1 buf) as (buf1 & E1 & L1 & P1).
  { intros i Hi. apply Hb. now rewrite Hi. }
  destruct (H2 buf1) as (buf2 & E2 & L2 & P2).
  { intros i Hi. rewrite L1. apply Hb. rewrite Hi. apply orb_true_r. }
  exists buf2. unfold bind. rewrite E1, E2. repeat split; [congruence|].
  intros i Hi. rewrite P2, P1 by easy. now destruct (S1 i), (S2 i).
Qed.

Lemma painted_for_each {A} (l : list A) (body : A -> M unit)
    (S : A -> Z -> bool) (v : Z) :
  (forall a, In a l -> painted (body a) (S a) v) ->
  painted (for_each l body) (fun i => existsb (fun a => S a i) l) v.
Proof.
  induction l as [|a l IH]; intros Hbody.
  - apply painted_ret.
  - cbn [for_each existsb]. apply painted_seq.
    + apply Hbody. now left.
    + apply IH. intros a' Ha'. apply Hbody. now right.
Qed.

Lemma existsb_range (P : Z -> bool) (a b : Z) :
  existsb P (range a b) = true <-> exists x, a <= x < b /\ P x = true.
Proof.
  rewrite existsb_exists. split; intros (x & Hx & HP); exists x.
  - now apply in_range in Hx.
  - now rewrite in_range.
Qed.

(** Storing [v] at [base + x] for the [x] of a range. *)
Lemma painted_run (base a b v : Z) :
  painted (for_each (range a b) (fun x => setitem (base + x) v))
    (fun i => (base + a <=? i) && (i <? base + b)) v.
Proof.
  eapply painted_ext; [|apply painted_for_each; intros x _; apply painted_setitem].
  intros i. cbn beta. apply eq_true_iff_eq. rewrite existsb_range.
  rewrite andb_true_iff, Z.leb_le, Z.ltb_lt. split.
  - intros (x & Hx & E). apply Z.eqb_eq in E. lia.
  - intros H. exists (i - base). split; [lia|]. apply Z.eqb_eq. lia.
Qed.

(** ** Pixels *)

(** The pixel in column [c] of row [r] of a buffer of rows of [width]. *)
Definition pixel (buf : BufType) (width c r : Z) : option Z :=
  buf !! Z.to_nat (r * width + c).

(** [lo <= x < hi] *)
Definition between (lo hi x : Z) : bool := (lo <=? x) && (x <? hi).

Lemma between_spec (lo hi x : Z) : between lo hi x = true <-> lo <= x < hi.
Proof. unfold between. rewrite andb_true_iff, Z.leb_le, Z.ltb_lt. tauto. Qed.

(** Rows [y1 <= y < y2], columns [x1 <= x < x2], stored row by row. *)
Lemma painted_rows (width x1 x2 y1 y2 v : Z) :
  painted
    (for_each (range y1 y2) (fun y =>
       for_each (range x1 x2) (fun x => setitem (y * width + x) v)))
    (fun i => existsb (fun y => between (y * width + x1) (y * width + x2) i)
                (range y1 y2)) v.
Proof. apply painted_for_each. intros y _. apply painted_run. Qed.

(** The same rectangle stored column by column. *)
Lemma painted_columns (width x1 x2 y1 y2 v : Z) :
  painted
    (for_each (range x1 x2) (fun x =>
       for_each (range y1 y2) (fun y => setitem (x + y * width) v)))
    (fun i => existsb (fun x => existsb (fun y => x + y * width =? i)
                                  (range y1 y2)) (range x1 x2)) v.
Proof.
  apply painted_for_each. intros x _.
  apply painted_for_each. intros y _. apply painted_setitem.
Qed.

(** In a buffer of rows of [width], the rectangle of columns [x1 <= c < x2]
    and rows [y1 <= r < y2], with [0 <= x1] and [x2 <= width]. *)
Definition in_rect (x1 x2 y1 y2 c r : Z) : bool :=
  between x1 x2 c && between y1 y2 r.

Lemma rows_in_rect (width x1 x2 y1 y2 c r : Z) :
  0 <= x1 -> x2 <= width -> 0 <= c < width ->
  existsb (fun y => between (y * width + x1) (y * width + x2) (r * width + c))
    (range y1 y2) = in_rect x1 x2 y1 y2 c r.
Proof.
  intros H1 H2 Hc. apply eq_true_iff_eq. rewrite existsb_range. unfold in_rect.
  rewrite andb_true_iff, !between_spec. split.
  - intros (y & Hy & E). apply between_spec in E.
    assert (y = r) by nia. subst y. lia.
  - intros [Hx Hr]. exists r. split; [easy|]. apply between_spec. lia.
Qed.

Lemma columns_in_rect (width x1 x2 y1 y2 c r : Z) :
  0 <= x1 -> x2 <= width -> 0 <= c < width ->
  existsb (fun x => existsb (fun y => x + y * width =? r * width + c)
                      (range y1 y2)) (range x1 x2)
  = in_rect x1 x2 y1 y2 c r.
Proof.
  intros H1 H2 Hc. apply eq_true_iff_eq. rewrite existsb_range. unfold in_rect.
  rewrite andb_true_iff, !between_spec. split.
  - intros (x & Hx & E). apply existsb_range in E as (y & Hy & E).
    apply Z.eqb_eq in E. assert (y = r) by nia. subst y. lia.
  - intros [Hx Hr]. exists c. split; [easy|]. apply existsb_range.
    exists r. split; [easy|]. apply Z.eqb_eq. lia.
Qed.

Lemma rect_in_buffer (width height x1 x2 y1 y2 i : Z) (buf : BufType) :
  Z.of_nat (length buf) = width * height ->
  0 <= x1 -> x2 <= width -> 0 <= y1 -> y2 <= height ->
  (exists y, y1 <= y < y2 /\ y * width + x1 <= i < y * width + x2) ->
  0 <= i < Z.of_nat (length buf).
Proof. intros -> ? ? ? ? (y & Hy & Hi). nia. Qed.

(** [rect_painted buf buf' width height x1 x2 y1 y2 v]: [buf'] is [buf] with
    the pixels of the rectangle set to [v]. *)
Definition rect_painted (buf buf' : BufType) (width height x1 x2 y1 y2 v : Z)
    : Prop :=
  length buf' = length buf /\
  forall c r, 0 <= c < width -> 0 <= r < height ->
    pixel buf' width c r =
      if in_rect x1 x2 y1 y2 c r then Some v else pixel buf width c r.

Lemma fill_rows (width height x1 x2 y1 y2 v : Z) (buf : BufType) :
  Z.of_nat (length buf) = width * height ->
  0 <= x1 -> x2 <= width -> 0 <= y1 -> y2 <= height ->
  exists buf',
    for_each (range y1 y2) (fun y =>
      for_each (range x1 x2) (fun x => setitem (y * width + x) v)) buf
    = (buf', Ok tt) /\
    rect_painted buf buf' width height x1 x2 y1 y2 v.
Proof.
  intros L H1 H2 H3 H4.
  destruct (painted_rows width x1 x2 y1 y2 v buf) as (buf' & E & L' & P).
  { intros i Hi. apply existsb_range in Hi as (y & Hy & Hi).
    apply between_spec in Hi.
    apply (rect_in_buffer width height x1 x2 y1 y2); try easy.
    now exists y. }
  exists buf'. split; [easy|]. split; [easy|]. intros c r Hc Hr.
  unfold pixel. rewrite P by nia. now rewrite rows_in_rect.
Qed.

Lemma fill_columns (width height x1 x2 y1 y2 v : Z) (buf : BufType) :
  Z.of_nat (length buf) = width * height ->
  0 <= x1 -> x2 <= width -> 0 <= y1 -> y2 <= height ->
  exists buf',
    for_each (range x1 x2) (fun x =>
      for_each (range y1 y2) (fun y => setitem (x + y * width) v)) buf
    = (buf', Ok tt) /\
    rect_painted buf buf' width height x1 x2 y1 y2 v.
Proof.
  intros L H1 H2 H3 H4.
  destruct (painted_columns width x1 x2 y1 y2 v buf) as (buf' & E & L' & P).
  { intros i Hi. apply existsb_range in Hi as (x & Hx & Hi).
    apply existsb_range in Hi as (y & Hy & Hi). apply Z.eqb_eq in Hi. nia. }
  exists buf'. split; [easy|]. split; [easy|]. intros c r Hc Hr.
  unfold pixel. rewrite P by nia. now rewrite columns_in_rect.
Qed.

(** ** PrimitiveDrawing: the bands of [draw_hline] and [draw_vline] *)

(** C8.  [draw_hline] stores 255 in exactly the pixels of columns
    [x1 <= c < x2] and rows [y - sz // 2 <= r < y - sz // 2 + sz], where
    [sz] is [thickness(level, horizontal=False)] and [//] is floor division,
    and leaves every other pixel as it was; [draw_vline] is the transpose
    (rows [y1 <= r < y2], columns [x - sz // 2 <= c < x - sz // 2 + sz]).
    The buffer holds [width * height] pixels and the band lies inside it,
    the contract the primitives leave to their callers. *)
Theorem draw_hline_vline_band (g : globals) (buf : BufType)
    (width height level sz : Z) :
  thickness g level false = Ok sz ->
  Z.of_nat (length buf) = width * height ->
  (forall x1 x2 y,
     0 <= x1 -> x2 <= width -> 0 <= y - sz / 2 -> y - sz / 2 + sz <= height ->
     exists buf',
       draw_hline g width x1 x2 y level buf = (buf', Ok tt) /\
       rect_painted buf buf' width height
         x1 x2 (y - sz / 2) (y - sz / 2 + sz) 255) /\
  (forall y1 y2 x,
     0 <= y1 -> y2 <= height -> 0 <= x - sz / 2 -> x - sz / 2 + sz <= width ->
     exists buf',
       draw_vline g width y1 y2 x level buf = (buf', Ok tt) /\
       rect_painted buf buf' width height
         (x - sz / 2) (x - sz / 2 + sz) y1 y2 255).
Proof.
  intros Ht L. split.
  - intros x1 x2 y H1 H2 H3 H4. unfold draw_hline, bind, lift. rewrite Ht.
    now apply fill_rows.
  - intros y1 y2 x H1 H2 H3 H4. unfold draw_vline, bind, lift.
    replace (thickness g level true) with (Ok sz : result Z) by easy.
    now apply fill_columns.
Qed.

(** ** ScaleConfig: the thickness of a level *)

Lemma tuple4_get_level (s : float * float * float * float) (level : Z) :
  0 <= level <= 3 -> exists pts, tuple4_get s level = Ok pts.
Proof.
  intros H. destruct s as [[[s0 s1] s2] s3].
  assert (level = 0 \/ level = 1 \/ level = 2 \/ level = 3) as
    [-> | [-> | [-> | ->]]] by lia; cbn; eauto.
Qed.




(** The levels of a scale table increase and are positive. *)
Definition scale_increasing (s : float * float * float * float) : Prop :=
  let '(s0, s1, s2, s3) := s in
  (0 < s0 /\ s0 <= s1 /\ s1 <= s2 /\ s2 <= s3)%Qc.

Lemma initial_scale_increasing : scale_increasing initial_scale.
Proof. cbv. repeat split; discriminate. Qed.


(** The thickness of level [L] with the scale table [s] at [dpi]. *)
Definition thickness_at (s : float * float * float * float) (dpi : float)
    (L : Z) : result Z :=
  thickness {| scale := s; _dpi := dpi |} L true.


(** ** [thickness] in binary64 *)

(** The binary64 thickness and the thickness of the exact reading of the
    same table and dpi are the same integer. *)
Definition thickness_agrees (dpi level : Z) : bool :=
  match Binary64.thickness (Binary64.at_dpi dpi) level true,
        thickness_at (Binary64.exact_scale Binary64.initial_scale)
          (float_of_int dpi) level with
  | Ok a, Ok b => a =? b
  | _, _ => false
  end.

Lemma thickness_agrees_to_1200 :
  forallb (fun dpi => forallb (thickness_agrees dpi) (range 0 4))
    (range 1 1201) = true.
Proof. vm_compute. reflexivity. Qed.

(** For the module's table and an integer dpi from 1 to 1200 no rounding of
    the quotient or of the product crosses an integer. *)
Lemma thickness_binary64_exact (level dpi : Z) (horizontal : bool) :
  0 <= level <= 3 -> 1 <= dpi <= 1200 ->
  Binary64.thickness (Binary64.at_dpi dpi) level horizontal
  = thickness_at (Binary64.exact_scale Binary64.initial_scale)
      (float_of_int dpi) level.
Proof.
  intros Hl Hd. pose proof thickness_agrees_to_1200 as H.
  rewrite forallb_forall in H.
  specialize (H dpi (proj2 (in_range 1 1201 dpi) ltac:(lia))).
  rewrite forallb_forall in H.
  specialize (H level (proj2 (in_range 0 4 level) ltac:(lia))).
  unfold thickness_agrees in H.
  change (Binary64.thickness (Binary64.at_dpi dpi) level horizontal)
    with (Binary64.thickness (Binary64.at_dpi dpi) level true).
  destruct (Binary64.thickness _ _ _) as [a|]; [|discriminate].
  destruct (thickness_at _ _ _) as [b|]; [|discriminate].
  apply Z.eqb_eq in H. now subst.
Qed.




(** C5.  With the scale table of the module and the dpi [float(dpi)] of an
    integer from 1 to 1200, the binary64 [thickness(level, horizontal)] of a
    level in {0, 1, 2, 3} is [ceil(scale[level] * dpi / 72)], the ceiling of
    the exact quotient; and for every table and every dpi the flag
    [horizontal] does not change the result. *)
Theorem thickness_binary64_formula (level dpi : Z) (horizontal : bool) :
  0 <= level <= 3 -> 1 <= dpi <= 1200 ->
  exists pts : Binary64.float,
    Binary64.tuple4_get Binary64.initial_scale level = Ok pts /\
    Binary64.thickness (Binary64.at_dpi dpi) level horizontal
    = Ok (ceil (Binary64.exact pts * float_of_int dpi / lit 72 1)) /\
    forall g : Binary64.globals,
      Binary64.thickness g level true = Binary64.thickness g level false.
Proof.
  intros Hl Hd. rewrite (thickness_binary64_exact level dpi horizontal Hl Hd).
  unfold thickness_at, thickness. cbn [scale _dpi].
  assert (level = 0 \/ level = 1 \/ level = 2 \/ level = 3)
    as [-> | [-> | [-> | ->]]] by lia;
    (eexists; split; [reflexivity|]; split; [|reflexivity];
     cbn [Binary64.exact_scale Binary64.initial_scale tuple4_get Z.ltb
          Z.compare];
     do 2 f_equal; unfold Qcdiv; apply Qcmult_assoc).
Qed.

(** The formula of C5 fails next to 96 dpi: at [96 + 2^-46] the quotient
    [dpi / 72.0] rounds down and the product with 1.5 is exactly 2, so
    [thickness(2)] is 2, while [1.5 * dpi / 72] exceeds 2, as an exact
    number and as the binary64 expression evaluated from the left. *)
Lemma thickness_binary64_not_formula :
  (0 < Binary64.exact Binary64.after_96)%Qc /\
  Binary64.tuple4_get Binary64.initial_scale 2 = Ok Binary64.medium /\
  Binary64.thickness
    {| Binary64.scale := Binary64.initial_scale;
       Binary64._dpi := Binary64.after_96 |} 2 true = Ok 2 /\
  ceil (Binary64.exact Binary64.medium * Binary64.exact Binary64.after_96
        / lit 72 1) = 3 /\
  Binary64.ceil
    (PrimFloat.div (PrimFloat.mul Binary64.medium Binary64.after_96)
       (Binary64.float_of_int 72)) = Ok 3.
Proof. repeat split; vm_compute; reflexivity. Qed.



(** ** End to end: the light cross *)

Lemma forallb_range (P : Z -> bool) (a b : Z) :
  forallb P (range a b) = true -> forall x, a <= x < b -> P x = true.
Proof.
  intros H x Hx. rewrite forallb_forall in H. now apply H, in_range.
Qed.

(** C1.  On a zero buffer of 16 x 16 pixels,
    [render_box_char(U+253C, buf, 16, 16, 96.0)] returns normally and leaves
    255 in every pixel of the horizontal band (the rows of the band of
    [thickness(1)] rows centred on row 8, all 16 columns) and of the vertical
    band (the columns of the band of [thickness(1)] columns centred on column
    8, all 16 rows), and 0 in every other pixel.  The scale table is that of
    the module; the dpi in force before the call is arbitrary. *)
Theorem render_cross_16 (dpi0 : float) :
  exists (buf' : BufType) (sz : Z),
    render_box_char {| scale := initial_scale; _dpi := dpi0 |} 0x253c
      (zeros (16 * 16)) 16 16 (lit 96 1)
    = ({| scale := initial_scale; _dpi := lit 96 1 |}, (buf', Ok tt)) /\
    thickness {| scale := initial_scale; _dpi := lit 96 1 |} 1 true = Ok sz /\
    length buf' = 256%nat /\
    forall c r, 0 <= c < 16 -> 0 <= r < 16 ->
      pixel buf' 16 c r =
        Some (if between (8 - sz / 2) (8 - sz / 2 + sz) r
                 || between (8 - sz / 2) (8 - sz / 2 + sz) c
              then 255 else 0).
Proof.
  pose (out := snd (render_box_char initial_globals 0x253c (zeros (16 * 16))
                      16 16 (lit 96 1))).
  exists (fst out), 2. split; [|split; [|split]].
  - unfold render_box_char. cbn [scale _dpi].
    replace (box_chars !! 0x253c) with
      (Some [(fun g w h => cross g w h 1 1 1 1) : DrawingStep])
      by reflexivity.
    vm_compute. reflexivity.
  - vm_compute. reflexivity.
  - vm_compute. reflexivity.
  - intros c r Hc Hr.
    assert (H : forallb (fun r => forallb (fun c =>
                  bool_decide (pixel (fst out) 16 c r =
                    Some (if between (8 - 2 / 2) (8 - 2 / 2 + 2) r
                             || between (8 - 2 / 2) (8 - 2 / 2 + 2) c
                          then 255 else 0)))
                (range 0 16)) (range 0 16) = true)
      by (vm_compute; reflexivity).
    pose proof (forallb_range _ _ _ H r Hr) as H'. cbn beta in H'.
    pose proof (forallb_range _ _ _ H' c Hc) as H''. cbn beta in H''.
    now apply bool_decide_eq_true in H''.
Qed.

(** ** Which exceptions a routine can raise *)

(** [rsafe P r]: if [r] is an exception, it is one of [P]. *)
Definition rsafe {A} (P : exn -> Prop) (r : result A) : Prop :=
  match r with
  | Ok _ => True
  | Raise e => P e
  end.

(** [triple n m P Q]: on a buffer of [n] items, [m] keeps the number of
    items, and it returns a value of [Q] or raises an exception of [P]. *)
Definition triple {A} (n : nat) (m : M A) (P : exn -> Prop) (Q : A -> Prop)
    : Prop :=
  forall buf : BufType, length buf = n ->
    length (fst (m buf)) = n /\
    match snd (m buf) with
    | Ok a => Q a
    | Raise e => P e
    end.

Definition safe {A} (P : exn -> Prop) (n : nat) (m : M A) : Prop :=
  triple n m P (fun _ => True).

Lemma triple_weaken {A} (n : nat) (m : M A) (P : exn -> Prop)
    (Q Q' : A -> Prop) :
  (forall a, Q a -> Q' a) -> triple n m P Q -> triple n m P Q'.
Proof.
  intros HQ H buf L. destruct (H buf L) as [L' R]. split; [easy|].
  destruct (snd (m buf)); auto.
Qed.

Lemma triple_ret {A} (n : nat) (a : A) (P : exn -> Prop) (Q : A -> Prop) :
  Q a -> triple n (ret a) P Q.
Proof. intros H buf L. now split. Qed.

Lemma triple_lift {A} (n : nat) (r : result A) (P : exn -> Prop)
    (Q : A -> Prop) :
  match r with Ok a => Q a | Raise e => P e end -> triple n (lift r) P Q.
Proof. intros H buf L. now split. Qed.

Lemma triple_bind {A B} (n : nat) (m : M A) (k : A -> M B) (P : exn -> Prop)
    (Q1 : A -> Prop) (Q : B -> Prop) :
  triple n m P Q1 -> (forall a, Q1 a -> triple n (k a) P Q) ->
  triple n (bind m k) P Q.
Proof.
  intros Hm Hk buf L. unfold bind. destruct (Hm buf L) as [L' R].
  destruct (m buf) as [buf' [a|e]]; cbn in *; [|easy].
  now apply Hk.
Qed.

Section Safe.

Context {P : exn -> Prop} {n : nat}.

Lemma safe_ret {A} (a : A) : safe P n (ret a).
Proof. now apply triple_ret. Qed.

Lemma safe_raise {A} (e : exn) : P e -> safe P n (raise e : M A).
Proof. intros H buf L. now split. Qed.

Lemma safe_lift {A} (r : result A) : rsafe P r -> safe P n (lift r).
Proof. intros H. apply triple_lift. now destruct r. Qed.

Lemma safe_bind {A B} (m : M A) (k : A -> M B) :
  safe P n m -> (forall a, safe P n (k a)) -> safe P n (bind m k).
Proof. intros Hm Hk. eapply triple_bind; [exact Hm|]. intros a _. apply Hk. Qed.

Lemma safe_void {A} (m : M A) : safe P n m -> safe P n (void m).
Proof. intros H. apply safe_bind; [easy|]. intros _. apply safe_ret. Qed.

Lemma safe_for_each {A} (l : list A) (body : A -> M unit) :
  (forall a, safe P n (body a)) -> safe P n (for_each l body).
Proof.
  intros H. induction l; cbn [for_each]; [apply safe_ret|].
  apply safe_bind; auto.
Qed.

Lemma safe_for_fold {A S} (l : list A) (acc : S) (body : S -> A -> M S) :
  (forall s a, safe P n (body s a)) -> safe P n (for_fold l acc body).
Proof.
  intros H. revert acc. induction l; intros acc; cbn [for_fold];
    [apply safe_ret|].
  apply safe_bind; auto.
Qed.

Lemma safe_for_break {A} (l : list A) (body : A -> M bool) :
  (forall a, safe P n (body a)) -> safe P n (for_break l body).
Proof.
  intros H. induction l; cbn [for_break]; [apply safe_ret|].
  apply safe_bind; [auto|]. intros [|]; [apply safe_ret|easy].
Qed.

Lemma safe_setitem (i v : Z) : P IndexError -> safe P n (setitem i v).
Proof.
  intros H buf L. split; [now rewrite setitem_length|].
  unfold setitem. now destruct (norm_index _ i).
Qed.

Lemma rsafe_seq_get (src : BufType) (i : Z) :
  P IndexError -> rsafe P (seq_get src i).
Proof.
  intros H. unfold seq_get. destruct (norm_index _ i); [|easy].
  now destruct (src !! _).
Qed.

Lemma safe_getitem (i : Z) : P IndexError -> safe P n (getitem i).
Proof. intros H buf L. split; [easy|]. now apply rsafe_seq_get. Qed.

Lemma rsafe_rbind {A B} (r : result A) (k : A -> result B) :
  rsafe P r -> (forall a, rsafe P (k a)) -> rsafe P (rbind r k).
Proof. intros Hr Hk. destruct r; cbn; auto. Qed.

Lemma rsafe_rfold {A S} (l : list A) (acc : S) (body : S -> A -> result S) :
  (forall s a, rsafe P (body s a)) -> rsafe P (rfold l acc body).
Proof.
  intros H. revert acc. induction l; intros acc; cbn [rfold]; [easy|].
  apply rsafe_rbind; auto.
Qed.

Lemma rsafe_iterate {S R} (fuel : positive) (body : S -> result (S + R))
    (s : S) :
  (forall s, rsafe P (body s)) -> rsafe P (iterate fuel body s).
Proof.
  intros H. revert s. induction fuel as [p IH|p IH|]; intros s; cbn [iterate].
  - pose proof (H s) as Hs. destruct (body s) as [[s'|r]|e]; auto.
    pose proof (IH s') as Hs'.
    destruct (iterate p body s') as [[s''|r]|e]; auto.
  - pose proof (IH s) as Hs.
    destruct (iterate p body s) as [[s'|r]|e]; auto.
  - apply H.
Qed.

Lemma rsafe_while_true {S R} (fuel : positive) (body : S -> result (S + R))
    (s : S) :
  P LoopBound -> (forall s, rsafe P (body s)) ->
  rsafe P (while_true fuel body s).
Proof.
  intros HP H. unfold while_true.
  pose proof (rsafe_iterate fuel body s H) as Hi.
  now destruct (iterate fuel body s) as [[s'|r]|e].
Qed.

End Safe.

Lemma safe_run_on {A} (P : exn -> Prop) (n : nat) (other : BufType)
    (m : M A) :
  safe P (length other) m -> safe P n (run_on other m).
Proof.
  intros H buf L. unfold run_on. destruct (H other eq_refl) as [_ R].
  now destruct (m other) as [o [a|e]].
Qed.

(** Every routine of the module raises only [IndexError], [ValueError],
    [ZeroDivisionError], [UnboundLocalError] (or reaches a loop bound). *)

Create HintDb safe.

Ltac safe_step :=
  cbv beta;
  lazymatch goal with
  | |- safe _ _ (bind _ _) => apply safe_bind; [|intros ?]
  | |- safe _ _ (ret _) => apply safe_ret
  | |- safe _ _ (raise _) => apply safe_raise; assumption
  | |- safe _ _ (lift _) => apply safe_lift
  | |- safe _ _ (void _) => apply safe_void
  | |- safe _ _ (for_each _ _) => apply safe_for_each; intros ?
  | |- safe _ _ (for_fold _ _ _) => apply safe_for_fold; intros ? ?
  | |- safe _ _ (for_break _ _) => apply safe_for_break; intros ?
  | |- safe _ _ (setitem _ _) => apply safe_setitem; assumption
  | |- safe _ _ (getitem _) => apply safe_getitem; assumption
  | |- safe _ _ (run_on _ _) => apply safe_run_on
  | |- safe _ _ (match (match ?b with _ => _ end) with _ => _ end) =>
      destruct b
  | |- safe _ _ (match ?p with _ => _ end) => destruct p
  | |- rsafe _ (rbind _ _) => apply rsafe_rbind; [|intros ?]
  | |- rsafe _ (rfold _ _ _) => apply rsafe_rfold; intros ? ?
  | |- rsafe _ (while_true _ _ _) =>
      apply rsafe_while_true; [assumption|intros ?]
  | |- rsafe _ (seq_get _ _) => apply rsafe_seq_get; assumption
  | |- rsafe _ (Ok _) => exact I
  | |- rsafe _ (Raise _) => assumption
  | |- rsafe _ (match (match ?b with _ => _ end) with _ => _ end) =>
      destruct b
  | |- rsafe _ (match ?p with _ => _ end) => destruct p
  end.

Ltac safe_tac := repeat (safe_step || (progress auto with safe)).

Section Exceptions.

Context {P : exn -> Prop}.
Hypothesis P_IndexError : P IndexError.
Hypothesis P_ValueError : P ValueError.
Hypothesis P_ZeroDivisionError : P ZeroDivisionError.
Hypothesis P_UnboundLocalError : P UnboundLocalError.
Hypothesis P_LoopBound : P LoopBound.

Lemma rsafe_tuple4_get (s : float * float * float * float) (i : Z) :
  rsafe P (tuple4_get s i).
Proof.
  destruct s as [[[s0 s1] s2] s3]. unfold tuple4_get.
  destruct (if i <? 0 then i + 4 else i) as [|[[|[]|]|[|[]|]|]|]; easy.
Qed.

Lemma rsafe_thickness (g : globals) (level : Z) (horizontal : bool) :
  rsafe P (thickness g level horizontal).
Proof.
  unfold thickness. pose proof (rsafe_tuple4_get (scale g) level).
  now destruct (tuple4_get (scale g) level).
Qed.
#[local] Hint Resolve rsafe_thickness : safe.

Lemma rsafe_get_holes (sz hole_sz num : Z) : rsafe P (get_holes sz hole_sz num).
Proof. unfold get_holes. safe_tac. Qed.
#[local] Hint Resolve rsafe_get_holes : safe.

Lemma rsafe_floordiv (a b : Z) : rsafe P (floordiv a b).
Proof. unfold floordiv. safe_tac. Qed.
#[local] Hint Resolve rsafe_floordiv : safe.

Lemma rsafe_truediv (a b : Z) : rsafe P (truediv a b).
Proof. unfold truediv. safe_tac. Qed.
#[local] Hint Resolve rsafe_truediv : safe.

Lemma rsafe_bytearray (k : Z) : rsafe P (bytearray k).
Proof. unfold bytearray. safe_tac. Qed.
#[local] Hint Resolve rsafe_bytearray : safe.

Lemma rsafe_line_equation (x1 y1 x2 y2 : Z) :
  rsafe P (line_equation x1 y1 x2 y2).
Proof. unfold line_equation. safe_tac. Qed.
#[local] Hint Resolve rsafe_line_equation : safe.

Lemma rsafe_average_intensity_in_src (src : BufType) (sw f x y : Z) :
  rsafe P (average_intensity_in_src src sw f x y).
Proof. unfold average_intensity_in_src. safe_tac. Qed.
#[local] Hint Resolve rsafe_average_intensity_in_src : safe.

Lemma rsafe_find_bezier_for_D (width height : Z) :
  rsafe P (find_bezier_for_D width height).
Proof. unfold find_bezier_for_D. safe_tac. Qed.

Lemma rsafe_find_t_for_x (bezier_x : BezierFunc) (t_limit : float) (x : Z)
    (start_t : float) :
  rsafe P (find_t_for_x bezier_x t_limit x start_t).
Proof. unfold find_t_for_x. safe_tac. Qed.
#[local] Hint Resolve rsafe_find_bezier_for_D rsafe_find_t_for_x : safe.

Lemma rsafe_bezier_limits_loop (bezier_x bezier_y : BezierFunc)
    (t_limit : float) (start_x : Z) (xs : list Z) (last_t : float) :
  rsafe P (bezier_limits_loop bezier_x bezier_y t_limit start_x xs last_t).
Proof.
  revert last_t. induction xs as [|x xs IH]; intros last_t;
    cbn [bezier_limits_loop]; safe_tac.
Qed.
#[local] Hint Resolve rsafe_bezier_limits_loop : safe.

Lemma rsafe_get_bezier_limits (bezier_x bezier_y : BezierFunc) :
  rsafe P (get_bezier_limits bezier_x bezier_y).
Proof. unfold get_bezier_limits. safe_tac. Qed.
#[local] Hint Resolve rsafe_get_bezier_limits : safe.

Section Routines.

Context {n : nat}.

Lemma safe_draw_hline g width x1 x2 y level :
  safe P n (draw_hline g width x1 x2 y level).
Proof. unfold draw_hline. safe_tac. Qed.

Lemma safe_draw_vline g width y1 y2 x level :
  safe P n (draw_vline g width y1 y2 x level).
Proof. unfold draw_vline. safe_tac. Qed.
#[local] Hint Resolve safe_draw_hline safe_draw_vline : safe.

Lemma safe_half_hline g width height level which extend_by :
  safe P n (half_hline g width height level which extend_by).
Proof. unfold half_hline. safe_tac. Qed.

Lemma safe_half_vline g width height level which extend_by :
  safe P n (half_vline g width height level which extend_by).
Proof. unfold half_vline. safe_tac. Qed.
#[local] Hint Resolve safe_half_hline safe_half_vline : safe.

Lemma safe_add_hholes g width height level num :
  safe P n (add_hholes g width height level num).
Proof. unfold add_hholes. safe_tac. Qed.

Lemma safe_add_vholes g width height level num :
  safe P n (add_vholes g width height level num).
Proof. unfold add_vholes. safe_tac. Qed.

Lemma safe_hline g width height level : safe P n (hline g width height level).
Proof. unfold hline. safe_tac. Qed.

Lemma safe_vline g width height level : safe P n (vline g width height level).
Proof. unfold vline. safe_tac. Qed.
#[local] Hint Resolve safe_add_hholes safe_add_vholes safe_hline safe_vline
  : safe.

Lemma safe_hholes g width height level num :
  safe P n (hholes g width height level num).
Proof. unfold hholes. safe_tac. Qed.

Lemma safe_vholes g width height level num :
  safe P n (vholes g width height level num).
Proof. unfold vholes. safe_tac. Qed.

Lemma safe_corner g width height hlevel vlevel which :
  safe P n (corner g width height hlevel vlevel which).
Proof. unfold corner. safe_tac. Qed.

Lemma safe_vert_t g width height a b c which :
  safe P n (vert_t g width height a b c which).
Proof. unfold vert_t. safe_tac. Qed.

Lemma safe_horz_t g width height a b c which :
  safe P n (horz_t g width height a b c which).
Proof. unfold horz_t. safe_tac. Qed.

Lemma safe_cross g width height a b c d :
  safe P n (cross g width height a b c d).
Proof. unfold cross. safe_tac. Qed.

Lemma safe_downsample src dest_width dest_height factor :
  safe P n (downsample src dest_width dest_height factor).
Proof. unfold downsample. safe_tac. Qed.
#[local] Hint Resolve safe_downsample : safe.

Lemma safe_fill_region width height xlimits :
  safe P n (fill_region width height xlimits).
Proof. unfold fill_region. safe_tac. Qed.
#[local] Hint Resolve safe_fill_region : safe.

Lemma safe_triangle_body ssf width height left :
  safe P n (triangle_body ssf width height left).
Proof. unfold triangle_body. safe_tac. Qed.

Lemma safe_corner_triangle_body ssf width height corner :
  safe P n (corner_triangle_body ssf width height corner).
Proof. unfold corner_triangle_body. safe_tac. Qed.

Lemma safe_thick_line width height thickness_in_pixels p1 p2 :
  safe P n (thick_line width height thickness_in_pixels p1 p2).
Proof. unfold thick_line. safe_tac. Qed.
#[local] Hint Resolve safe_thick_line : safe.

Lemma safe_cross_line_body g ssf width height left level :
  safe P n (cross_line_body g ssf width height left level).
Proof. unfold cross_line_body. safe_tac. Qed.

Lemma safe_half_cross_line_body g ssf width height which level :
  safe P n (half_cross_line_body g ssf width height which level).
Proof. unfold half_cross_line_body. safe_tac. Qed.

Lemma safe_draw_parametrized_curve width height thickness_in_pixels
    xfunc yfunc :
  safe P n (draw_parametrized_curve width height thickness_in_pixels
              xfunc yfunc).
Proof. unfold draw_parametrized_curve. safe_tac. Qed.
#[local] Hint Resolve safe_draw_parametrized_curve : safe.

Lemma safe_rounded_corner_body g ssf width height level which :
  safe P n (rounded_corner_body g ssf width height level which).
Proof. unfold rounded_corner_body. safe_tac. Qed.

Lemma safe_half_dhline g width height level which only :
  safe P n (half_dhline g width height level which only).
Proof. unfold half_dhline. safe_tac. Qed.

Lemma safe_half_dvline g width height level which only :
  safe P n (half_dvline g width height level which only).
Proof. unfold half_dvline. safe_tac. Qed.
#[local] Hint Resolve safe_half_dhline safe_half_dvline : safe.

Lemma safe_dvline g width height only level :
  safe P n (dvline g width height only level).
Proof. unfold dvline. safe_tac. Qed.

Lemma safe_dhline g width height only level :
  safe P n (dhline g width height only level).
Proof. unfold dhline. safe_tac. Qed.
#[local] Hint Resolve safe_dvline safe_dhline : safe.

Lemma safe_dvcorner g width height level which :
  safe P n (dvcorner g width height level which).
Proof. unfold dvcorner. safe_tac. Qed.

Lemma safe_dhcorner g width height level which :
  safe P n (dhcorner g width height level which).
Proof. unfold dhcorner. safe_tac. Qed.

Lemma safe_dcorner g width height level which :
  safe P n (dcorner g width height level which).
Proof. unfold dcorner. safe_tac. Qed.

Lemma safe_dpip g width height level which :
  safe P n (dpip g width height level which).
Proof. unfold dpip. safe_tac. Qed.

Lemma safe_inner_corner g width height which level :
  safe P n (inner_corner g width height which level).
Proof. unfold inner_corner. safe_tac. Qed.

Lemma safe_vblock width height frac gravity :
  safe P n (vblock width height frac gravity).
Proof. unfold vblock. safe_tac. Qed.

Lemma safe_hblock width height frac gravity :
  safe P n (hblock width height frac gravity).
Proof. unfold hblock. safe_tac. Qed.

Lemma safe_shade_squares width height light :
  safe P n (shade_squares width height light).
Proof. unfold shade_squares. safe_tac. Qed.

Lemma safe_quad width height x y : safe P n (quad width height x y).
Proof. unfold quad. safe_tac. Qed.

Lemma safe_render_missing_glyph g width height :
  safe P n (render_missing_glyph g width height).
Proof. unfold render_missing_glyph. safe_tac. Qed.

End Routines.

Lemma safe_supersampled (n : nat) (f : Z -> Z -> Z -> M unit)
    (width height : Z) :
  (forall k ssf w h, safe P k (f ssf w h)) ->
  safe P n (supersampled f width height).
Proof.
  intros Hf. unfold supersampled. safe_tac. apply safe_downsample.
Qed.

Lemma safe_D_body (n : nat) ssf width height left :
  safe P n (D_body ssf width height left).
Proof.
  unfold D_body. safe_tac; try apply safe_fill_region.
Qed.

Lemma safe_shade (n : nat) width height light invert :
  safe P n (shade width height light invert).
Proof.
  unfold shade. destruct invert; [|apply safe_shade_squares].
  safe_tac. apply safe_shade_squares.
Qed.

End Exceptions.

#[export] Hint Resolve rsafe_thickness rsafe_bytearray rsafe_line_equation
  safe_draw_hline safe_draw_vline safe_half_hline safe_half_vline
  safe_hline safe_vline safe_hholes safe_vholes safe_corner safe_vert_t
  safe_horz_t safe_cross safe_supersampled safe_triangle_body
  safe_corner_triangle_body safe_cross_line_body safe_half_cross_line_body
  safe_D_body safe_rounded_corner_body safe_half_dhline safe_half_dvline
  safe_dvline safe_dhline safe_dvcorner safe_dhcorner safe_dcorner safe_dpip
  safe_inner_corner safe_vblock safe_hblock safe_shade safe_quad safe_void
  : safe.

(** ** The glyph table *)

(** A step that, whatever the globals, the dimensions and the buffer, keeps
    the length of the buffer and raises only exceptions of [P]. *)
Definition step_safe (P : exn -> Prop) (func : DrawingStep) : Prop :=
  forall g w h n, safe P n (func g w h).

Lemma dict_update_Forall (Phi : list DrawingStep -> Prop)
    (items : list (Z * list DrawingStep)) (d : gmap Z (list DrawingStep)) :
  map_Forall (fun _ v => Phi v) d ->
  Forall (fun kv => Phi (snd kv)) items ->
  map_Forall (fun _ v => Phi v) (dict_update d items).
Proof.
  revert d. induction items as [|[k v] items IH]; intros d Hd Hi; [easy|].
  inversion Hi; subst. cbn. apply IH; [|easy].
  now apply map_Forall_insert_2.
Qed.

Lemma family_Forall {A} (Phi : list DrawingStep -> Prop) (start : Z)
    (params : list A) (entry : A -> list DrawingStep) :
  (forall a, In a params -> Phi (entry a)) ->
  Forall (fun kv => Phi (snd kv)) (family start params entry).
Proof.
  intros H. unfold family. apply Forall_map. apply Forall_forall.
  intros [i a] Hin. cbn. apply H. unfold enumerate in Hin.
  apply elem_of_zip_r in Hin. now apply list_elem_of_In.
Qed.

Section TableSafe.

Context {P : exn -> Prop}.
Hypothesis P_IndexError : P IndexError.
Hypothesis P_ValueError : P ValueError.
Hypothesis P_ZeroDivisionError : P ZeroDivisionError.
Hypothesis P_UnboundLocalError : P UnboundLocalError.
Hypothesis P_LoopBound : P LoopBound.

Ltac recipe_safe :=
  repeat first
    [ apply List.Forall_nil
    | apply List.Forall_cons;
      [intros ? ? ? ?; cbv beta;
       unfold triangle, corner_triangle, D, cross_line, half_cross_line,
         rounded_corner; auto 6 with safe |] ].

Ltac each_param H :=
  apply list_elem_of_In in H; cbn [In] in H;
  repeat match type of H with
         | _ \/ _ => destruct H as [H | H]
         | False => destruct H
         | _ = _ => subst
         end.

Lemma box_chars_display_safe :
  Forall (fun kv => Forall (step_safe P) (snd kv)) box_chars_display.
Proof.
  unfold box_chars_display.
  repeat (apply List.Forall_cons; [cbn [snd map]; recipe_safe |]).
  apply List.Forall_nil.
Qed.

Lemma corner_family_safe :
  Forall (fun kv => Forall (step_safe P) (snd kv)) corner_family.
Proof.
  unfold corner_family. apply Forall_flat_map, Forall_forall. intros start _.
  apply (family_Forall (Forall (step_safe P))). intros [hl vl] _. recipe_safe.
Qed.

Lemma rounded_corner_family_safe :
  Forall (fun kv => Forall (step_safe P) (snd kv)) rounded_corner_family.
Proof.
  unfold rounded_corner_family. apply Forall_map, Forall_forall.
  intros ch _. cbn [snd]. recipe_safe.
Qed.

Lemma cross_family_safe :
  Forall (fun kv => Forall (step_safe P) (snd kv)) cross_family.
Proof.
  unfold cross_family. apply (family_Forall (Forall (step_safe P))).
  intros [[[a b] c] d] _. recipe_safe.
Qed.

Lemma t_families_safe :
  Forall (fun kv => Forall (step_safe P) (snd kv)) t_families.
Proof.
  unfold t_families. apply Forall_flat_map, Forall_forall.
  intros [[starts func] pattern] H. apply Forall_flat_map, Forall_forall.
  intros start _. apply (family_Forall (Forall (step_safe P))).
  intros [[a b] c] _. each_param H; injection H as <- <- <-; recipe_safe.
Qed.

Lemma double_families_safe :
  Forall (fun kv => Forall (step_safe P) (snd kv)) double_families.
Proof.
  unfold double_families. apply Forall_flat_map, Forall_forall.
  intros [chars func] H. apply Forall_map, Forall_forall. intros ch _.
  cbn [snd]. each_param H; injection H as <- <-; recipe_safe.
Qed.

(** Every step of every recipe of the table is safe. *)
Lemma box_chars_safe (ch : Z) (recipe : list DrawingStep) :
  box_chars !! ch = Some recipe -> Forall (step_safe P) recipe.
Proof.
  revert ch recipe. change (map_Forall (fun _ v => Forall (step_safe P) v)
                              box_chars).
  unfold box_chars. apply dict_update_Forall; [apply map_Forall_empty|].
  apply Forall_app_2; [apply box_chars_display_safe|].
  apply Forall_app_2; [apply corner_family_safe|].
  apply Forall_app_2; [apply rounded_corner_family_safe|].
  apply Forall_app_2; [apply cross_family_safe|].
  apply Forall_app_2; [apply t_families_safe | apply double_families_safe].
Qed.

Lemma recipe_safe_run (recipe : list DrawingStep) (g : globals) (w h : Z)
    (n : nat) :
  Forall (step_safe P) recipe ->
  safe P n (for_each recipe (fun func => func g w h)).
Proof.
  induction 1 as [|func recipe Hf _ IH]; cbn [for_each]; [apply safe_ret|].
  apply safe_bind; [apply Hf | intros _; apply IH].
Qed.

End TableSafe.

(** ** RenderEntryPoint *)

(** C2.  [render_box_char(ch, buf, width, height, dpi)] raises [KeyError]
    (the unknown glyph condition) if and only if [ch] has no recipe in
    [box_chars]; and when it does, the buffer is as it was before the
    call. *)
Theorem render_box_char_unknown_glyph (g : globals) (ch : Z) (buf : BufType)
    (width height : Z) (dpi : float) :
  let out := snd (render_box_char g ch buf width height dpi) in
  (snd out = Raise KeyError <-> box_chars !! ch = None) /\
  (snd out = Raise KeyError -> fst out = buf).
Proof.
  unfold render_box_char. destruct (box_chars !! ch) as [recipe|] eqn:E;
    cbn [snd fst]; [|split; [split; reflexivity | reflexivity]].
  assert (Hr : Forall (step_safe (fun e => e <> KeyError)) recipe)
    by (apply (box_chars_safe (P := fun e => e <> KeyError)) with (ch := ch);
        [discriminate .. | exact E]).
  match goal with
  | |- context [for_each recipe ?f buf] =>
      assert (Hs : rsafe (fun e => e <> KeyError) (snd (for_each recipe f buf)))
        by apply (recipe_safe_run recipe {| scale := scale g; _dpi := dpi |}
                    width height (length buf) Hr buf eq_refl);
      destruct (for_each recipe f buf) as [buf' [[]|e]]
  end; cbn [snd fst rsafe] in *.
  - split; [split|]; discriminate.
  - split; [split|];
      first [discriminate | intros [= ->]; destruct (Hs eq_refl)].
Qed.

(** A later call: its character, buffer, dimensions and dpi. *)
Definition render_call : Type := Z * BufType * Z * Z * float.

(** The module globals after a sequence of calls of [render_box_char]. *)
Fixpoint render_calls (g : globals) (calls : list render_call) : globals :=
  match calls with
  | [] => g
  | (ch, buf, width, height, dpi) :: calls' =>
      render_calls (fst (render_box_char g ch buf width height dpi)) calls'
  end.

Lemma render_box_char_scale (g : globals) (ch : Z) (buf : BufType)
    (width height : Z) (dpi : float) :
  scale (fst (render_box_char g ch buf width height dpi)) = scale g.
Proof. unfold render_box_char. now destruct (box_chars !! ch). Qed.

Lemma render_calls_scale (calls : list render_call) (g : globals) :
  scale (render_calls g calls) = scale g.
Proof.
  revert g. induction calls as [|[[[[ch buf] w] h] dpi] calls IH]; intros g;
    cbn [render_calls]; [easy|].
  now rewrite IH, render_box_char_scale.
Qed.

Lemma render_box_char_depends_on_scale (g1 g2 : globals) (ch : Z)
    (buf : BufType) (width height : Z) (dpi : float) :
  scale g1 = scale g2 ->
  snd (render_box_char g1 ch buf width height dpi)
  = snd (render_box_char g2 ch buf width height dpi).
Proof.
  intros E. unfold render_box_char. rewrite E.
  now destruct (box_chars !! ch).
Qed.

(** C9.  The buffer and outcome of [render_box_char] depend only on its
    arguments and on the scale table: after rendering [ch] at dpi [d], any
    sequence of further calls of [render_box_char] (any characters, buffers,
    dimensions and dpi values) leaves the module in a state where rendering
    [ch] at [d] on a buffer with the same initial contents and dimensions
    gives the same bytes and the same outcome as the first call. *)
Theorem render_box_char_reproducible (g : globals) (ch : Z) (buf : BufType)
    (width height : Z) (d : float) (calls : list render_call) :
  let first := render_box_char g ch buf width height d in
  let g' := render_calls (fst first) calls in
  snd (render_box_char g' ch buf width height d) = snd first.
Proof.
  cbn zeta. apply render_box_char_depends_on_scale.
  now rewrite render_calls_scale, render_box_char_scale.
Qed.

(** ** Broken lines: [hline] followed by [add_hholes] *)

(** Where the holes of [get_holes] start; each is [hole_sz] wide. *)
Definition hole_starts (sz hole_sz num : Z) : list Z :=
  if num =? 1 then [sz / 2 - hole_sz / 2]
  else if num =? 2 then
    let ssz := (sz - 2 * hole_sz) / 3 in [ssz; 2 * ssz + hole_sz]
  else
    let ssz := (sz - 3 * hole_sz) / 4 in
    [ssz; 2 * ssz + hole_sz; 3 * ssz + 2 * hole_sz].

Lemma get_holes_starts (sz hole_sz num : Z) :
  1 <= num <= 3 ->
  get_holes sz hole_sz num
  = Ok (map (fun s => range s (s + hole_sz)) (hole_starts sz hole_sz num)).
Proof.
  intros H. unfold get_holes, hole_starts.
  assert (num = 1 \/ num = 2 \/ num = 3) as [-> | [-> | ->]] by lia;
    cbn [Z.eqb Pos.eqb map]; repeat f_equal; lia.
Qed.

Lemma hole_starts_in_row (width num s : Z) :
  0 <= width -> 1 <= num <= 3 ->
  In s (hole_starts width (width / 8) num) ->
  0 <= s /\ s + width / 8 <= width.
Proof.
  intros Hw Hn. unfold hole_starts.
  pose proof (Z.div_pos width 8 Hw ltac:(lia)) as Hh.
  pose proof (Z.mul_div_le width 8 ltac:(lia)) as Hh'.
  assert (num = 1 \/ num = 2 \/ num = 3) as [-> | [-> | ->]] by lia;
    cbn [Z.eqb Pos.eqb In]; intros Hs.
  - destruct Hs as [<- | []].
    pose proof (Z.mul_div_le width 2 ltac:(lia)).
    pose proof (Z.mul_div_le (width / 8) 2 ltac:(lia)).
    pose proof (Z.div_pos (width / 8) 2 Hh ltac:(lia)).
    pose proof (Z.mul_succ_div_gt (width / 8) 2 ltac:(lia)).
    pose proof (Z.mul_succ_div_gt width 2 ltac:(lia)). lia.
  - assert (0 <= (width - 2 * (width / 8)) / 3)
      by (apply Z.div_pos; lia).
    pose proof (Z.mul_div_le (width - 2 * (width / 8)) 3 ltac:(lia)).
    destruct Hs as [<- | [<- | []]]; lia.
  - assert (0 <= (width - 3 * (width / 8)) / 4)
      by (apply Z.div_pos; lia).
    pose proof (Z.mul_div_le (width - 3 * (width / 8)) 4 ltac:(lia)).
    destruct Hs as [<- | [<- | [<- | []]]]; lia.
Qed.

(** Column [c] lies in one of the holes. *)
Definition in_holes (starts : list Z) (hole_sz c : Z) : bool :=
  existsb (fun s => between s (s + hole_sz) c) starts.

(** The loop nest of [add_hholes]. *)
Lemma painted_holes (width hole_sz y1 y2 : Z) (starts : list Z) :
  painted
    (for_each (range y1 y2) (fun y =>
       for_each (map (fun s => range s (s + hole_sz)) starts) (fun hole =>
         for_each hole (fun x => setitem (y * width + x) 0))))
    (fun i => existsb (fun y =>
                existsb (fun s => between (y * width + s)
                                    (y * width + (s + hole_sz)) i) starts)
                (range y1 y2)) 0.
Proof.
  apply painted_for_each. intros y _.
  induction starts as [|s starts IH]; cbn [map for_each existsb].
  - apply painted_ret.
  - apply painted_seq; [apply painted_run | apply IH].
Qed.

Lemma holes_in_rect (width hole_sz y1 y2 c r : Z) (starts : list Z) :
  (forall s, In s starts -> 0 <= s /\ s + hole_sz <= width) ->
  0 <= c < width ->
  existsb (fun y =>
    existsb (fun s => between (y * width + s) (y * width + (s + hole_sz))
                        (r * width + c)) starts) (range y1 y2)
  = between y1 y2 r && in_holes starts hole_sz c.
Proof.
  intros Hs Hc. apply eq_true_iff_eq. unfold in_holes.
  rewrite existsb_range, andb_true_iff, between_spec, existsb_exists. split.
  - intros (y & Hy & E). apply existsb_exists in E as (s & Hin & E).
    apply between_spec in E.
    destruct (Hs s Hin). assert (y = r) by nia. subst y.
    split; [easy|]. exists s. split; [easy|]. apply between_spec. lia.
  - intros (Hr & s & Hin & E). apply between_spec in E.
    exists r. split; [easy|]. apply existsb_exists.
    exists s. split; [easy|]. apply between_spec. lia.
Qed.

(** What [hholes] leaves in a zero buffer: 255 in the band, except at the
    columns of the holes. *)
Lemma hholes_pixels (g : globals) (width height level num sz : Z) :
  thickness g level true = Ok sz ->
  0 <= width -> 0 <= height -> 1 <= num <= 3 ->
  0 <= height / 2 - sz / 2 -> height / 2 - sz / 2 + sz <= height ->
  exists buf',
    hholes g width height level num (zeros (width * height)) = (buf', Ok tt) /\
    length buf' = Z.to_nat (width * height) /\
    forall c r, 0 <= c < width -> 0 <= r < height ->
      pixel buf' width c r =
        Some (if between (height / 2 - sz / 2) (height / 2 - sz / 2 + sz) r
              then if in_holes (hole_starts width (width / 8) num)
                        (width / 8) c
                   then 0 else 255
              else 0).
Proof.
  intros Ht Hw Hh Hn Hy1 Hy2.
  set (y1 := height / 2 - sz / 2) in *. set (y2 := y1 + sz) in *.
  assert (L0 : Z.of_nat (length (zeros (width * height))) = width * height)
    by (unfold zeros; rewrite length_replicate; nia).
  pose proof (Z.mul_div_le width 2 ltac:(lia)) as Hw2.
  pose proof (Z.div_pos width 2 Hw ltac:(lia)) as Hw2'.
  unfold hholes, hline, half_hline, draw_hline, bind, lift.
  replace (thickness g level false) with (Ok sz : result Z) by easy.
  cbn [String.eqb Ascii.eqb Bool.eqb]. fold y1. fold y2.
  destruct (fill_rows width height 0 (0 + width / 2) y1 y2 255
              (zeros (width * height))) as (b1 & -> & L1 & P1); try lia.
  destruct (fill_rows width height (width / 2 - 0) width y1 y2 255 b1)
    as (b2 & -> & L2 & P2); try lia.
  unfold add_hholes, bind, lift. rewrite Ht. unfold hole_factor.
  rewrite get_holes_starts by easy. cbv zeta. fold y1. fold y2.
  destruct (painted_holes width (width / 8) y1 y2
              (hole_starts width (width / 8) num) b2) as (b3 & -> & L3 & P3).
  { intros i Hi. apply existsb_range in Hi as (y & Hy & Hi).
    apply existsb_exists in Hi as (s & Hin & Hi). apply between_spec in Hi.
    destruct (hole_starts_in_row width num s Hw Hn Hin). nia. }
  exists b3. split; [easy|]. split; [lia|]. intros c r Hc Hr.
  unfold pixel. rewrite P3 by nia.
  rewrite holes_in_rect
    by (try easy; intros s Hin; now apply (hole_starts_in_row width num)).
  fold (pixel b2 width c r). rewrite P2 by easy.
  fold (pixel b1 width c r). rewrite P1 by easy.
  unfold pixel, zeros. rewrite lookup_replicate_2 by nia.
  unfold in_rect.
  destruct (between y1 y2 r); cbn [andb];
    [|now rewrite !andb_false_r].
  destruct (in_holes _ _ c); [easy|]. rewrite !andb_true_r.
  destruct (between (width / 2 - 0) width c) eqn:E1; [easy|].
  destruct (between 0 (0 + width / 2) c) eqn:E2; [easy|].
  apply not_true_iff_false in E1, E2. rewrite between_spec in E1, E2. lia.
Qed.

(** [zero_run row width s len]: the columns [s <= c < s + len] of a row of
    [width] pixels are a maximal run of zero pixels. *)
Definition zero_run (row : Z -> option Z) (width s len : Z) : Prop :=
  0 <= s /\ 0 < len /\ s + len <= width /\
  (forall c, s <= c < s + len -> row c = Some 0) /\
  (s = 0 \/ row (s - 1) <> Some 0) /\
  (s + len = width \/ row (s + len) <> Some 0).

(** The row reads the same from both ends. *)
Definition row_symmetric (row : Z -> option Z) (width : Z) : Prop :=
  forall c, 0 <= c < width -> row c = row (width - 1 - c).

(** Holes of at least one pixel that lie inside the row, with a pixel that is
    no hole on each side. *)
Definition separated (starts : list Z) (hole_sz width : Z) : Prop :=
  1 <= hole_sz /\
  forall s, In s starts ->
    1 <= s /\ s + hole_sz < width /\
    in_holes starts hole_sz (s - 1) = false /\
    in_holes starts hole_sz (s + hole_sz) = false.

Lemma in_holes_spec (starts : list Z) (hole_sz c : Z) :
  in_holes starts hole_sz c = true <->
  exists s, In s starts /\ s <= c < s + hole_sz.
Proof.
  unfold in_holes. rewrite existsb_exists.
  split; intros (s & Hin & H); exists s; split; try easy;
    now apply between_spec.
Qed.

Lemma zero_run_holes (row : Z -> option Z) (starts : list Z)
    (hole_sz width : Z) :
  separated starts hole_sz width ->
  (forall c, 0 <= c < width ->
     row c = Some (if in_holes starts hole_sz c then 0 else 255)) ->
  forall s len,
    zero_run row width s len <-> In s starts /\ len = hole_sz.
Proof.
  intros [Hh Hsep] Hrow s len. split.
  - intros (H0 & Hlen & Hw & Hz & Hl & Hr).
    assert (Hs : in_holes starts hole_sz s = true).
    { specialize (Hz s ltac:(lia)). rewrite Hrow in Hz by lia.
      now destruct (in_holes starts hole_sz s). }
    apply in_holes_spec in Hs as (si & Hin & Hsi).
    destruct (Hsep si Hin) as (Hs1 & Hs2 & Hs3 & Hs4).
    assert (s = si).
    { destruct (Z.eq_dec s si) as [|Hne]; [easy|]. exfalso.
      destruct Hl as [->|Hl]; [lia|]. apply Hl. rewrite Hrow by lia.
      replace (in_holes starts hole_sz (s - 1)) with true; [easy|].
      symmetry. apply in_holes_spec. exists si. split; [easy|lia]. }
    subst si. split; [easy|].
    destruct (Z.lt_trichotomy len hole_sz) as [Hlt | [-> | Hgt]]; [|easy|].
    + exfalso. destruct Hr as [Hr|Hr]; [lia|]. apply Hr. rewrite Hrow by lia.
      replace (in_holes starts hole_sz (s + len)) with true; [easy|].
      symmetry. apply in_holes_spec. exists s. split; [easy|lia].
    + exfalso. specialize (Hz (s + hole_sz) ltac:(lia)).
      rewrite Hrow, Hs4 in Hz by lia. discriminate.
  - intros [Hin ->]. destruct (Hsep s Hin) as (Hs1 & Hs2 & Hs3 & Hs4).
    repeat split; try lia.
    + intros c Hc. rewrite Hrow by lia.
      replace (in_holes starts hole_sz c) with true; [easy|].
      symmetry. apply in_holes_spec. now exists s.
    + right. rewrite Hrow, Hs3 by lia. discriminate.
    + right. rewrite Hrow, Hs4 by lia. discriminate.
Qed.

Lemma between_false (lo hi x : Z) : between lo hi x = false <-> x < lo \/ hi <= x.
Proof.
  rewrite <- not_true_iff_false, between_spec. lia.
Qed.

Lemma hole_starts_separated (width num : Z) :
  8 <= width -> 1 <= num <= 3 ->
  separated (hole_starts width (width / 8) num) (width / 8) width.
Proof.
  intros Hw Hn.
  assert (Hh : 1 <= width / 8) by (apply Z.div_le_lower_bound; lia).
  pose proof (Z.mul_div_le width 8 ltac:(lia)) as Hh'.
  split; [easy|]. unfold hole_starts, in_holes.
  assert (num = 1 \/ num = 2 \/ num = 3) as [-> | [-> | ->]] by lia;
    cbn [Z.eqb Pos.eqb In existsb]; intros s Hs.
  - destruct Hs as [<- | []].
    pose proof (Z.mul_div_le width 2 ltac:(lia)).
    pose proof (Z.mul_succ_div_gt width 2 ltac:(lia)).
    pose proof (Z.mul_div_le (width / 8) 2 ltac:(lia)).
    pose proof (Z.mul_succ_div_gt (width / 8) 2 ltac:(lia)).
    rewrite !orb_false_r, !between_false. lia.
  - set (ssz := (width - 2 * (width / 8)) / 3) in *.
    assert (1 <= ssz) by (apply Z.div_le_lower_bound; lia).
    pose proof (Z.mul_div_le (width - 2 * (width / 8)) 3 ltac:(lia)).
    fold ssz in H0.
    rewrite !orb_false_r, !orb_false_iff, !between_false.
    destruct Hs as [<- | [<- | []]]; lia.
  - set (ssz := (width - 3 * (width / 8)) / 4) in *.
    assert (1 <= ssz) by (apply Z.div_le_lower_bound; lia).
    pose proof (Z.mul_div_le (width - 3 * (width / 8)) 4 ltac:(lia)).
    fold ssz in H0.
    rewrite !orb_false_r, !orb_false_iff, !between_false.
    destruct Hs as [<- | [<- | [<- | []]]]; lia.
Qed.

Lemma hole_starts_distinct (width num : Z) :
  8 <= width -> 1 <= num <= 3 ->
  Z.of_nat (length (hole_starts width (width / 8) num)) = num /\
  NoDup (hole_starts width (width / 8) num).
Proof.
  intros Hw Hn.
  assert (Hh : 1 <= width / 8) by (apply Z.div_le_lower_bound; lia).
  pose proof (Z.mul_div_le width 8 ltac:(lia)) as Hh'.
  unfold hole_starts.
  assert (num = 1 \/ num = 2 \/ num = 3) as [-> | [-> | ->]] by lia;
    cbn [Z.eqb Pos.eqb length]; (split; [reflexivity|]).
  - repeat constructor. apply not_elem_of_nil.
  - assert (1 <= (width - 2 * (width / 8)) / 3)
      by (apply Z.div_le_lower_bound; lia).
    repeat constructor; rewrite ?elem_of_cons, ?elem_of_nil; lia.
  - assert (1 <= (width - 3 * (width / 8)) / 4)
      by (apply Z.div_le_lower_bound; lia).
    repeat constructor; rewrite ?elem_of_cons, ?elem_of_nil; lia.
Qed.

Lemma in_holes_mirror (width num c : Z) :
  0 <= c < width ->
  (num = 1 /\ Z.even (width / 8) = true /\ Z.even width = true) \/
  (num = 3 /\ (width - 3 * (width / 8)) mod 4 = 0) ->
  in_holes (hole_starts width (width / 8) num) (width / 8) (width - 1 - c)
  = in_holes (hole_starts width (width / 8) num) (width / 8) c.
Proof.
  intros Hc H. apply eq_true_iff_eq. unfold hole_starts, in_holes.
  destruct H as [(-> & E1 & E2) | (-> & E)]; cbn [Z.eqb Pos.eqb existsb];
    rewrite ?orb_false_r, ?orb_true_iff, !between_spec.
  - apply Z.even_spec in E1 as [k Hk], E2 as [j Hj]. rewrite Hk, Hj.
    rewrite !(Z.mul_comm 2), !Z.div_mul by lia. lia.
  - apply Z.mod_divide in E as [k Hk]; [|lia]. rewrite Hk.
    rewrite Z.div_mul by lia. lia.
Qed.

(** C4, as the code has it.  [hline] followed by [add_hholes] with
    [num] in {1, 2, 3}, on a zero buffer of a cell at least 8 pixels wide
    whose band lies inside the cell, leaves in each row of the band exactly
    [num] maximal runs of zero pixels: they start at the [num] distinct
    columns of [hole_starts] and each is [width // 8] pixels wide.  The row
    is symmetric about the centre of the cell for [num = 1] when [width] and
    [width // 8] are even, and for [num = 3] when [width - 3 * (width // 8)]
    is a multiple of 4. *)
Theorem hholes_runs (g : globals) (width height level num sz : Z) :
  thickness g level true = Ok sz ->
  8 <= width -> 0 <= height -> 1 <= num <= 3 ->
  0 <= height / 2 - sz / 2 -> height / 2 - sz / 2 + sz <= height ->
  exists buf',
    hholes g width height level num (zeros (width * height)) = (buf', Ok tt) /\
    let starts := hole_starts width (width / 8) num in
    Z.of_nat (length starts) = num /\ NoDup starts /\
    forall r, height / 2 - sz / 2 <= r < height / 2 - sz / 2 + sz ->
      (forall s len,
         zero_run (fun c => pixel buf' width c r) width s len <->
         In s starts /\ len = width / 8) /\
      ((num = 1 /\ Z.even (width / 8) = true /\ Z.even width = true) \/
       (num = 3 /\ (width - 3 * (width / 8)) mod 4 = 0) ->
       row_symmetric (fun c => pixel buf' width c r) width).
Proof.
  intros Ht Hw Hh Hn Hy1 Hy2.
  destruct (hholes_pixels g width height level num sz Ht ltac:(lia) Hh Hn
              Hy1 Hy2) as (buf' & E & L & Hp).
  exists buf'. split; [easy|]. cbv zeta.
  destruct (hole_starts_distinct width num Hw Hn) as [Hlen Hnd].
  split; [easy|]. split; [easy|]. intros r Hr.
  assert (Hrow : forall c, 0 <= c < width ->
            pixel buf' width c r =
              Some (if in_holes (hole_starts width (width / 8) num)
                         (width / 8) c then 0 else 255)).
  { intros c Hc. rewrite Hp by lia.
    replace (between _ _ r) with true; [easy|].
    symmetry. apply between_spec. lia. }
  split.
  - apply zero_run_holes; [now apply hole_starts_separated | exact Hrow].
  - intros Hsym c Hc. rewrite !Hrow by lia. now rewrite in_holes_mirror.
Qed.

(** C4, as the specification words it, fails in two ways.  Three holes in a
    cell 16 pixels wide (holes at columns 2-3, 6-7 and 10-11) are not
    symmetric about the centre: in row 8 column 2 is zero and column 13 is
    not.  And a cell 4 pixels wide has holes of [4 // 8 = 0] pixels: no pixel
    of the band is zero. *)
Lemma hholes_not_symmetric_nor_n_runs :
  (exists buf',
     hholes initial_globals 16 16 1 3 (zeros (16 * 16)) = (buf', Ok tt) /\
     thickness initial_globals 1 true = Ok 2 /\
     ~ row_symmetric (fun c => pixel buf' 16 c 8) 16) /\
  (exists buf',
     hholes initial_globals 4 4 1 1 (zeros (4 * 4)) = (buf', Ok tt) /\
     forall s len, ~ zero_run (fun c => pixel buf' 4 c 2) 4 s len).
Proof.
  split.
  - eexists. split; [vm_compute; reflexivity|]. split; [reflexivity|].
    intros H. specialize (H 2 ltac:(lia)). vm_compute in H. discriminate.
  - eexists. split; [vm_compute; reflexivity|].
    intros s len (H0 & Hlen & Hw & Hz & _). specialize (Hz s ltac:(lia)).
    assert (s = 0 \/ s = 1 \/ s = 2 \/ s = 3) as [-> | [-> | [-> | ->]]]
      by lia; vm_compute in Hz; discriminate.
Qed.

(** ** Supersampler *)

(** [updated m S u]: on a buffer that contains every position of [S], the
    computation [m] returns normally, keeps the length, replaces the item
    [old] at each position [i] of [S] by [u i old] and leaves the other items
    as they were. *)
Definition updated (m : M unit) (S : Z -> bool) (u : Z -> Z -> Z) : Prop :=
  forall buf : BufType,
    (forall i, S i = true -> 0 <= i < Z.of_nat (length buf)) ->
    exists buf' : BufType,
      m buf = (buf', Ok tt) /\ length buf' = length buf /\
      forall i, 0 <= i ->
        buf' !! Z.to_nat i =
          if S i then u i <$> buf !! Z.to_nat i else buf !! Z.to_nat i.

Lemma updated_ext (m : M unit) (S S' : Z -> bool) (u : Z -> Z -> Z) :
  (forall i, S i = S' i) -> updated m S u -> updated m S' u.
Proof.
  intros E H buf Hb.
  destruct (H buf) as (buf' & ? & ? & Hp).
  - intros i Hi. apply Hb. now rewrite <- E.
  - exists buf'. repeat split; try easy. intros i Hi. rewrite <- E. now apply Hp.
Qed.

Lemma updated_ret (u : Z -> Z -> Z) : updated (ret tt) (fun _ => false) u.
Proof. intros buf _. exists buf. easy. Qed.

Lemma updated_seq (m1 m2 : M unit) (S1 S2 : Z -> bool) (u : Z -> Z -> Z) :
  (forall i, S1 i = true -> S2 i = false) ->
  updated m1 S1 u -> updated m2 S2 u ->
  updated (m1 ;; m2) (fun i => S1 i || S2 i) u.
Proof.
  intros D H1 H2 buf Hb.
  destruct (H1 buf) as (buf1 & E1 & L1 & P1).
  { intros i Hi. apply Hb. now rewrite Hi. }
  destruct (H2 buf1) as (buf2 & E2 & L2 & P2).
  { intros i Hi. rewrite L1. apply Hb. rewrite Hi. apply orb_true_r. }
  exists buf2. unfold bind. rewrite E1, E2. repeat split; [congruence|].
  intros i Hi. rewrite P2, P1 by easy. specialize (D i).
  destruct (S1 i), (S2 i); try easy. now discriminate D.
Qed.

Lemma updated_for_each {A} (l : list A) (body : A -> M unit)
    (S : A -> Z -> bool) (u : Z -> Z -> Z) :
  NoDup l ->
  (forall a a' i, In a l -> In a' l -> a <> a' ->
     S a i = true -> S a' i = false) ->
  (forall a, In a l -> updated (body a) (S a) u) ->
  updated (for_each l body) (fun i => existsb (fun a => S a i) l) u.
Proof.
  intros Hnd. induction Hnd as [|a l Ha Hnd IH]; intros D Hbody.
  - apply updated_ret.
  - cbn [for_each existsb]. apply updated_seq.
    + intros i Hi. apply not_true_iff_false.
      intros (a' & Hin & E)%existsb_exists.
      assert (a <> a') by (intros ->; now apply Ha, list_elem_of_In).
      rewrite (D a a' i) in E; try easy; [now left | now right].
    + apply Hbody. now left.
    + apply IH.
      * intros x x' i Hx Hx'. apply D; now right.
      * intros x Hx. apply Hbody. now right.
Qed.

Lemma NoDup_range (a b : Z) : NoDup (range a b).
Proof.
  unfold range. generalize (Z.to_nat (b - a)) as k. generalize 0%nat as s.
  intros s k. revert s. induction k as [|k IH]; intros s; cbn [seq map].
  - constructor.
  - constructor; [|apply IH]. rewrite list_elem_of_In, in_map_iff.
    intros (i & E & Hi%in_seq). lia.
Qed.

(** The item at position [i], 0 outside the buffer. *)
Definition byte_at (src : BufType) (i : Z) : Z :=
  default 0 (src !! Z.to_nat i).

(** Every item is a byte. *)
Definition is_bytes (buf : BufType) : Prop :=
  Forall (fun v => 0 <= v <= 255) buf.

Lemma seq_get_byte_at (src : BufType) (i : Z) :
  0 <= i < Z.of_nat (length src) -> seq_get src i = Ok (byte_at src i).
Proof.
  intros H. destruct (seq_get_in_range i src H) as (v & E & ->).
  unfold byte_at. now rewrite E.
Qed.

Lemma byte_at_bounds (src : BufType) (i : Z) :
  is_bytes src -> 0 <= byte_at src i <= 255.
Proof.
  intros H. unfold byte_at. destruct (src !! Z.to_nat i) as [v|] eqn:E;
    cbn; [|lia].
  unfold is_bytes in H. rewrite Forall_lookup in H. exact (H _ _ E).
Qed.

(** The sum of [f x] for the [x] of [l]. *)
Definition zsum (l : list Z) (f : Z -> Z) : Z :=
  fold_right (fun x s => f x + s) 0 l.

Lemma zsum_nonneg (l : list Z) (f : Z -> Z) :
  (forall x, 0 <= f x) -> 0 <= zsum l f.
Proof.
  intros H. unfold zsum. induction l as [|x l IH]; cbn [fold_right]; [lia|].
  specialize (H x). lia.
Qed.

(** The floor of the mean of the block of the scratch buffer (rows of
    [4 * width]) that covers the destination pixel in column [x] of row [y]:
    rows [4y .. 4y + 3], columns [4x .. 4x + 3]. *)
Definition block_average (ss : BufType) (width x y : Z) : Z :=
  zsum (range (4 * y) (4 * y + 4)) (fun j =>
    zsum (range (4 * x) (4 * x + 4)) (fun i =>
      byte_at ss (4 * width * j + i))) / 16.

Lemma rfold_reads (src : BufType) (l : list Z) (idx : Z -> Z) (acc : Z) :
  (forall x, In x l -> 0 <= idx x < Z.of_nat (length src)) ->
  rfold l acc (fun total x =>
    rbind (seq_get src (idx x)) (fun v => Ok (total + v)))
  = Ok (acc + zsum l (fun x => byte_at src (idx x))).
Proof.
  revert acc. induction l as [|x l IH]; intros acc H; cbn [rfold zsum fold_right].
  - f_equal. lia.
  - rewrite seq_get_byte_at by (apply H; now left). cbn [rbind].
    rewrite IH by (intros x' Hx'; apply H; now right). f_equal.
    unfold zsum. lia.
Qed.

Lemma rfold_rows (src : BufType) (rows cols : list Z) (idx : Z -> Z -> Z)
    (acc : Z) :
  (forall y x, In y rows -> In x cols ->
     0 <= idx y x < Z.of_nat (length src)) ->
  rfold rows acc (fun total y =>
    rfold cols total (fun total x =>
      rbind (seq_get src (idx y x)) (fun v => Ok (total + v))))
  = Ok (acc + zsum rows (fun y => zsum cols (fun x => byte_at src (idx y x)))).
Proof.
  revert acc. induction rows as [|y rows IH]; intros acc H;
    cbn [rfold zsum fold_right].
  - f_equal. lia.
  - rewrite (rfold_reads src cols (idx y))
      by (intros x Hx; apply H; [now left | easy]).
    cbn [rbind]. rewrite IH by (intros y' x Hy' Hx; apply H; [now right|easy]).
    f_equal. unfold zsum. lia.
Qed.

Lemma average_intensity_block (ss : BufType) (width height x y : Z) :
  Z.of_nat (length ss) = (4 * width) * (4 * height) ->
  0 <= x < width -> 0 <= y < height ->
  average_intensity_in_src ss (4 * width) 4 x y
  = Ok (block_average ss width x y).
Proof.
  intros L Hx Hy. unfold average_intensity_in_src.
  rewrite (rfold_rows ss _ _ (fun y x => 4 * width * y + x)).
  - cbn [rbind]. unfold floordiv, block_average.
    change (4 * 4 =? 0) with false. change (4 * 4) with 16.
    now rewrite (Z.mul_comm y 4), (Z.mul_comm x 4), Z.add_0_l.
  - intros j i Hj%in_range Hi%in_range. nia.
Qed.

(** One pass of [downsample] over a destination of [width * height]
    pixels: the pixel in column [x] of row [y] is at [width * y + x]. *)
Lemma downsample_updated (ss : BufType) (width height : Z) :
  Z.of_nat (length ss) = (4 * width) * (4 * height) ->
  0 <= width -> 0 <= height ->
  updated (downsample ss width height 4)
    (fun i => between 0 (width * height) i)
    (fun i old => Z.min 255 (old + block_average ss width (i mod width)
                                     (i / width))).
Proof.
  intros L Hw Hh. unfold downsample.
  eapply updated_ext; cycle 1.
  - apply updated_for_each with
      (S := fun y i => between (width * y) (width * y + width) i).
    + apply NoDup_range.
    + intros a a' i _ _ Hne E. apply between_spec in E.
      apply between_false. nia.
    + intros y Hy%in_range. eapply updated_ext; cycle 1.
      * apply updated_for_each with (S := fun x i => i =? width * y + x).
        -- apply NoDup_range.
        -- intros a a' i _ _ Hne E. apply Z.eqb_eq in E. apply Z.eqb_neq. lia.
        -- intros x Hx%in_range buf Hb.
           assert (Hi : 0 <= width * y + x < Z.of_nat (length buf))
             by (apply Hb, Z.eqb_refl).
           unfold bind, getitem, lift. rewrite seq_get_byte_at by easy.
           rewrite average_intensity_block with (height := height) by easy.
           rewrite setitem_in_range by easy.
           eexists. split; [reflexivity|]. split; [apply length_insert|].
           intros i Hi'.
           destruct (Z.eqb_spec i (width * y + x)) as [->|Hne].
           ++ rewrite list_lookup_insert_eq by lia.
              destruct (seq_get_in_range _ buf Hi) as (v & Ev & _).
              unfold byte_at. rewrite Ev. cbn.
              assert (E1 : (width * y + x) mod width = x)
                by (rewrite Z.mul_comm, Z.add_comm, Z_mod_plus_full;
                    apply Z.mod_small; lia).
              assert (E2 : (width * y + x) / width = y)
                by (rewrite Z.mul_comm, Z.add_comm, Z_div_plus_full,
                      Z.div_small by lia; lia).
              now rewrite E1, E2.
           ++ apply list_lookup_insert_ne. lia.
      * intros i. cbn beta. apply eq_true_iff_eq.
        rewrite existsb_range, between_spec. split.
        -- intros (x & Hx & E%Z.eqb_eq). lia.
        -- intros Hi. exists (i - width * y). split; [lia|].
           apply Z.eqb_eq. lia.
  - intros i. cbn beta. apply eq_true_iff_eq.
    rewrite existsb_range, between_spec. split.
    + intros (y & Hy & E%between_spec). nia.
    + intros Hi. exists (i / width).
      assert (0 < width) by nia.
      pose proof (Z.mul_div_le i width ltac:(lia)).
      pose proof (Z.mul_succ_div_gt i width ltac:(lia)).
      split; [split; [apply Z.div_pos; lia | apply Z.div_lt_upper_bound; nia]|].
      apply between_spec. lia.
Qed.

Lemma length_zeros (k : Z) : 0 <= k -> Z.of_nat (length (zeros k)) = k.
Proof. intros H. unfold zeros. rewrite length_replicate. lia. Qed.

Lemma is_bytes_zeros (k : Z) : is_bytes (zeros k).
Proof. unfold is_bytes, zeros. apply Forall_replicate. lia. Qed.

Lemma byte_at_lookup (buf : BufType) (i : Z) :
  0 <= i < Z.of_nat (length buf) ->
  buf !! Z.to_nat i = Some (byte_at buf i).
Proof.
  intros H. unfold byte_at.
  destruct (buf !! Z.to_nat i) eqn:E; [easy|].
  apply lookup_ge_None in E. lia.
Qed.

Lemma block_average_nonneg (ss : BufType) (width x y : Z) :
  is_bytes ss -> 0 <= block_average ss width x y.
Proof.
  intros H. unfold block_average. apply Z.div_pos; [|lia].
  apply zsum_nonneg. intros j. apply zsum_nonneg. intros i.
  now apply byte_at_bounds.
Qed.

(** What [supersampled()(f)] does to the destination, given the scratch
    buffer [ss] that [f] leaves. *)
Lemma supersampled_run (f : Z -> Z -> Z -> M unit) (width height : Z)
    (dest ss : BufType) :
  0 <= width -> 0 <= height ->
  Z.of_nat (length dest) = width * height ->
  f supersample_factor (4 * width) (4 * height)
    (zeros (4 * width * (4 * height))) = (ss, Ok tt) ->
  Z.of_nat (length ss) = 4 * width * (4 * height) ->
  exists dest',
    supersampled f width height dest = (dest', Ok tt) /\
    length dest' = length dest /\
    forall x y, 0 <= x < width -> 0 <= y < height ->
      byte_at dest' (y * width + x)
      = Z.min 255 (byte_at dest (y * width + x) + block_average ss width x y).
Proof.
  intros Hw Hh L Hf Ls. unfold supersampled, bind, lift, bytearray, run_on.
  change supersample_factor with 4 in *.
  destruct (Z.ltb_spec (4 * width * (4 * height)) 0) as [|_]; [nia|].
  fold (zeros (4 * width * (4 * height))). rewrite Hf. cbn [fst].
  destruct (downsample_updated ss width height Ls Hw Hh dest)
    as (dest' & E & L' & P).
  { intros i Hi%between_spec. lia. }
  exists dest'. split; [easy|]. split; [easy|]. intros x y Hx Hy.
  assert (Hi : 0 <= y * width + x < width * height) by nia.
  unfold byte_at at 1. rewrite P by lia.
  replace (between 0 (width * height) (y * width + x)) with true
    by (symmetry; now apply between_spec).
  rewrite byte_at_lookup by lia. cbn.
  assert (E1 : (y * width + x) mod width = x)
    by (rewrite Z.add_comm, Z_mod_plus_full; apply Z.mod_small; lia).
  assert (E2 : (y * width + x) / width = y)
    by (rewrite Z.add_comm, Z_div_plus_full, Z.div_small by lia; lia).
  now rewrite E1, E2.
Qed.

(** C3.  [supersampled()(f)], for any routine [f] and any extra arguments
    (bound in [f]), called on a destination of [width * height] bytes:
    [f] runs on a fresh scratch buffer of [(4 * width) * (4 * height)] zero
    bytes at the dimensions [4 * width] and [4 * height]; when it returns,
    leaving the scratch bytes [ss], every destination pixel becomes
    [min(255, old + avg)] where [avg] is the floor of the mean of its 4 x 4
    block of [ss], and no destination pixel decreases. *)
Theorem supersampled_adds_block_average (f : Z -> Z -> Z -> M unit)
    (width height : Z) (dest ss : BufType) :
  0 <= width -> 0 <= height ->
  Z.of_nat (length dest) = width * height -> is_bytes dest ->
  f supersample_factor (4 * width) (4 * height)
    (zeros (4 * width * (4 * height))) = (ss, Ok tt) ->
  Z.of_nat (length ss) = 4 * width * (4 * height) -> is_bytes ss ->
  exists dest',
    supersampled f width height dest = (dest', Ok tt) /\
    length dest' = length dest /\
    forall x y, 0 <= x < width -> 0 <= y < height ->
      byte_at dest' (y * width + x)
      = Z.min 255 (byte_at dest (y * width + x) + block_average ss width x y)
      /\ byte_at dest (y * width + x) <= byte_at dest' (y * width + x).
Proof.
  intros Hw Hh L Hd Hf Ls Hs.
  destruct (supersampled_run f width height dest ss Hw Hh L Hf Ls)
    as (dest' & E & L' & P).
  exists dest'. split; [easy|]. split; [easy|]. intros x y Hx Hy.
  split; [now apply P|]. rewrite P by easy.
  pose proof (byte_at_bounds dest (y * width + x) Hd).
  pose proof (block_average_nonneg ss width x y Hs). lia.
Qed.

(** ** The loops end before their bounds *)

(** The [while True] loops of the source are run by [while_true], whose
    bound is an artefact of the model.  A loop whose body decreases a measure
    that starts below the bound leaves through [return] or [raise] before
    the bound is reached. *)
Lemma iterate_measure {S R} (Inv : S -> Prop) (measure : S -> nat)
    (body : S -> result (S + R)) :
  (forall s s', Inv s -> body s = Ok (inl s') ->
     Inv s' /\ (measure s' < measure s)%nat) ->
  forall fuel s s', Inv s -> iterate fuel body s = Ok (inl s') ->
    Inv s' /\ (measure s' + Pos.to_nat fuel <= measure s)%nat.
Proof.
  intros Hstep. induction fuel as [p IH|p IH|]; intros s s' Hs E;
    cbn [iterate] in E.
  - destruct (body s) as [[s1|r]|e] eqn:E1; try discriminate.
    destruct (Hstep s s1 Hs E1) as [H1 M1].
    destruct (iterate p body s1) as [[s2|r]|e] eqn:E2; try discriminate.
    destruct (IH s1 s2 H1 E2) as [H2 M2].
    destruct (IH s2 s' H2 E) as [H3 M3]. split; [easy|].
    rewrite Pos2Nat.inj_xI. lia.
  - destruct (iterate p body s) as [[s1|r]|e] eqn:E1; try discriminate.
    destruct (IH s s1 Hs E1) as [H1 M1].
    destruct (IH s1 s' H1 E) as [H2 M2]. split; [easy|].
    rewrite Pos2Nat.inj_xO. lia.
  - destruct (Hstep s s' Hs E) as [H1 M1]. split; [easy|].
    change (Pos.to_nat 1) with 1%nat. lia.
Qed.

Lemma while_true_terminates {S R} (Inv : S -> Prop) (measure : S -> nat)
    (body : S -> result (S + R)) (fuel : positive) (s : S) :
  (forall s s', Inv s -> body s = Ok (inl s') ->
     Inv s' /\ (measure s' < measure s)%nat) ->
  (forall s, body s <> Raise LoopBound) ->
  Inv s -> (measure s < Pos.to_nat fuel)%nat ->
  while_true fuel body s <> Raise LoopBound.
Proof.
  intros Hstep Hbody Hs Hm. unfold while_true.
  pose proof (rsafe_iterate (P := fun e => e <> LoopBound) fuel body s) as Hr.
  destruct (iterate fuel body s) as [[s'|r]|e] eqn:E.
  - destruct (iterate_measure Inv measure body Hstep fuel s s' Hs E). lia.
  - discriminate.
  - intros [= ->]. apply Hr; [|reflexivity]. intros s0.
    specialize (Hbody s0). destruct (body s0); [easy|]. cbn. congruence.
Qed.

(** The operations on floats, read on the underlying rationals. *)

Lemma Qc_add (a b : Qc) : ((a + b)%Qc : Q) == (a : Q) + b.
Proof. apply Qred_correct. Qed.

Lemma Qc_mul (a b : Qc) : ((a * b)%Qc : Q) == (a : Q) * b.
Proof. apply Qred_correct. Qed.

Lemma Qc_opp (a : Qc) : ((- a)%Qc : Q) == - (a : Q).
Proof. apply Qred_correct. Qed.

Lemma Qc_sub (a b : Qc) : ((a - b)%Qc : Q) == (a : Q) - b.
Proof. unfold Qcminus. now rewrite Qc_add, Qc_opp. Qed.

Lemma Qc_inv (a : Qc) : ((/ a)%Qc : Q) == / (a : Q).
Proof. apply Qred_correct. Qed.

Lemma Qc_div (a b : Qc) : ((a / b)%Qc : Q) == (a : Q) / b.
Proof. unfold Qcdiv. now rewrite Qc_mul, Qc_inv. Qed.

Lemma Qc_lit (k : Z) (d : positive) : ((lit k d : Q) == k # d)%Q.
Proof. apply Qred_correct. Qed.

Lemma Qc_of_int (z : Z) : ((float_of_int z : Q) == inject_Z z)%Q.
Proof. apply Qred_correct. Qed.

Lemma fle_spec (a b : float) : fle a b = true <-> ((a : Q) <= b)%Q.
Proof. apply Qle_bool_iff. Qed.

Lemma flt_spec (a b : float) : flt a b = true <-> ((a : Q) < b)%Q.
Proof.
  unfold flt. rewrite negb_true_iff, <- not_true_iff_false, Qle_bool_iff.
  split; [apply Qnot_le_lt | apply Qlt_not_le].
Qed.

Lemma flt_false (a b : float) : flt a b = false <-> ((b : Q) <= a)%Q.
Proof.
  unfold flt. rewrite negb_false_iff. apply Qle_bool_iff.
Qed.

Lemma fle_false (a b : float) : fle a b = false <-> ((b : Q) < a)%Q.
Proof.
  unfold fle. rewrite <- not_true_iff_false, Qle_bool_iff.
  split; [apply Qnot_le_lt | apply Qlt_not_le].
Qed.

(** The x coordinate of the curve of [D] at its middle. *)
Lemma bezier_x_half (cx : Z) :
  ((bezier_eq 0 cx cx 0 (lit 1 2) : Q) == (3 # 4) * inject_Z cx)%Q.
Proof.
  unfold bezier_eq.
  rewrite ?Qc_add, ?Qc_mul, ?Qc_sub, ?Qc_add, ?Qc_mul, ?Qc_sub, ?Qc_of_int,
    ?Qc_lit.
  change (this 1%Qc) with 1%Q. change (inject_Z 0) with 0%Q.
  change (inject_Z 3) with 3%Q. field.
Qed.

(** [find_bezier_for_D]: the curve reaches [width - 1] at the latest when
    [3 * cx] exceeds [4 * (width - 1)], and [cx] grows by one per round. *)
Lemma find_bezier_for_D_terminates (width height : Z) :
  find_bezier_for_D width height <> Raise LoopBound.
Proof.
  unfold find_bezier_for_D.
  apply while_true_terminates with
    (Inv := fun _ => True)
    (measure := fun s : Z * Z => Z.to_nat (4 * (width - 1) - 3 * fst s + 3)).
  - intros [cx last_cx] s' _. cbn [cubic_bezier fst snd].
    destruct (flt _ _) eqn:E; [discriminate|]. intros [= <-].
    split; [easy|]. cbn [fst].
    apply flt_false in E. rewrite bezier_x_half, Qc_of_int in E.
    unfold Qle in E. cbn in E. lia.
  - intros [cx last_cx]. cbn [cubic_bezier fst snd].
    now destruct (flt _ _).
  - exact I.
  - unfold find_bezier_for_D_fuel. cbn [fst]. lia.
Qed.

Lemma floor_lower (x : Q) (z : Z) : (inject_Z z <= x)%Q -> z <= Qfloor x.
Proof.
  intros H. rewrite <- (Qfloor_Z z). now apply Qfloor_resp_le.
Qed.

Lemma floor_upper (x : Q) (z : Z) : (x < inject_Z z)%Q -> Qfloor x < z.
Proof.
  intros H. pose proof (Qfloor_le x) as Hf.
  rewrite Zlt_Qlt. eapply Qle_lt_trans; eassumption.
Qed.

Lemma Qc_half (a : Qc) : (this (a / float_of_int 2)%Qc == this a * (1 # 2))%Q.
Proof.
  rewrite Qc_div, Qc_of_int. change (inject_Z 2) with 2%Q. field.
Qed.

(** [find_t_for_x] with the limit [0.5] of its only caller: [start_t] and
    [increment] stay in [0, 0.5] with their sum at most [0.5]. *)
Definition find_t_inv (st : float * float) : Prop :=
  (0 <= (fst st : Q) /\ 0 < (snd st : Q) /\
   (fst st : Q) + (snd st : Q) <= 1 # 2)%Q.

(** A round either halves [increment], which stays at least [1e-6], or
    moves [start_t] forward by [increment] and sets [increment] to the whole
    remaining distance; after that [start_t + increment] is the limit.  The
    measure orders the rounds lexicographically: the remaining distance in
    units of [1e-6], then the increment in the same units. *)
Definition find_t_measure (st : float * float) : nat :=
  let s : Q := fst st in
  let inc : Q := snd st in
  let N := Z.max 0 (Qfloor (((1 # 2) - s) * 1000000)) in
  let K := Qfloor (inc * 1000000) in
  let g := if 1 <=? K then K + 1
           else if Qeq_bool (s + inc) (1 # 2) then 0 else 1048575 in
  Z.to_nat (1048576 * N + g).

Lemma find_t_step (bezier_x : BezierFunc) (x : Z) (st st' : float * float) :
  find_t_inv st ->
  (let '(start_t, increment) := st in
   let q := bezier_x (start_t + increment)%Qc in
   if flt (fabs (q - float_of_int x)) (lit 1 10)
   then Ok (inr (start_t + increment)%Qc)
   else if flt (float_of_int x) q then
     let increment := (increment / float_of_int 2)%Qc in
     if flt increment (lit 1 1000000) then Raise ValueError
     else Ok (inl (start_t, increment))
   else
     let start_t := (start_t + increment)%Qc in
     let increment := (lit 1 2 - start_t)%Qc in
     if fle increment 0%Qc then Ok (inr start_t)
     else Ok (inl (start_t, increment))) = Ok (inl st') ->
  find_t_inv st' /\ (find_t_measure st' < find_t_measure st)%nat.
Proof.
  destruct st as [s inc]. unfold find_t_inv. cbn [fst snd].
  intros (Hs & Hinc & Hsum). cbv zeta.
  destruct (flt (fabs _) _); [discriminate|].
  destruct (flt (float_of_int x) _).
  - destruct (flt _ (lit 1 1000000)) eqn:E; [discriminate|].
    intros [= <-]. cbn [fst snd]. apply flt_false in E.
    pose proof (Qc_half inc) as Hh. rewrite Qc_lit, Hh in E.
    split.
    + unfold find_t_inv. cbn [fst snd]. rewrite Hh. repeat split; lra.
    + unfold find_t_measure. cbn [fst snd].
      set (N := Z.max 0 _).
      assert (HK' : 1 <= Qfloor ((inc / float_of_int 2)%Qc * 1000000)).
      { apply floor_lower. rewrite Hh. change (inject_Z 1) with 1%Q. lra. }
      assert (HK : Qfloor ((inc / float_of_int 2)%Qc * 1000000)
                   < Qfloor (this inc * 1000000)).
      { apply floor_upper. rewrite Hh.
        pose proof (Qlt_floor (this inc * 1000000)) as Hf.
        rewrite inject_Z_plus in Hf. change (inject_Z 1) with 1%Q in Hf.
        lra. }
      destruct (Z.leb_spec 1 (Qfloor ((inc / float_of_int 2)%Qc * 1000000)));
        [|lia].
      destruct (Z.leb_spec 1 (Qfloor (this inc * 1000000))); [|lia].
      lia.
  - destruct (fle _ 0%Qc) eqn:E; [discriminate|].
    intros [= <-]. cbn [fst snd]. apply fle_false in E.
    change (this 0%Qc) with 0%Q in E.
    assert (Hs2 : this (s + inc)%Qc == this s + this inc) by apply Qc_add.
    assert (Hi2 : this (lit 1 2 - (s + inc))%Qc == (1 # 2) - (this s + this inc))
      by (now rewrite Qc_sub, Qc_lit, Qc_add).
    rewrite Hi2 in E.
    split.
    + unfold find_t_inv. cbn [fst snd]. rewrite Hs2, Hi2. repeat split; lra.
    + unfold find_t_measure. cbn [fst snd].
      replace (Qeq_bool (this (s + inc)%Qc + this (lit 1 2 - (s + inc))%Qc)
                 (1 # 2)) with true
        by (symmetry; apply Qeq_bool_iff; rewrite Hs2, Hi2; lra).
      replace (Qeq_bool (this s + inc) (1 # 2)) with false
        by (symmetry; apply not_true_iff_false; intros Hq%Qeq_bool_iff; lra).
      set (K' := Qfloor ((lit 1 2 - (s + inc))%Qc * 1000000)).
      set (K := Qfloor (this inc * 1000000)).
      set (F' := Qfloor (((1 # 2) - (s + inc)%Qc) * 1000000)).
      set (F := Qfloor (((1 # 2) - this s) * 1000000)).
      assert (HK' : K' <= 500000).
      { assert (K' < 500001); [|lia]. apply floor_upper. rewrite Hi2.
        change (inject_Z 500001) with 500001%Q. lra. }
      assert (HF' : 0 <= F').
      { apply floor_lower. rewrite Hs2. change (inject_Z 0) with 0%Q. lra. }
      assert (HFF : F' <= F).
      { apply Qfloor_resp_le. rewrite Hs2. lra. }
      destruct (Z.leb_spec 1 K) as [HK|HK].
      * assert (F' < F).
        { apply floor_upper. rewrite Hs2.
          assert (1 <= this inc * 1000000)%Q.
          { pose proof (Qfloor_le (this inc * 1000000)) as Hf. fold K in Hf.
            rewrite Zle_Qle in HK. change (inject_Z 1) with 1%Q in HK. lra. }
          pose proof (Qlt_floor (((1 # 2) - this s) * 1000000)) as Hf.
          fold F in Hf. rewrite inject_Z_plus in Hf.
          change (inject_Z 1) with 1%Q in Hf.
          lra. }
        destruct (Z.leb_spec 1 K'); lia.
      * destruct (Z.leb_spec 1 K'); lia.
Qed.

Lemma iterate_inv {S R} (Inv : S -> Prop) (body : S -> result (S + R)) :
  (forall s s', Inv s -> body s = Ok (inl s') -> Inv s') ->
  forall fuel s s', Inv s -> iterate fuel body s = Ok (inl s') -> Inv s'.
Proof.
  intros Hstep. induction fuel as [p IH|p IH|]; intros s s' Hs E;
    cbn [iterate] in E.
  - destruct (body s) as [[s1|r]|e] eqn:E1; try discriminate.
    destruct (iterate p body s1) as [[s2|r]|e] eqn:E2; try discriminate.
    eauto.
  - destruct (iterate p body s) as [[s1|r]|e] eqn:E1; try discriminate.
    eauto.
  - eauto.
Qed.

Lemma iterate_return {S R} (Inv : S -> Prop) (body : S -> result (S + R)) :
  (forall s s', Inv s -> body s = Ok (inl s') -> Inv s') ->
  forall fuel s r, Inv s -> iterate fuel body s = Ok (inr r) ->
    exists s0, Inv s0 /\ body s0 = Ok (inr r).
Proof.
  intros Hstep. induction fuel as [p IH|p IH|]; intros s r Hs E;
    cbn [iterate] in E.
  - destruct (body s) as [[s1|r1]|e] eqn:E1; try discriminate.
    + pose proof (Hstep s s1 Hs E1) as H1.
      destruct (iterate p body s1) as [[s2|r2]|e] eqn:E2; try discriminate.
      * apply (IH s2 r); [|exact E].
        exact (iterate_inv Inv body Hstep p s1 s2 H1 E2).
      * injection E as <-. eauto.
    + injection E as <-. eauto.
  - destruct (iterate p body s) as [[s1|r1]|e] eqn:E1; try discriminate.
    + apply (IH s1 r); [|exact E].
      exact (iterate_inv Inv body Hstep p s s1 Hs E1).
    + injection E as <-. eauto.
  - eauto.
Qed.

Lemma find_t_measure_bound (st : float * float) :
  find_t_inv st -> (find_t_measure st < Pos.to_nat find_t_for_x_fuel)%nat.
Proof.
  destruct st as [s inc]. unfold find_t_inv, find_t_measure. cbn [fst snd].
  intros (Hs & Hinc & Hsum).
  set (F := Qfloor (((1 # 2) - this s) * 1000000)).
  set (K := Qfloor (this inc * 1000000)).
  assert (HF : F < 500001).
  { apply floor_upper. change (inject_Z 500001) with 500001%Q. lra. }
  assert (HK : K < 500001).
  { apply floor_upper. change (inject_Z 500001) with 500001%Q. lra. }
  apply Nat2Z.inj_lt. rewrite positive_nat_Z. unfold find_t_for_x_fuel.
  destruct (1 <=? K); [lia|].
  destruct (Qeq_bool _ _); lia.
Qed.

(** [find_t_for_x] returns or raises [ValueError]. *)
Lemma find_t_for_x_terminates (bezier_x : BezierFunc) (x : Z)
    (start_t : float) :
  (0 <= this start_t)%Q ->
  find_t_for_x bezier_x (lit 1 2) x start_t <> Raise LoopBound.
Proof.
  intros Hs. unfold find_t_for_x.
  destruct (flt (fabs _) _); [discriminate|].
  destruct (fle _ 0%Qc) eqn:E; [discriminate|].
  apply fle_false in E. change (this 0%Qc) with 0%Q in E.
  rewrite Qc_sub, Qc_lit in E.
  assert (Hinv : find_t_inv (start_t, (lit 1 2 - start_t)%Qc)).
  { unfold find_t_inv. cbn [fst snd]. rewrite Qc_sub, Qc_lit.
    repeat split; lra. }
  apply while_true_terminates with (Inv := find_t_inv)
                                   (measure := find_t_measure).
  - intros st st'. apply find_t_step.
  - intros [s inc].
    destruct (flt (fabs _) _); [discriminate|].
    destruct (flt (float_of_int x) _).
    + destruct (flt _ (lit 1 1000000)); discriminate.
    + destruct (fle _ 0%Qc); discriminate.
  - exact Hinv.
  - now apply find_t_measure_bound.
Qed.

Lemma find_t_for_x_nonneg (bezier_x : BezierFunc) (x : Z)
    (start_t t : float) :
  (0 <= this start_t)%Q ->
  find_t_for_x bezier_x (lit 1 2) x start_t = Ok t -> (0 <= this t)%Q.
Proof.
  intros Hs. unfold find_t_for_x.
  destruct (flt (fabs _) _); [now intros [= <-]|].
  destruct (fle _ 0%Qc) eqn:E; [now intros [= <-]|].
  apply fle_false in E. change (this 0%Qc) with 0%Q in E.
  rewrite Qc_sub, Qc_lit in E.
  assert (Hinv : find_t_inv (start_t, (lit 1 2 - start_t)%Qc)).
  { unfold find_t_inv. cbn [fst snd]. rewrite Qc_sub, Qc_lit.
    repeat split; lra. }
  unfold while_true.
  destruct (iterate _ _ _) as [[st'|r]|e] eqn:Ei; try discriminate.
  intros [= <-].
  destruct (iterate_return find_t_inv _
              (fun st st' Hst Eb => proj1 (find_t_step bezier_x x st st' Hst Eb))
              _ _ _ Hinv Ei) as ([s inc] & (H1 & H2 & H3) & Eb).
  cbn [fst snd] in *. cbv zeta in Eb.
  destruct (flt (fabs _) _).
  - injection Eb as <-. rewrite Qc_add. lra.
  - destruct (flt (float_of_int x) _).
    + destruct (flt _ (lit 1 1000000)); discriminate.
    + destruct (fle _ 0%Qc); [|discriminate].
      injection Eb as <-. rewrite Qc_add. lra.
Qed.

Lemma bezier_limits_loop_terminates (bezier_x bezier_y : BezierFunc)
    (start_x : Z) (xs : list Z) (last_t : float) :
  (0 <= this last_t)%Q ->
  bezier_limits_loop bezier_x bezier_y (lit 1 2) start_x xs last_t
  <> Raise LoopBound.
Proof.
  revert last_t. induction xs as [|x xs IH]; intros last_t Hl;
    cbn [bezier_limits_loop]; [discriminate|].
  destruct (start_x <? x).
  - pose proof (find_t_for_x_terminates bezier_x x last_t Hl) as Ht.
    pose proof (find_t_for_x_nonneg bezier_x x last_t) as Hn.
    destruct (find_t_for_x bezier_x (lit 1 2) x last_t) as [t'|e];
      cbn [rbind]; [|congruence].
    destruct (fle _ _); [discriminate|].
    specialize (IH t' (Hn t' Hl eq_refl)).
    destruct (bezier_limits_loop _ _ _ _ xs t'); cbn [rbind];
      [discriminate | congruence].
  - cbn [rbind]. destruct (fle _ _); [discriminate|].
    specialize (IH last_t Hl).
    destruct (bezier_limits_loop _ _ _ _ xs last_t); cbn [rbind];
      [discriminate | congruence].
Qed.

(** [get_bezier_limits] starts the search at [0] and continues it from the
    last parameter found, so every search starts at a parameter [>= 0]. *)
Lemma get_bezier_limits_terminates (bezier_x bezier_y : BezierFunc) :
  get_bezier_limits bezier_x bezier_y <> Raise LoopBound.
Proof.
  unfold get_bezier_limits. apply bezier_limits_loop_terminates.
  rewrite Qc_lit. discriminate.
Qed.

(** ** The D shape and its mirror image *)

Lemma range_4 (a : Z) : range a (a + 4) = [a; a + 1; a + 2; a + 3].
Proof.
  unfold range. replace (Z.to_nat (a + 4 - a)) with 4%nat by lia.
  cbn [seq map]. repeat f_equal; lia.
Qed.

(** [mirrored a b width height]: each row of [b] is the row of [a] read from
    its other end. *)
Definition mirrored (a b : BufType) (width height : Z) : Prop :=
  forall x y, 0 <= x < width -> 0 <= y < height ->
    byte_at b (y * width + (width - 1 - x)) = byte_at a (y * width + x).

Lemma block_average_mirrored (a b : BufType) (width height x y : Z) :
  mirrored a b (4 * width) (4 * height) ->
  0 <= x < width -> 0 <= y < height ->
  block_average b width (width - 1 - x) y = block_average a width x y.
Proof.
  intros Hm Hx Hy. unfold block_average. f_equal.
  rewrite !range_4. unfold zsum. cbn [fold_right].
  assert (E : forall J I I', 4 * y <= J < 4 * y + 4 ->
            4 * x <= I' < 4 * x + 4 -> I + I' = 4 * width - 1 ->
            byte_at b (4 * width * J + I) = byte_at a (4 * width * J + I')).
  { intros J I I' HJ HI' HI.
    pose proof (Hm I' J ltac:(lia) ltac:(lia)) as H.
    etransitivity; [|etransitivity; [exact H|]]; f_equal; lia. }
  set (c := 4 * (width - 1 - x)).
  rewrite !(E _ c (4 * x + 3)), !(E _ (c + 1) (4 * x + 2)),
    !(E _ (c + 2) (4 * x + 1)), !(E _ (c + 3) (4 * x)) by (unfold c; lia).
  lia.
Qed.

(** The loop of [D] that copies [mbuf] into [buf], second branch. *)
Lemma mirror_copy (mbuf buf : BufType) (width height : Z) :
  0 <= width -> 0 <= height ->
  Z.of_nat (length mbuf) = width * height ->
  Z.of_nat (length buf) = width * height ->
  exists buf',
    for_each (range 0 height) (fun y =>
      for_each (range 0 width) (fun src_x =>
        v <- lift (seq_get mbuf (y * width + src_x)) ;;
        setitem (y * width + (width - 1 - src_x)) v)) buf
    = (buf', Ok tt) /\
    length buf' = length buf /\ mirrored mbuf buf' width height.
Proof.
  intros Hw Hh Lm Lb.
  pose (u := fun (i old : Z) =>
          byte_at mbuf (i / width * width + (width - 1 - i mod width))).
  assert (Hu : updated
            (for_each (range 0 height) (fun y =>
               for_each (range 0 width) (fun src_x =>
                 v <- lift (seq_get mbuf (y * width + src_x)) ;;
                 setitem (y * width + (width - 1 - src_x)) v)))
            (fun i => existsb (fun y =>
               existsb (fun x => i =? y * width + (width - 1 - x))
                 (range 0 width)) (range 0 height)) u).
  { apply updated_for_each.
    - apply NoDup_range.
    - intros a a' i Ha%in_range Ha'%in_range Hne
        (x & Hx%in_range & E%Z.eqb_eq)%existsb_exists.
      apply not_true_iff_false.
      intros (x' & Hx'%in_range & E'%Z.eqb_eq)%existsb_exists. nia.
    - intros y Hy%in_range. apply updated_for_each.
      + apply NoDup_range.
      + intros a a' i _ _ Hne E%Z.eqb_eq. apply Z.eqb_neq. lia.
      + intros x Hx%in_range b Hb.
        assert (Hi : 0 <= y * width + (width - 1 - x) < Z.of_nat (length b))
          by (apply Hb, Z.eqb_refl).
        unfold bind, lift. rewrite seq_get_byte_at by nia.
        rewrite setitem_in_range by easy.
        eexists. split; [reflexivity|]. split; [apply length_insert|].
        intros i Hi'.
        destruct (Z.eqb_spec i (y * width + (width - 1 - x))) as [->|Hne].
        * rewrite list_lookup_insert_eq by lia.
          rewrite byte_at_lookup by easy. cbn. unfold u. do 2 f_equal.
          assert (E1 : (y * width + (width - 1 - x)) mod width = width - 1 - x)
            by (rewrite Z.add_comm, Z_mod_plus_full; apply Z.mod_small; lia).
          assert (E2 : (y * width + (width - 1 - x)) / width = y)
            by (rewrite Z.add_comm, Z_div_plus_full, Z.div_small by lia; lia).
          rewrite E1, E2. lia.
        * apply list_lookup_insert_ne. lia. }
  destruct (Hu buf) as (buf' & E & L & P).
  { intros i (y & Hy & (x & Hx & Ei%Z.eqb_eq)%existsb_range)%existsb_range.
    nia. }
  exists buf'. split; [easy|]. split; [easy|]. intros x y Hx Hy.
  assert (Hi : 0 <= y * width + (width - 1 - x) < width * height) by nia.
  unfold byte_at at 1. rewrite P by lia.
  replace (existsb _ (range 0 height)) with true.
  - rewrite byte_at_lookup by lia. cbn. unfold u. f_equal.
    assert (E1 : (y * width + (width - 1 - x)) mod width = width - 1 - x)
      by (rewrite Z.add_comm, Z_mod_plus_full; apply Z.mod_small; lia).
    assert (E2 : (y * width + (width - 1 - x)) / width = y)
      by (rewrite Z.add_comm, Z_div_plus_full, Z.div_small by lia; lia).
    rewrite E1, E2. lia.
  - symmetry. apply existsb_range. exists y. split; [easy|].
    apply existsb_range. exists x. split; [easy|]. apply Z.eqb_refl.
Qed.

Lemma fill_region_length (width height : Z) (xlimits : list (float * float))
    (buf : BufType) :
  length (fst (fill_region width height xlimits buf)) = length buf.
Proof.
  apply (safe_fill_region (P := fun _ => True) I width height xlimits buf
           eq_refl).
Qed.

Lemma bind_lift {A B} (r : result A) (k : A -> M B) (buf : BufType) :
  bind (lift r) k buf
  = match r with Ok a => k a buf | Raise e => (buf, Raise e) end.
Proof. reflexivity. Qed.

Lemma bind_run_on {A B} (other : BufType) (m : M A) (k : BufType * A -> M B)
    (buf : BufType) :
  bind (run_on other m) k buf
  = match m other with
    | (other', Ok a) => k (other', a) buf
    | (_, Raise e) => (buf, Raise e)
    end.
Proof. unfold bind, run_on. now destruct (m other) as [o [a|e]]. Qed.

(** The scratch buffers of the two variants of [D]: same outcome, and
    mirrored rows when they return. *)
Lemma D_body_mirrored (ssf width height : Z) :
  0 <= width -> 0 <= height ->
  exists a b r,
    D_body ssf width height true (zeros (width * height)) = (a, r) /\
    D_body ssf width height false (zeros (width * height)) = (b, r) /\
    Z.of_nat (length a) = width * height /\
    Z.of_nat (length b) = width * height /\
    r <> Raise LoopBound /\
    (r = Ok tt -> mirrored a b width height).
Proof.
  intros Hw Hh. unfold D_body. rewrite !bind_lift.
  pose proof (length_zeros (width * height) ltac:(nia)) as L0.
  pose proof (find_bezier_for_D_terminates width height) as T1.
  destruct (find_bezier_for_D width height) as [c1x|e].
  2: { exists (zeros (width * height)), (zeros (width * height)), (Raise e).
       split; [easy|]. split; [easy|]. split; [easy|]. split; [easy|].
       split; [congruence|easy]. }
  cbv zeta. cbn [cubic_bezier fst snd]. rewrite !bind_lift.
  pose proof (get_bezier_limits_terminates (bezier_eq 0 c1x c1x 0)
                (bezier_eq 0 0 (height - 1) (height - 1))) as T2.
  destruct (get_bezier_limits _ _) as [xlimits|e].
  2: { exists (zeros (width * height)), (zeros (width * height)), (Raise e).
       split; [easy|]. split; [easy|]. split; [easy|]. split; [easy|].
       split; [congruence|easy]. }
  rewrite bind_lift. unfold bytearray.
  destruct (Z.ltb_spec (width * height) 0) as [|_]; [nia|].
  fold (zeros (width * height)). rewrite bind_run_on.
  destruct (safe_fill_region (P := fun e => e <> LoopBound)
              ltac:(discriminate) width height xlimits
              (zeros (width * height)) eq_refl) as [Lf Rf].
  destruct (fill_region width height xlimits (zeros (width * height)))
    as [a [[]|e]]; cbn [fst snd] in *.
  - destruct (mirror_copy a (zeros (width * height)) width height)
      as (b & E & Lb & Hm); try lia.
    exists a, b, (Ok tt). rewrite E. repeat split; try easy; lia.
  - exists a, (zeros (width * height)), (Raise e).
    repeat split; try easy; try lia. congruence.
Qed.

(** C7.  On zero buffers of the same dimensions, the supersampled [D] with
    [left=True] and with [left=False] end in the same way (the loops of the
    search end, so the calls return or raise a Python exception), and the
    two buffers are mirror images: the pixel in column [x] of a row of the
    first is the pixel in column [width - 1 - x] of that row of the second. *)
Theorem D_left_right_mirror (width height : Z) :
  0 <= width -> 0 <= height ->
  exists bufLeft bufRight r,
    D width height true (zeros (width * height)) = (bufLeft, r) /\
    D width height false (zeros (width * height)) = (bufRight, r) /\
    r <> Raise LoopBound /\
    forall x y, 0 <= x < width -> 0 <= y < height ->
      pixel bufLeft width x y = pixel bufRight width (width - 1 - x) y.
Proof.
  intros Hw Hh.
  pose proof (length_zeros (width * height) ltac:(nia)) as L0.
  destruct (D_body_mirrored supersample_factor (4 * width) (4 * height)
              ltac:(lia) ltac:(lia))
    as (a & b & r & Ea & Eb & La & Lb & Hr & Hm).
  destruct r as [[]|e].
  - destruct (supersampled_run (fun ssf w h => D_body ssf w h true)
                width height (zeros (width * height)) a Hw Hh L0 Ea La)
      as (dl & El & Ll & Pl).
    destruct (supersampled_run (fun ssf w h => D_body ssf w h false)
                width height (zeros (width * height)) b Hw Hh L0 Eb Lb)
      as (dr & Er & Lr & Pr).
    exists dl, dr, (Ok tt). split; [exact El|]. split; [exact Er|].
    split; [discriminate|].
    intros x y Hx Hy. unfold pixel.
    rewrite !byte_at_lookup by nia. f_equal.
    rewrite Pl, Pr by lia.
    rewrite (block_average_mirrored a b width height x y (Hm eq_refl) Hx Hy).
    unfold byte_at, zeros. rewrite !lookup_replicate_2 by nia. reflexivity.
  - exists (zeros (width * height)), (zeros (width * height)), (Raise e).
    unfold D, supersampled. rewrite !bind_lift. unfold bytearray.
    change supersample_factor with 4 in *.
    destruct (Z.ltb_spec (4 * width * (4 * height)) 0) as [|_]; [nia|].
    fold (zeros (4 * width * (4 * height))). rewrite !bind_run_on.
    rewrite Ea, Eb. repeat split; [exact Hr|].
    intros x y Hx Hy. unfold pixel, zeros.
    rewrite !lookup_replicate_2 by nia. reflexivity.
Qed.

(** ** Guarded writes *)

(** [guarded P n m]: on a buffer of [n] items, [m] keeps the number of items
    and raises only exceptions of [P]; and it does not depend on, nor change,
    what lies beyond the [n] items: with any [tail] appended to the buffer it
    does the same to the [n] items, ends in the same way and leaves [tail] as
    it was.  A store or a load outside [0 <= i < n] breaks this for some
    [tail]: a position past the end raises [IndexError] without the tail and
    lands in a long enough tail; a negative position counts from the end of
    the tail. *)
Definition guarded {A} (P : exn -> Prop) (n : nat) (m : M A) : Prop :=
  forall buf tail : BufType, length buf = n ->
    length (fst (m buf)) = n /\
    rsafe P (snd (m buf)) /\
    m (buf ++ tail) = (fst (m buf) ++ tail, snd (m buf)).

Section Guarded.

Context {P : exn -> Prop} {n : nat}.

Lemma guarded_ret {A} (a : A) : guarded P n (ret a).
Proof. intros buf tail L. now repeat split. Qed.

Lemma guarded_lift {A} (r : result A) : rsafe P r -> guarded P n (lift r).
Proof. intros H buf tail L. now repeat split. Qed.

Lemma guarded_bind {A B} (m : M A) (k : A -> M B) :
  guarded P n m -> (forall a, guarded P n (k a)) -> guarded P n (bind m k).
Proof.
  intros Hm Hk buf tail L. unfold bind.
  destruct (Hm buf tail L) as (L1 & R1 & F1). rewrite F1.
  destruct (m buf) as [buf1 [a|e]]; cbn [fst snd] in *; [|easy].
  apply Hk, L1.
Qed.

Lemma guarded_for_each {A} (l : list A) (body : A -> M unit) :
  (forall a, In a l -> guarded P n (body a)) -> guarded P n (for_each l body).
Proof.
  induction l as [|a l IH]; intros H; cbn [for_each]; [apply guarded_ret|].
  apply guarded_bind; [apply H; now left|].
  intros _. apply IH. intros a' Ha'. apply H. now right.
Qed.

Lemma guarded_for_fold {A S} (l : list A) (acc : S) (body : S -> A -> M S) :
  (forall s a, In a l -> guarded P n (body s a)) ->
  guarded P n (for_fold l acc body).
Proof.
  revert acc. induction l as [|a l IH]; intros acc H; cbn [for_fold];
    [apply guarded_ret|].
  apply guarded_bind; [apply H; now left|].
  intros acc'. apply IH. intros s a' Ha'. apply H. now right.
Qed.

Lemma guarded_setitem (i v : Z) :
  0 <= i < Z.of_nat n -> guarded P n (setitem i v).
Proof.
  intros H buf tail L. subst n. unfold setitem.
  rewrite !norm_index_in_range by (rewrite ?length_app; lia). cbn [fst snd].
  repeat split; [apply length_insert|].
  now rewrite insert_app_l by lia.
Qed.

Lemma guarded_getitem (i : Z) :
  0 <= i < Z.of_nat n -> guarded P n (getitem i).
Proof.
  intros H buf tail L. subst n. unfold getitem, seq_get.
  rewrite !norm_index_in_range by (rewrite ?length_app; lia). cbn [fst snd].
  rewrite lookup_app_l by lia.
  destruct (buf !! Z.to_nat i) eqn:E; [easy|].
  apply lookup_ge_None in E. lia.
Qed.

Lemma guarded_run_on {A} (other : BufType) (m : M A) :
  rsafe P (snd (m other)) -> guarded P n (run_on other m).
Proof.
  intros H buf tail L. unfold run_on.
  now destruct (m other) as [o [a|e]].
Qed.

End Guarded.

Ltac guard_bounds :=
  repeat match goal with
         | H : In _ (range _ _) |- _ => apply in_range in H
         | H : (_ && _) = true |- _ => apply andb_true_iff in H as [? ?]
         | H : (_ <=? _) = true |- _ => apply Z.leb_le in H
         | H : (_ <? _) = true |- _ => apply Z.ltb_lt in H
         end; nia.

Ltac guard_step :=
  cbv beta;
  lazymatch goal with
  | |- guarded _ _ (bind _ _) => apply guarded_bind; [|intros ?]
  | |- guarded _ _ (ret _) => apply guarded_ret
  | |- guarded _ _ (lift _) => apply guarded_lift
  | |- guarded _ _ (for_each _ _) => apply guarded_for_each; intros ? ?
  | |- guarded _ _ (for_fold _ _ _) => apply guarded_for_fold; intros ? ? ?
  | |- guarded _ _ (run_on _ _) => apply guarded_run_on
  | |- guarded _ _ (setitem _ _) => apply guarded_setitem; guard_bounds
  | |- guarded _ _ (getitem _) => apply guarded_getitem; guard_bounds
  | |- guarded _ _ (if ?b then _ else _) =>
      let E := fresh "E" in destruct b eqn:E
  | |- guarded _ _ (match ?p with _ => _ end) => destruct p
  end.

Lemma guarded_thick_line (n : nat) (width height thickness_in_pixels : Z)
    (p1 p2 : Z * Z) :
  Z.of_nat n = width * height ->
  guarded (fun e => e = ZeroDivisionError) n
    (thick_line width height thickness_in_pixels p1 p2).
Proof.
  intros Hn. unfold thick_line. repeat guard_step.
  all: unfold line_equation, truediv; now destruct (_ =? 0).
Qed.

Lemma guarded_draw_parametrized_curve (n : nat)
    (width height thickness_in_pixels : Z) (xfunc yfunc : BezierFunc) :
  Z.of_nat n = width * height ->
  guarded (fun e => e = ZeroDivisionError) n
    (draw_parametrized_curve width height thickness_in_pixels xfunc yfunc).
Proof.
  intros Hn. unfold draw_parametrized_curve. repeat guard_step.
  unfold truediv; now destruct (_ =? 0).
Qed.

Lemma guarded_weaken {A} (P P' : exn -> Prop) (n : nat) (m : M A) :
  (forall e, P e -> P' e) -> guarded P n m -> guarded P' n m.
Proof.
  intros HP H buf tail L. destruct (H buf tail L) as (L' & R & F).
  repeat split; try easy. destruct (snd (m buf)); cbn in *; auto.
Qed.

Lemma guarded_downsample (n : nat) (src : BufType) (dest_width dest_height
    factor : Z) :
  Z.of_nat n = dest_width * dest_height ->
  guarded (fun _ => True) n (downsample src dest_width dest_height factor).
Proof.
  intros Hn. unfold downsample. repeat guard_step.
  now destruct (average_intensity_in_src _ _ _ _ _).
Qed.

Lemma guarded_supersampled (n : nat) (f : Z -> Z -> Z -> M unit)
    (width height : Z) :
  Z.of_nat n = width * height ->
  guarded (fun _ => True) n (supersampled f width height).
Proof.
  intros Hn. unfold supersampled. repeat guard_step.
  - now destruct (bytearray _).
  - now destruct (snd _).
  - now apply guarded_downsample.
Qed.

Lemma guarded_cross_line_body (g : globals) (n : nat)
    (ssf width height : Z) (left : bool) (level : Z) :
  Z.of_nat n = width * height ->
  guarded (fun _ => True) n (cross_line_body g ssf width height left level).
Proof.
  intros Hn. unfold cross_line_body. repeat guard_step.
  - now destruct (thickness _ _ _).
  - eapply guarded_weaken; [|now apply guarded_thick_line]. easy.
Qed.

Lemma guarded_half_cross_line_body (g : globals) (n : nat)
    (ssf width height : Z) (which : string) (level : Z) :
  Z.of_nat n = width * height ->
  guarded (fun _ => True) n
    (half_cross_line_body g ssf width height which level).
Proof.
  intros Hn. unfold half_cross_line_body. repeat guard_step.
  - now destruct (thickness _ _ _).
  - eapply guarded_weaken; [|now apply guarded_thick_line]. easy.
Qed.

Lemma guarded_raise {A} (P : exn -> Prop) (n : nat) (e : exn) :
  P e -> guarded P n (raise e : M A).
Proof. intros H buf tail L. now repeat split. Qed.

Lemma guarded_rounded_corner_body (g : globals) (n : nat)
    (ssf width height level which : Z) :
  Z.of_nat n = width * height ->
  guarded (fun _ => True) n
    (rounded_corner_body g ssf width height level which).
Proof.
  intros Hn. unfold rounded_corner_body.
  apply guarded_bind; [apply guarded_lift; now destruct (thickness _ _ _)|].
  intros t. apply guarded_bind.
  - repeat guard_step; now apply guarded_raise.
  - intros [[[start end_] c1] c2]. cbn [cubic_bezier].
    eapply guarded_weaken; [|now apply guarded_draw_parametrized_curve].
    easy.
Qed.

(** C10.  [thick_line] and [draw_parametrized_curve], for all endpoints,
    thicknesses and curve functions, and the routines built on them
    ([cross_line], [half_cross_line] and [rounded_corner], both the wrapped
    routine on the scratch buffer and the supersampled routine on the
    destination), never store or load outside the [width * height] items of
    the buffer; [thick_line] and [draw_parametrized_curve] raise no
    [IndexError] (their only exception is the [ZeroDivisionError] of a
    division).  [draw_hline] and [draw_vline] check no bounds: a band that
    starts above row 0, or left of column 0, is stored at negative
    subscripts. *)
Theorem guarded_line_and_curve_writes :
  (forall n width height thickness_in_pixels p1 p2,
     Z.of_nat n = width * height ->
     guarded (fun e => e = ZeroDivisionError) n
       (thick_line width height thickness_in_pixels p1 p2)) /\
  (forall n width height thickness_in_pixels xfunc yfunc,
     Z.of_nat n = width * height ->
     guarded (fun e => e = ZeroDivisionError) n
       (draw_parametrized_curve width height thickness_in_pixels
          xfunc yfunc)) /\
  (forall g n ssf width height level,
     Z.of_nat n = width * height ->
     (forall left,
        guarded (fun _ => True) n
          (cross_line_body g ssf width height left level)) /\
     (forall which,
        guarded (fun _ => True) n
          (half_cross_line_body g ssf width height which level)) /\
     (forall which,
        guarded (fun _ => True) n
          (rounded_corner_body g ssf width height level which)) /\
     (forall left,
        guarded (fun _ => True) n (cross_line g width height left level)) /\
     (forall which,
        guarded (fun _ => True) n
          (half_cross_line g width height which level)) /\
     (forall which,
        guarded (fun _ => True) n
          (rounded_corner g width height level which))) /\
  ~ guarded (fun _ => True) 4 (draw_hline initial_globals 2 0 2 0 1) /\
  ~ guarded (fun _ => True) 4 (draw_vline initial_globals 2 0 2 0 1).
Proof.
  split; [intros; now apply guarded_thick_line|].
  split; [intros; now apply guarded_draw_parametrized_curve|].
  split.
  - intros g n ssf width height level Hn.
    split; [intros; now apply guarded_cross_line_body|].
    split; [intros; now apply guarded_half_cross_line_body|].
    split; [intros; now apply guarded_rounded_corner_body|].
    split; [intros; now apply guarded_supersampled|].
    split; intros; now apply guarded_supersampled.
  - split; intros H; destruct (H (zeros 4) [0] eq_refl) as (_ & _ & F);
      vm_compute in F; discriminate.
Qed.

(** ** Instances *)

Lemma draw_hline_vline_band_witness :
  exists buf',
    draw_hline initial_globals 4 0 4 2 1 (zeros 16) = (buf', Ok tt) /\
    rect_painted (zeros 16) buf' 4 4 0 4 (2 - 2 / 2) (2 - 2 / 2 + 2) 255.
Proof.
  destruct (draw_hline_vline_band initial_globals (zeros 16) 4 4 1 2
              eq_refl eq_refl) as [H _].
  apply (H 0 4 2); apply Z.leb_le; reflexivity.
Defined.

Lemma thickness_binary64_formula_witness :
  exists pts : Binary64.float,
    Binary64.tuple4_get Binary64.initial_scale 1 = Ok pts /\
    Binary64.thickness (Binary64.at_dpi 96) 1 true
    = Ok (ceil (Binary64.exact pts * float_of_int 96 / lit 72 1)) /\
    forall g : Binary64.globals,
      Binary64.thickness g 1 true = Binary64.thickness g 1 false.
Proof. apply (thickness_binary64_formula 1 96 true); lia. Defined.


Lemma supersampled_adds_block_average_witness :
  exists dest',
    supersampled (fun _ _ _ => setitem 5 160) 1 1 [250] = (dest', Ok tt) /\
    length dest' = 1%nat /\
    forall x y, 0 <= x < 1 -> 0 <= y < 1 ->
      byte_at dest' (y * 1 + x)
      = Z.min 255 (byte_at [250] (y * 1 + x)
                   + block_average (<[5%nat := 160]> (zeros 16)) 1 x y)
      /\ byte_at [250] (y * 1 + x) <= byte_at dest' (y * 1 + x).
Proof.
  apply (supersampled_adds_block_average (fun _ _ _ => setitem 5 160) 1 1
           [250] (<[5%nat := 160]> (zeros 16))); try lia; try reflexivity.
  - repeat constructor; lia.
  - repeat constructor; lia.
Defined.

Lemma hholes_runs_witness :
  exists buf',
    hholes initial_globals 16 16 1 3 (zeros (16 * 16)) = (buf', Ok tt) /\
    forall s len,
      zero_run (fun c => pixel buf' 16 c 8) 16 s len <->
      In s [2; 6; 10] /\ len = 2.
Proof.
  destruct (hholes_runs initial_globals 16 16 1 3 2 eq_refl)
    as (buf' & E & _ & _ & H);
    try (apply Z.leb_le; reflexivity); [lia|].
  exists buf'. split; [exact E|]. apply (H 8).
  split; [apply Z.leb_le | apply Z.ltb_lt]; reflexivity.
Defined.

Lemma D_left_right_mirror_witness :
  exists bufLeft bufRight r,
    D 2 2 true (zeros (2 * 2)) = (bufLeft, r) /\
    D 2 2 false (zeros (2 * 2)) = (bufRight, r) /\
    r <> Raise LoopBound /\
    forall x y, 0 <= x < 2 -> 0 <= y < 2 ->
      pixel bufLeft 2 x y = pixel bufRight 2 (2 - 1 - x) y.
Proof. apply (D_left_right_mirror 2 2); lia. Defined.

(** * Further properties of the drawing routines *)

(** * Further properties of the drawing routines *)

(** ** Shapes made of rectangles *)

(** [shape_painted buf buf' width height S v]: [buf'] is [buf] with the
    pixels [(c, r)] of the cell for which [S c r] holds set to [v]. *)
Definition shape_painted (buf buf' : BufType) (width height : Z)
    (S : Z -> Z -> bool) (v : Z) : Prop :=
  length buf' = length buf /\
  forall c r, 0 <= c < width -> 0 <= r < height ->
    pixel buf' width c r = if S c r then Some v else pixel buf width c r.

(** The positions of a rectangle of a buffer of rows of [width]. *)
Definition rect_at (width x1 x2 y1 y2 : Z) (i : Z) : bool :=
  existsb (fun y => between (y * width + x1) (y * width + x2) i) (range y1 y2).

Lemma rect_at_spec (width x1 x2 y1 y2 i : Z) :
  rect_at width x1 x2 y1 y2 i = true <->
  exists y, y1 <= y < y2 /\ y * width + x1 <= i < y * width + x2.
Proof.
  unfold rect_at. rewrite existsb_range. split; intros (y & Hy & H); exists y;
    (split; [easy|]); now apply between_spec.
Qed.

Lemma painted_m_ext (m m' : M unit) (S : Z -> bool) (v : Z) :
  (forall buf, m buf = m' buf) -> painted m S v -> painted m' S v.
Proof.
  intros E H buf Hb. destruct (H buf Hb) as (buf' & E' & R).
  exists buf'. now rewrite <- E.
Qed.

Lemma painted_lift {A} (r : result A) (a : A) (k : A -> M unit)
    (S : Z -> bool) (v : Z) :
  r = Ok a -> painted (k a) S v -> painted (bind (lift r) k) S v.
Proof. intros -> H. exact H. Qed.

Lemma painted_empty (m : M unit) (S : Z -> bool) (v : Z) :
  painted m S v -> (forall i, S i = false) -> painted m (fun _ => false) v.
Proof. intros H E. eapply painted_ext; [|exact H]. intros i. now rewrite E. Qed.

(** The rows of a rectangle, stored row by row, and its columns, stored
    column by column, are the same positions. *)
Lemma columns_rect_at (width x1 x2 y1 y2 i : Z) :
  existsb (fun x => existsb (fun y => x + y * width =? i) (range y1 y2))
    (range x1 x2)
  = rect_at width x1 x2 y1 y2 i.
Proof.
  apply eq_true_iff_eq. rewrite rect_at_spec, existsb_range. split.
  - intros (x & Hx & (y & Hy & E%Z.eqb_eq)%existsb_range). exists y. lia.
  - intros (y & Hy & H). exists (i - y * width). split; [lia|].
    apply existsb_range. exists y. split; [easy|]. apply Z.eqb_eq. lia.
Qed.

Lemma painted_draw_hline (g : globals) (width x1 x2 y level sz : Z) :
  thickness g level false = Ok sz ->
  painted (draw_hline g width x1 x2 y level)
    (rect_at width x1 x2 (y - sz / 2) (y - sz / 2 + sz)) 255.
Proof.
  intros Ht. unfold draw_hline. eapply painted_lift; [exact Ht|].
  apply painted_rows.
Qed.

Lemma painted_draw_vline (g : globals) (width y1 y2 x level sz : Z) :
  thickness g level true = Ok sz ->
  painted (draw_vline g width y1 y2 x level)
    (rect_at width (x - sz / 2) (x - sz / 2 + sz) y1 y2) 255.
Proof.
  intros Ht. unfold draw_vline. eapply painted_lift; [exact Ht|].
  eapply painted_ext; [|apply painted_columns]. intros i.
  apply columns_rect_at.
Qed.

(** A rectangle inside the cell, pixel by pixel. *)
Lemma rect_at_pixel (width x1 x2 y1 y2 c r : Z) :
  0 <= x1 -> x2 <= width -> 0 <= c < width ->
  rect_at width x1 x2 y1 y2 (r * width + c) = in_rect x1 x2 y1 y2 c r.
Proof. apply rows_in_rect. Qed.

Lemma rect_at_bounds (width height x1 x2 y1 y2 i : Z) :
  0 <= x1 -> x2 <= width -> 0 <= y1 -> y2 <= height ->
  rect_at width x1 x2 y1 y2 i = true -> 0 <= i < width * height.
Proof. intros ? ? ? ? (y & Hy & Hi)%rect_at_spec. nia. Qed.

(** An empty rectangle holds no position, wherever it lies. *)
Lemma rect_at_empty (width x1 x2 y1 y2 i : Z) :
  x2 <= x1 \/ y2 <= y1 -> rect_at width x1 x2 y1 y2 i = false.
Proof.
  intros H. apply not_true_iff_false. intros (y & Hy & Hi)%rect_at_spec. lia.
Qed.

Lemma in_rect_empty (x1 x2 y1 y2 c r : Z) :
  x2 <= x1 \/ y2 <= y1 -> in_rect x1 x2 y1 y2 c r = false.
Proof.
  intros H. apply not_true_iff_false. unfold in_rect.
  rewrite andb_true_iff, !between_spec. lia.
Qed.

(** From positions to pixels. *)
Lemma paint_shape (m : M unit) (S : Z -> bool) (v : Z) (width height : Z)
    (Sh : Z -> Z -> bool) (buf : BufType) :
  painted m S v ->
  Z.of_nat (length buf) = width * height ->
  (forall i, S i = true -> 0 <= i < width * height) ->
  (forall c r, 0 <= c < width -> 0 <= r < height -> S (r * width + c) = Sh c r) ->
  exists buf', m buf = (buf', Ok tt) /\ shape_painted buf buf' width height Sh v.
Proof.
  intros Hp L Hb Hs. destruct (Hp buf) as (buf' & E & L' & P).
  { intros i Hi. rewrite L. now apply Hb. }
  exists buf'. split; [easy|]. split; [easy|]. intros c r Hc Hr.
  unfold pixel. rewrite P by nia. now rewrite Hs.
Qed.

Ltac div_lia := Z.to_euclidean_division_equations; lia.

(** ** Quadrants *)

(** [quad] fills one quarter of the cell: the columns before or from
    [width // 2] on ([x] 0 or 1) of the rows before or from [height // 2] on
    ([y] 0 or 1); for odd dimensions the right and the lower quadrants get
    the extra column and row. *)
Theorem quad_quadrant (width height x y : Z) (buf : BufType) :
  0 <= width -> 0 <= height -> Z.of_nat (length buf) = width * height ->
  0 <= x <= 1 -> 0 <= y <= 1 ->
  exists buf',
    quad width height x y buf = (buf', Ok tt) /\
    shape_painted buf buf' width height
      (fun c r =>
         (if x =? 0 then c <? width / 2 else width / 2 <=? c) &&
         (if y =? 0 then r <? height / 2 else height / 2 <=? r)) 255.
Proof.
  intros Hw Hh L Hx Hy. unfold quad. cbv zeta.
  set (x1 := x * (width / 2)). set (x2 := if x =? 0 then width / 2 else width).
  set (y1 := y * (height / 2)).
  set (y2 := if y =? 0 then height / 2 else height).
  assert (Bx : 0 <= x1 /\ x2 <= width).
  { subst x1 x2. destruct (Z.eqb_spec x 0); [subst; div_lia|].
    assert (x = 1) by lia. subst. div_lia. }
  assert (By : 0 <= y1 /\ y2 <= height).
  { subst y1 y2. destruct (Z.eqb_spec y 0); [subst; div_lia|].
    assert (y = 1) by lia. subst. div_lia. }
  apply (paint_shape _ (rect_at width x1 x2 y1 y2)); try easy.
  - apply painted_rows.
  - intros i. now apply rect_at_bounds.
  - intros c r Hc Hr. rewrite rect_at_pixel by lia. unfold in_rect, between.
    subst x1 x2 y1 y2.
    assert (Ex : x = 0 \/ x = 1) by lia. assert (Ey : y = 0 \/ y = 1) by lia.
    destruct Ex, Ey; subst; cbn [Z.eqb];
      repeat match goal with
             | |- context [?a <=? ?b] => destruct (Z.leb_spec a b)
             | |- context [?a <? ?b] => destruct (Z.ltb_spec a b)
             end; try reflexivity; div_lia.
Qed.

(** The four quadrants tile the cell: drawn one after the other they fill
    the whole cell, for odd dimensions too. *)
Theorem quads_tile_cell (width height : Z) (buf : BufType) :
  0 <= width -> 0 <= height -> Z.of_nat (length buf) = width * height ->
  exists buf',
    (quad width height 0 0 ;; quad width height 1 0 ;;
     quad width height 0 1 ;; quad width height 1 1) buf = (buf', Ok tt) /\
    shape_painted buf buf' width height (fun _ _ => true) 255.
Proof.
  intros Hw Hh L.
  apply (paint_shape _
    (fun i => rect_at width 0 (width / 2) 0 (height / 2) i ||
              (rect_at width (width / 2) width 0 (height / 2) i ||
               (rect_at width 0 (width / 2) (height / 2) height i ||
                rect_at width (width / 2) width (height / 2) height i))));
    try easy.
  - unfold quad. cbv zeta. cbn [Z.eqb].
    replace (0 * (width / 2)) with 0 by lia.
    replace (0 * (height / 2)) with 0 by lia.
    replace (1 * (width / 2)) with (width / 2) by lia.
    replace (1 * (height / 2)) with (height / 2) by lia.
    repeat apply painted_seq; apply painted_rows.
  - intros i H. repeat apply orb_true_iff in H as [H|H];
      apply rect_at_bounds with (height := height) in H; try easy; div_lia.
  - intros c r Hc Hr. rewrite !rect_at_pixel by div_lia.
    unfold in_rect, between.
    repeat match goal with
           | |- context [?a <=? ?b] => destruct (Z.leb_spec a b)
           | |- context [?a <? ?b] => destruct (Z.ltb_spec a b)
           end; try reflexivity; div_lia.
Qed.

(** ** Blocks *)

Lemma painted_span (a b v : Z) :
  painted (for_each (range a b) (fun c => setitem c v)) (between a b) v.
Proof.
  eapply painted_ext; [|apply painted_for_each; intros x _; apply painted_setitem].
  intros i. cbn beta. apply eq_true_iff_eq. rewrite existsb_range, between_spec.
  split.
  - intros (x & Hx & E%Z.eqb_eq). lia.
  - intros H. exists i. split; [easy|]. apply Z.eqb_refl.
Qed.

(** The rows of [vblock], with the product [frac * height] of the model. *)
Lemma vblock_painted_rows (width height : Z) (frac : float) (gravity : string)
    (buf : BufType) :
  0 <= width -> 0 <= height -> Z.of_nat (length buf) = width * height ->
  let num_rows := Z.min height (py_round (frac * float_of_int height)) in
  let start := if String.eqb gravity "top" then 0 else height - num_rows in
  exists buf',
    vblock width height frac gravity buf = (buf', Ok tt) /\
    shape_painted buf buf' width height
      (fun c r => between start (start + num_rows) r) 255.
Proof.
  intros Hw Hh L num_rows start. unfold vblock. fold num_rows. fold start.
  cbv zeta.
  assert (Hn : num_rows <= height) by apply Z.le_min_l.
  assert (Hs : 0 < num_rows -> 0 <= start /\ start + num_rows <= height).
  { subst start. destruct (String.eqb gravity "top"); lia. }
  apply (paint_shape _
    (fun i => existsb (fun r => between (r * width) (r * width + width) i)
                (range start (start + num_rows)))); try easy.
  - apply painted_for_each. intros r _. apply painted_span.
  - intros i (r & Hr & Hi%between_spec)%existsb_range. nia.
  - intros c r Hc Hr. apply eq_true_iff_eq.
    rewrite existsb_range, between_spec. split.
    + intros (r' & Hr' & Hi%between_spec). assert (r' = r) by nia. lia.
    + intros H. exists r. split; [easy|]. apply between_spec. lia.
Qed.

(** The columns of [hblock], with the product [frac * width] of the
    model. *)
Lemma hblock_painted_columns (width height : Z) (frac : float)
    (gravity : string) (buf : BufType) :
  0 <= width -> 0 <= height -> Z.of_nat (length buf) = width * height ->
  let num_cols := Z.min width (py_round (frac * float_of_int width)) in
  let start := if String.eqb gravity "left" then 0 else width - num_cols in
  exists buf',
    hblock width height frac gravity buf = (buf', Ok tt) /\
    shape_painted buf buf' width height
      (fun c r => between start (start + num_cols) c) 255.
Proof.
  intros Hw Hh L num_cols start. unfold hblock. fold num_cols. fold start.
  cbv zeta.
  assert (Hn : num_cols <= width) by apply Z.le_min_l.
  assert (Hs : 0 < num_cols -> 0 <= start /\ start + num_cols <= width).
  { subst start. destruct (String.eqb gravity "left"); lia. }
  apply (paint_shape _
    (fun i => existsb (fun r => between (r * width + start)
                                  (r * width + start + num_cols) i)
                (range 0 height))); try easy.
  - apply painted_for_each. intros r _. apply painted_span.
  - intros i (r & Hr & Hi%between_spec)%existsb_range. nia.
  - intros c r Hc Hr. apply eq_true_iff_eq.
    rewrite existsb_range, !between_spec. split.
    + intros (r' & Hr' & Hi%between_spec). assert (r' = r) by nia. lia.
    + intros H. exists r. split; [easy|]. apply between_spec. lia.
Qed.

(** [round(n / 8)] in integers: to the nearest integer, a half to the even
    neighbour. *)
Definition round_eighths (n : Z) : Z :=
  match n mod 8 ?= 4 with
  | Lt => n / 8
  | Gt => n / 8 + 1
  | Eq => if Z.even (n / 8) then n / 8 else n / 8 + 1
  end.

(** A fraction of eighths and its product with an integer are binary64
    numbers (for every size a buffer can have), so [round] sees the exact
    product. *)
Lemma py_round_eighths (k h : Z) :
  py_round (lit k 8 * float_of_int h) = round_eighths (k * h).
Proof.
  unfold py_round, round_eighths.
  assert (Eq : (this (lit k 8 * float_of_int h)%Qc == (k * h) # 8)%Q).
  { rewrite Qc_mul, Qc_lit, Qc_of_int. unfold Qeq, Qmult, inject_Z. cbn. lia. }
  assert (Ef : Qfloor (lit k 8 * float_of_int h)%Qc = k * h / 8).
  { rewrite (Qfloor_comp _ _ Eq). reflexivity. }
  rewrite Ef.
  assert (Ed : (this (lit k 8 * float_of_int h - float_of_int (k * h / 8))%Qc
                == ((k * h) mod 8) # 8)%Q).
  { rewrite Qc_sub, Eq, Qc_of_int. unfold Qeq, Qminus, Qplus, Qopp, inject_Z.
    cbn. div_lia. }
  unfold Qccompare. rewrite (Qcompare_comp _ _ Ed _ _ (Qc_lit 1 2)).
  unfold Qcompare. cbn [Qnum Qden].
  destruct (Z.compare_spec ((k * h) mod 8) 4) as [H|H|H];
    destruct (Z.compare_spec ((k * h) mod 8 * 2) (1 * 8)); try lia;
    reflexivity.
Qed.

(** [vblock] with a fraction of [k] eighths, the fractions of the table,
    fills whole rows and nothing else: the first [num_rows] rows of the cell
    for gravity ['top'], the last [num_rows] otherwise, where [num_rows] is
    [min(height, round(k * height / 8))]; it draws nothing when that is
    0. *)
Theorem vblock_rows (width height k : Z) (gravity : string) (buf : BufType) :
  0 <= k <= 8 ->
  0 <= width -> 0 <= height -> Z.of_nat (length buf) = width * height ->
  let num_rows := Z.min height (round_eighths (k * height)) in
  let start := if String.eqb gravity "top" then 0 else height - num_rows in
  exists buf',
    vblock width height (lit k 8) gravity buf = (buf', Ok tt) /\
    shape_painted buf buf' width height
      (fun c r => between start (start + num_rows) r) 255.
Proof.
  intros _ Hw Hh L. rewrite <- py_round_eighths.
  now apply vblock_painted_rows.
Qed.

(** [hblock] with a fraction of [k] eighths fills whole columns and nothing
    else: the first [num_cols] columns for gravity ['left'], the last
    [num_cols] otherwise, where [num_cols] is
    [min(width, round(k * width / 8))]. *)
Theorem hblock_columns (width height k : Z) (gravity : string)
    (buf : BufType) :
  0 <= k <= 8 ->
  0 <= width -> 0 <= height -> Z.of_nat (length buf) = width * height ->
  let num_cols := Z.min width (round_eighths (k * width)) in
  let start := if String.eqb gravity "left" then 0 else width - num_cols in
  exists buf',
    hblock width height (lit k 8) gravity buf = (buf', Ok tt) /\
    shape_painted buf buf' width height
      (fun c r => between start (start + num_cols) c) 255.
Proof.
  intros _ Hw Hh L. rewrite <- py_round_eighths.
  now apply hblock_painted_columns.
Qed.

(** [round(0.5 * h)]: halves round to the even neighbour. *)
Lemma py_round_half (h : Z) :
  py_round (lit 1 2 * float_of_int h)
  = if h mod 2 =? 0 then h / 2
    else if h mod 4 =? 1 then h / 2 else h / 2 + 1.
Proof.
  unfold py_round.
  assert (Eq : (this (lit 1 2 * float_of_int h)%Qc == h # 2)%Q).
  { rewrite Qc_mul, Qc_lit, Qc_of_int. unfold Qeq, Qmult, inject_Z. cbn. lia. }
  assert (Ef : Qfloor (lit 1 2 * float_of_int h)%Qc = h / 2).
  { rewrite (Qfloor_comp _ _ Eq). reflexivity. }
  rewrite Ef.
  assert (Ed : (this (lit 1 2 * float_of_int h - float_of_int (h / 2))%Qc
                == (h mod 2) # 2)%Q).
  { rewrite Qc_sub, Eq, Qc_of_int. unfold Qeq, Qminus, Qplus, Qopp, inject_Z.
    cbn. div_lia. }
  unfold Qccompare. rewrite (Qcompare_comp _ _ Ed _ _ (Qc_lit 1 2)).
  unfold Qcompare. cbn [Qnum Qden]. 
  assert (Hm : h mod 2 = 0 \/ h mod 2 = 1) by div_lia.
  destruct Hm as [Hm|Hm]; rewrite Hm; cbn.
  - reflexivity.
  - destruct (Z.eqb_spec (h mod 4) 1) as [H4|H4].
    + replace (Z.even (h / 2)) with true; [easy|].
      symmetry. apply Z.even_spec. exists (h / 4). div_lia.
    + replace (Z.even (h / 2)) with false; [easy|].
      symmetry. apply not_true_iff_false. intros [k Hk]%Z.even_spec. div_lia.
Qed.

Lemma painted_vblock (width height : Z) (frac : float) (gravity : string) :
  let num_rows := Z.min height (py_round (frac * float_of_int height)) in
  let start := if String.eqb gravity "top" then 0 else height - num_rows in
  painted (vblock width height frac gravity)
    (fun i => existsb (fun r => between (r * width) (r * width + width) i)
                (range start (start + num_rows))) 255.
Proof.
  cbv zeta. unfold vblock. cbv zeta.
  apply painted_for_each. intros r _. apply painted_span.
Qed.

(** The upper half block followed by the lower half block (U+2580 and
    U+2584) fills the cell when the height is even; [round] rounds halves to
    the even neighbour, so for a height of the form [4k + 1] the middle row
    is in neither half (and for [4k + 3] it is in both). *)
Theorem half_blocks_cover (width height : Z) (buf : BufType) :
  0 <= width -> 0 <= height -> Z.of_nat (length buf) = width * height ->
  exists buf',
    (vblock width height (lit 1 2) "top" ;;
     vblock width height (lit 1 2) "bottom") buf = (buf', Ok tt) /\
    shape_painted buf buf' width height
      (fun c r => negb ((height mod 4 =? 1) && (r =? height / 2))) 255.
Proof.
  intros Hw Hh L.
  pose proof (painted_vblock width height (lit 1 2) "top") as P1.
  pose proof (painted_vblock width height (lit 1 2) "bottom") as P2.
  cbv zeta in P1, P2. rewrite py_round_half in P1, P2.
  change (String.eqb "top" "top") with true in P1.
  change (String.eqb "bottom" "top") with false in P2.
  set (n := Z.min height _) in *.
  assert (Hn : n = if height mod 2 =? 0 then height / 2
                   else if height mod 4 =? 1 then height / 2
                        else height / 2 + 1).
  { subst n. destruct (Z.eqb_spec (height mod 2) 0); [div_lia|].
    destruct (Z.eqb_spec (height mod 4) 1); div_lia. }
  clearbody n.
  assert (Bn : 0 <= n <= height).
  { subst n. destruct (Z.eqb_spec (height mod 2) 0); [div_lia|].
    destruct (Z.eqb_spec (height mod 4) 1); div_lia. }
  eapply paint_shape; [exact (painted_seq _ _ _ _ _ P1 P2) | exact L | |].
  - cbn beta. intros i H. apply orb_true_iff in H as [H|H];
      apply existsb_range in H as (r & Hr & Hi%between_spec); nia.
  - cbn beta. intros c r Hc Hr. apply eq_true_iff_eq.
    rewrite orb_true_iff, !existsb_range, negb_true_iff, andb_false_iff,
      !Z.eqb_neq.
    split.
    + intros [(r' & Hr' & Hi%between_spec)|(r' & Hr' & Hi%between_spec)];
        assert (r' = r) by nia; subst r';
        destruct (Z.eqb_spec (height mod 2) 0);
        try destruct (Z.eqb_spec (height mod 4) 1); div_lia.
    + intros H.
      assert (Hr' : 0 <= r < n \/ height - n <= r < height).
      { subst n. destruct (Z.eqb_spec (height mod 2) 0);
          try destruct (Z.eqb_spec (height mod 4) 1); div_lia. }
      destruct Hr'; [left|right]; exists r; (split; [lia|]);
        apply between_spec; lia.
Qed.

(** ** Lines through the middle of the cell *)

Lemma painted_half_hline (g : globals) (width height level sz : Z)
    (which : string) (extend_by : Z) :
  thickness g level false = Ok sz ->
  painted (half_hline g width height level which extend_by)
    (rect_at width
       (if String.eqb which "left" then 0 else width / 2 - extend_by)
       (if String.eqb which "left" then extend_by + width / 2 else width)
       (height / 2 - sz / 2) (height / 2 - sz / 2 + sz)) 255.
Proof.
  intros Ht. unfold half_hline. destruct (String.eqb which "left");
    now apply painted_draw_hline.
Qed.

Lemma painted_half_vline (g : globals) (width height level sz : Z)
    (which : string) (extend_by : Z) :
  thickness g level true = Ok sz ->
  painted (half_vline g width height level which extend_by)
    (rect_at width (width / 2 - sz / 2) (width / 2 - sz / 2 + sz)
       (if String.eqb which "top" then 0 else height / 2 - extend_by)
       (if String.eqb which "top" then height / 2 + extend_by else height))
    255.
Proof.
  intros Ht. unfold half_vline. destruct (String.eqb which "top");
    now apply painted_draw_vline.
Qed.

(** A band of thickness [sz <= n] centred on the middle of [n] lies in
    [0 .. n]. *)
Lemma band_in_cell (n sz : Z) :
  0 < sz <= n -> 0 <= n / 2 - sz / 2 /\ n / 2 - sz / 2 + sz <= n.
Proof. intros H. div_lia. Qed.

Lemma rect_at_in_cell (width height x1 x2 y1 y2 i : Z) :
  (x1 < x2 -> 0 <= x1 /\ x2 <= width) ->
  (y1 < y2 -> 0 <= y1 /\ y2 <= height) ->
  rect_at width x1 x2 y1 y2 i = true -> 0 <= i < width * height.
Proof. intros Hx Hy (y & H1 & H2)%rect_at_spec. nia. Qed.

Lemma rect_at_pixel' (width x1 x2 y1 y2 c r : Z) :
  (x1 < x2 -> 0 <= x1 /\ x2 <= width) -> 0 <= c < width ->
  rect_at width x1 x2 y1 y2 (r * width + c) = in_rect x1 x2 y1 y2 c r.
Proof.
  intros Hx Hc. destruct (Z.lt_ge_cases x1 x2) as [H|H].
  - apply rect_at_pixel; lia.
  - rewrite rect_at_empty, in_rect_empty by lia. reflexivity.
Qed.

(** [cross] draws the union of its four arms: the left and right halves of
    the horizontal band (levels [a] and [b]) and the top and bottom halves of
    the vertical band (levels [c] and [d]), each centred on the middle of
    the cell; the arms meet at column [width // 2] and row [height // 2]. *)
Theorem cross_arms (g : globals) (width height a b c d sa sb sc sd : Z)
    (buf : BufType) :
  thickness g a false = Ok sa -> thickness g b false = Ok sb ->
  thickness g c true = Ok sc -> thickness g d true = Ok sd ->
  0 <= width -> 0 <= height -> Z.of_nat (length buf) = width * height ->
  sa <= height -> sb <= height -> sc <= width -> sd <= width ->
  exists buf',
    cross g width height a b c d buf = (buf', Ok tt) /\
    shape_painted buf buf' width height
      (fun x y =>
         in_rect 0 (width / 2)
           (height / 2 - sa / 2) (height / 2 - sa / 2 + sa) x y ||
         in_rect (width / 2) width
           (height / 2 - sb / 2) (height / 2 - sb / 2 + sb) x y ||
         in_rect (width / 2 - sc / 2) (width / 2 - sc / 2 + sc)
           0 (height / 2) x y ||
         in_rect (width / 2 - sd / 2) (width / 2 - sd / 2 + sd)
           (height / 2) height x y) 255.
Proof.
  intros Ha Hb Hc Hd Hw Hh L Ba Bb Bc Bd.
  pose proof (painted_half_hline g width height a sa "left" 0 Ha) as Pa.
  pose proof (painted_half_hline g width height b sb "right" 0 Hb) as Pb.
  pose proof (painted_half_vline g width height c sc "top" 0 Hc) as Pc.
  pose proof (painted_half_vline g width height d sd "bottom" 0 Hd) as Pd.
  cbn [String.eqb Ascii.eqb Bool.eqb] in Pa, Pb, Pc, Pd.
  rewrite Z.add_0_l in Pa. rewrite Z.sub_0_r in Pb. rewrite Z.add_0_r in Pc.
  rewrite Z.sub_0_r in Pd.
  pose proof (painted_seq _ _ _ _ _ Pa
                (painted_seq _ _ _ _ _ Pb (painted_seq _ _ _ _ _ Pc Pd))) as P.
  eapply paint_shape; [exact P | exact L | |]; cbn beta.
  - intros i H. repeat apply orb_true_iff in H as [H|H];
      apply rect_at_in_cell with (height := height) in H; try easy;
      intros; div_lia.
  - intros x y Hx Hy.
    rewrite !rect_at_pixel' by (try easy; intros; div_lia).
    now rewrite !orb_assoc.
Qed.

(** Two computations that paint the same positions end in the same buffer. *)
Lemma painted_unique (m m' : M unit) (S S' : Z -> bool) (v : Z)
    (buf : BufType) :
  painted m S v -> painted m' S' v -> (forall i, S i = S' i) ->
  (forall i, S i = true -> 0 <= i < Z.of_nat (length buf)) ->
  m buf = m' buf.
Proof.
  intros H H' E Hb.
  destruct (H buf Hb) as (b1 & E1 & L1 & P1).
  destruct (H' buf) as (b2 & E2 & L2 & P2).
  { intros i Hi. apply Hb. now rewrite E. }
  rewrite E1, E2. f_equal. apply list_eq. intros k.
  specialize (P1 (Z.of_nat k) ltac:(lia)). specialize (P2 (Z.of_nat k) ltac:(lia)).
  rewrite Nat2Z.id in P1, P2. now rewrite P1, P2, E.
Qed.

(** The two halves of [hline] join without a gap: [hline] draws what one
    [draw_hline] from column 0 to column [width] draws, for odd widths too;
    likewise [vline]. *)
Theorem hline_vline_full (g : globals) (width height level sz : Z)
    (buf : BufType) :
  thickness g level true = Ok sz ->
  0 <= width -> 0 <= height -> Z.of_nat (length buf) = width * height ->
  sz <= height -> sz <= width ->
  hline g width height level buf
  = draw_hline g width 0 width (height / 2) level buf /\
  vline g width height level buf
  = draw_vline g width 0 height (width / 2) level buf.
Proof.
  intros Ht Hw Hh L Bh Bw. split.
  - pose proof (painted_half_hline g width height level sz "left" 0 Ht) as Pa.
    pose proof (painted_half_hline g width height level sz "right" 0 Ht) as Pb.
    cbn [String.eqb Ascii.eqb Bool.eqb] in Pa, Pb.
    rewrite Z.add_0_l in Pa. rewrite Z.sub_0_r in Pb.
    apply (painted_unique _ _ _ _ 255 buf (painted_seq _ _ _ _ _ Pa Pb)
             (painted_draw_hline g width 0 width (height / 2) level sz Ht));
      cbn beta.
    + intros i. apply eq_true_iff_eq.
      rewrite orb_true_iff, !rect_at_spec. split.
      * intros [(y & Hy & Hi)|(y & Hy & Hi)]; exists y; div_lia.
      * intros (y & Hy & Hi).
        destruct (Z.lt_ge_cases i (y * width + width / 2));
          [left|right]; exists y; lia.
    + intros i H. rewrite L. apply orb_true_iff in H as [H|H];
        apply rect_at_in_cell with (height := height) in H; try easy;
        intros; div_lia.
  - pose proof (painted_half_vline g width height level sz "top" 0 Ht) as Pa.
    pose proof (painted_half_vline g width height level sz "bottom" 0 Ht)
      as Pb.
    cbn [String.eqb Ascii.eqb Bool.eqb] in Pa, Pb.
    rewrite Z.add_0_r in Pa. rewrite Z.sub_0_r in Pb.
    apply (painted_unique _ _ _ _ 255 buf (painted_seq _ _ _ _ _ Pa Pb)
             (painted_draw_vline g width 0 height (width / 2) level sz Ht));
      cbn beta.
    + intros i. apply eq_true_iff_eq.
      rewrite orb_true_iff, !rect_at_spec. split.
      * intros [(y & Hy & Hi)|(y & Hy & Hi)]; exists y; div_lia.
      * intros (y & Hy & Hi).
        destruct (Z.lt_ge_cases y (height / 2)); [left|right]; exists y; lia.
    + intros i H. rewrite L. apply orb_true_iff in H as [H|H];
        apply rect_at_in_cell with (height := height) in H; try easy;
        intros; div_lia.
Qed.

(** ** The missing glyph *)

(** With a thickness of one pixel at level 0 (the scale table of the module
    at any dpi up to 72000), [render_missing_glyph] draws the outline, one
    pixel wide, of the rectangle with corners [(2, 2)] and
    [(width - 2, height - 2)]: two rows and two columns are left free at the
    top and at the left, one at the bottom and at the right. *)
Theorem render_missing_glyph_outline (g : globals) (width height : Z)
    (buf : BufType) :
  thickness g 0 true = Ok 1 ->
  3 <= width -> 3 <= height -> Z.of_nat (length buf) = width * height ->
  exists buf',
    render_missing_glyph g width height buf = (buf', Ok tt) /\
    shape_painted buf buf' width height
      (fun c r =>
         ((r =? 2) || (r =? height - 2)) && between 2 (width - 1) c ||
         ((c =? 2) || (c =? width - 2)) && between 2 (height - 1) r) 255.
Proof.
  intros Ht Hw Hh L.
  assert (Ht' : thickness g 0 false = Ok 1) by exact Ht.
  pose proof (painted_draw_hline g width 2 (width - 2 + 1) 2 0 1 Ht') as P1.
  pose proof (painted_draw_hline g width 2 (width - 2 + 1) (height - 2) 0 1 Ht')
    as P2.
  pose proof (painted_draw_vline g width 2 (height - 2 + 1) 2 0 1 Ht) as P3.
  pose proof (painted_draw_vline g width 2 (height - 2 + 1) (width - 2) 0 1 Ht)
    as P4.
  change (1 / 2) with 0 in P1, P2, P3, P4.
  pose proof (painted_seq _ _ _ _ _ P1
                (painted_seq _ _ _ _ _ P2 (painted_seq _ _ _ _ _ P3 P4))) as P.
  unfold render_missing_glyph. unfold bind at 1 2. unfold lift.
  rewrite Ht, Ht'. cbn [rbind]. change (1 + 1) with 2.
  eapply paint_shape; [exact P | exact L | |]; cbn beta.
  - intros i H.
    apply orb_true_iff in H as [H|H];
      [|apply orb_true_iff in H as [H|H];
        [|apply orb_true_iff in H as [H|H]]];
      apply rect_at_in_cell with (height := height) in H; try easy;
      intros; lia.
  - intros c r Hc Hr. rewrite !rect_at_pixel' by (try easy; intros; lia).
    apply eq_true_iff_eq. unfold in_rect.
    rewrite !orb_true_iff, !andb_true_iff, !orb_true_iff, !between_spec,
      !Z.eqb_eq. lia.
Qed.

(** ** Double lines *)

(** [returns m S v a]: as [painted m S v], for a computation that returns
    the value [a]. *)
Definition returns {A} (m : M A) (S : Z -> bool) (v : Z) (a : A) : Prop :=
  forall buf : BufType,
    (forall i, S i = true -> 0 <= i < Z.of_nat (length buf)) ->
    exists buf' : BufType,
      m buf = (buf', Ok a) /\ length buf' = length buf /\
      forall i, 0 <= i ->
        buf' !! Z.to_nat i = if S i then Some v else buf !! Z.to_nat i.

Lemma returns_ret {A} (m : M unit) (S : Z -> bool) (v : Z) (a : A) :
  painted m S v -> returns (m ;; ret a) S v a.
Proof.
  intros H buf Hb. destruct (H buf Hb) as (buf' & E & R).
  exists buf'. unfold bind. now rewrite E.
Qed.

Lemma returns_bind {A B} (m : M A) (k : A -> M B) (S1 S2 : Z -> bool)
    (v : Z) (a : A) (b : B) :
  returns m S1 v a -> returns (k a) S2 v b ->
  returns (bind m k) (fun i => S1 i || S2 i) v b.
Proof.
  intros H1 H2 buf Hb.
  destruct (H1 buf) as (buf1 & E1 & L1 & P1).
  { intros i Hi. apply Hb. now rewrite Hi. }
  destruct (H2 buf1) as (buf2 & E2 & L2 & P2).
  { intros i Hi. rewrite L1. apply Hb. rewrite Hi. apply orb_true_r. }
  exists buf2. unfold bind. rewrite E1, E2. repeat split; [congruence|].
  intros i Hi. rewrite P2, P1 by easy. now destruct (S1 i), (S2 i).
Qed.

Lemma returns_ext {A} (m : M A) (S S' : Z -> bool) (v : Z) (a : A) :
  (forall i, S i = S' i) -> returns m S v a -> returns m S' v a.
Proof.
  intros E H buf Hb.
  destruct (H buf) as (buf' & ? & ? & Hp).
  - intros i Hi. apply Hb. now rewrite <- E.
  - exists buf'. repeat split; try easy. intros i Hi. rewrite <- E. now apply Hp.
Qed.

Lemma painted_when (b : bool) (m : M unit) (S : Z -> bool) (v : Z) :
  painted m S v ->
  painted (if b then m else ret tt) (fun i => b && S i) v.
Proof.
  intros H. destruct b; [exact H | apply painted_ret].
Qed.

Lemma returns_half_dhline (g : globals) (width height level sz gap : Z)
    (which : string) (only : option string) :
  thickness g level false = Ok sz -> thickness g (level + 1) false = Ok gap ->
  let x1 := if String.eqb which "left" then 0 else width / 2 in
  let x2 := if String.eqb which "left" then width / 2 else width in
  returns (half_dhline g width height level which only)
    (fun i =>
       negb (opt_str_eq only "bottom") &&
         rect_at width x1 x2 (height / 2 - gap - sz / 2)
           (height / 2 - gap - sz / 2 + sz) i ||
       negb (opt_str_eq only "top") &&
         rect_at width x1 x2 (height / 2 + gap - sz / 2)
           (height / 2 + gap - sz / 2 + sz) i)
    255 (height / 2 - gap, height / 2 + gap).
Proof.
  intros Ht Hg x1 x2. unfold half_dhline.
  replace (if String.eqb which "left" then (0, width / 2)
           else (width / 2, width)) with (x1, x2)
    by (subst x1 x2; now destruct (String.eqb which "left")).
  unfold bind at 1. unfold lift. rewrite Hg.
  pose proof (painted_when (negb (opt_str_eq only "bottom")) _ _ _
                (painted_draw_hline g width x1 x2 (height / 2 - gap) level sz
                   Ht)) as P1.
  pose proof (painted_when (negb (opt_str_eq only "top")) _ _ _
                (painted_draw_hline g width x1 x2 (height / 2 + gap) level sz
                   Ht)) as P2.
  set (m1 := if negb (opt_str_eq only "bottom")
             then draw_hline g width x1 x2 (height / 2 - gap) level
             else ret tt) in *.
  set (m2 := if negb (opt_str_eq only "top")
             then draw_hline g width x1 x2 (height / 2 + gap) level
             else ret tt) in *.
  intros buf Hb.
  destruct (painted_seq _ _ _ _ _ P1 P2 buf Hb) as (buf' & E & R).
  exists buf'. split; [|exact R]. revert E. unfold bind.
  destruct (m1 buf) as [b1 [[]|e1]]; [|discriminate].
  destruct (m2 b1) as [b2 [[]|e2]]; [|discriminate].
  now intros [= ->].
Qed.

(** [dhline] draws two lines over the whole width, their centres
    [thickness(level + 1)] above and below the middle row, and returns the
    two centre rows; [only] keeps one of the two lines.  (Its second call
    passes [which='bottom'], which [half_dhline] reads as the right half.) *)
Theorem dhline_double_line (g : globals) (width height level sz gap : Z)
    (only : option string) (buf : BufType) :
  thickness g level false = Ok sz -> thickness g (level + 1) false = Ok gap ->
  0 <= width -> Z.of_nat (length buf) = width * height ->
  0 <= height / 2 - gap - sz / 2 ->
  height / 2 + gap - sz / 2 + sz <= height ->
  0 <= gap ->
  exists buf',
    dhline g width height only level buf
    = (buf', Ok (height / 2 - gap, height / 2 + gap)) /\
    shape_painted buf buf' width height
      (fun c r =>
         negb (opt_str_eq only "bottom") &&
           between (height / 2 - gap - sz / 2)
             (height / 2 - gap - sz / 2 + sz) r ||
         negb (opt_str_eq only "top") &&
           between (height / 2 + gap - sz / 2)
             (height / 2 + gap - sz / 2 + sz) r) 255.
Proof.
  intros Ht Hg Hw L B1 B2 B3.
  pose proof (returns_half_dhline g width height level sz gap "left" only
                Ht Hg) as R1.
  pose proof (returns_half_dhline g width height level sz gap "bottom" only
                Ht Hg) as R2.
  cbv zeta in R1, R2. cbn [String.eqb Ascii.eqb Bool.eqb] in R1, R2.
  pose proof (returns_bind _
                (fun _ => half_dhline g width height level "bottom" only)
                _ _ _ _ _ R1 R2) as R.
  cbv beta in R.
  destruct (R buf) as (buf' & E & L' & P); cbn beta.
  { intros i H. rewrite L.
    repeat (apply orb_true_iff in H as [H|H]);
      apply andb_true_iff in H as [_ H];
      apply rect_at_in_cell with (height := height) in H; try easy;
      intros; div_lia. }
  exists buf'. split; [exact E|]. split; [exact L'|].
  intros c r Hc Hr. unfold pixel. rewrite P by nia.
  match goal with
  | |- (if ?a then _ else _) = (if ?b then _ else _) =>
      replace a with b; [reflexivity|symmetry]
  end.
  rewrite !rect_at_pixel' by (try easy; intros; div_lia).
  apply eq_true_iff_eq. unfold in_rect.
  rewrite !orb_true_iff, !andb_true_iff, !between_spec. 
  assert (0 <= c < width / 2 \/ width / 2 <= c < width) by div_lia.
  tauto.
Qed.

(** ** Lines and curves *)

(** A curve of [cubic_bezier] starts at [start], ends at [end] and is at
    [(p0 + 3 p1 + 3 p2 + p3) / 8] half way, in each coordinate; the
    arithmetic of these three values is exact in binary64. *)
Theorem cubic_bezier_endpoints (start end_ c1 c2 : Z * Z) :
  let '(bezier_x, bezier_y) := cubic_bezier start end_ c1 c2 in
  bezier_x 0%Qc = float_of_int (fst start) /\
  bezier_y 0%Qc = float_of_int (snd start) /\
  bezier_x 1%Qc = float_of_int (fst end_) /\
  bezier_y 1%Qc = float_of_int (snd end_) /\
  bezier_x (lit 1 2)
  = (float_of_int (fst start + 3 * fst c1 + 3 * fst c2 + fst end_)
     * lit 1 8)%Qc /\
  bezier_y (lit 1 2)
  = (float_of_int (snd start + 3 * snd c1 + 3 * snd c2 + snd end_)
     * lit 1 8)%Qc.
Proof.
  unfold cubic_bezier, bezier_eq. cbv zeta.
  assert (Hm : forall p0 p1 p2 p3 : Z,
    float_of_int (p0 + 3 * p1 + 3 * p2 + p3)
    = (float_of_int p0 + float_of_int 3 * float_of_int p1
       + float_of_int 3 * float_of_int p2 + float_of_int p3)%Qc).
  { intros. apply Qc_is_canon.
    rewrite !Qc_add, !Qc_mul, !Qc_of_int.
    unfold Qeq, Qplus, Qmult, inject_Z. cbn. lia. }
  rewrite !Hm.
  assert (H8 : (lit 1 8 = lit 1 2 * lit 1 2 * lit 1 2)%Qc)
    by (apply Qc_is_canon; reflexivity).
  assert (H1 : (1 - lit 1 2 = lit 1 2)%Qc) by (apply Qc_is_canon; reflexivity).
  rewrite H8, H1.
  generalize (float_of_int 3) (lit 1 2).
  generalize (float_of_int (fst start)) (float_of_int (snd start))
    (float_of_int (fst end_)) (float_of_int (snd end_))
    (float_of_int (fst c1)) (float_of_int (snd c1))
    (float_of_int (fst c2)) (float_of_int (snd c2)).
  unfold float. intros sx sy ex ey c1x c1y c2x c2y three half.
  repeat split; ring.
Qed.

Lemma line_equation_vertical (x1 y1 x2 y2 : Z) :
  match line_equation x1 y1 x2 y2 with
  | Ok _ => x1 <> x2
  | Raise e => x1 = x2 /\ e = ZeroDivisionError
  end.
Proof.
  unfold line_equation, truediv.
  destruct (Z.eqb_spec (x2 - x1) 0); cbn [rbind]; [split|]; first [lia|easy].
Qed.

(** The positions that the loops of [thick_line] and of
    [draw_parametrized_curve] reach: a run of rows [lo x <= y < hi x] in each
    column [a <= x < b], clipped to the cell. *)
Definition clipped_runs (width height a b : Z) (lo hi : Z -> Z) (i : Z)
    : bool :=
  existsb (fun x =>
    ((0 <=? x) && (x <? width)) &&
    existsb (fun y => ((0 <=? y) && (y <? height)) && (x + y * width =? i))
      (range (lo x) (hi x))) (range a b).

Lemma clipped_runs_spec (width height a b : Z) (lo hi : Z -> Z) (i : Z) :
  clipped_runs width height a b lo hi i = true <->
  exists x y, a <= x < b /\ 0 <= x < width /\ lo x <= y < hi x /\
              0 <= y < height /\ i = x + y * width.
Proof.
  unfold clipped_runs. rewrite existsb_range. split.
  - intros (x & Hx & H). apply andb_true_iff in H as [Hc H].
    apply existsb_range in H as (y & Hy & H).
    apply andb_true_iff in H as [Hr H]. apply Z.eqb_eq in H.
    exists x, y. lia.
  - intros (x & y & Hx & Hc & Hy & Hr & ->). exists x. split; [easy|].
    apply andb_true_iff. split; [lia|]. apply existsb_range. exists y.
    split; [easy|]. apply andb_true_iff. split; [lia|]. apply Z.eqb_refl.
Qed.

Lemma painted_clipped_runs (width height a b : Z) (lo hi : Z -> Z) :
  painted
    (for_each (range a b) (fun x =>
       if (0 <=? x) && (x <? width) then
         for_each (range (lo x) (hi x)) (fun y =>
           if (0 <=? y) && (y <? height) then setitem (x + y * width) 255
           else ret tt)
       else ret tt))
    (clipped_runs width height a b lo hi) 255.
Proof.
  apply painted_for_each. intros x _. apply painted_when.
  apply painted_for_each. intros y _. apply painted_when.
  apply painted_setitem.
Qed.

(** The pixels of [thick_line], with the line of the model. *)
Lemma thick_line_pixels (width height thickness_in_pixels : Z)
    (p1 p2 : Z * Z) (buf : BufType) :
  0 <= width -> 0 <= height -> Z.of_nat (length buf) = width * height ->
  let a := if fst p2 <? fst p1 then p2 else p1 in
  let b := if fst p2 <? fst p1 then p1 else p2 in
  match line_equation (fst a) (snd a) (fst b) (snd b) with
  | Raise e =>
      fst p1 = fst p2 /\
      thick_line width height thickness_in_pixels p1 p2 buf
      = (buf, Raise ZeroDivisionError)
  | Ok leq =>
      fst p1 <> fst p2 /\
      exists buf',
        thick_line width height thickness_in_pixels p1 p2 buf
        = (buf', Ok tt) /\
        shape_painted buf buf' width height
          (fun c r =>
             between (fst a) (fst b + 1) c &&
             between (int_of_float (leq c) - thickness_in_pixels / 2)
               (int_of_float (leq c) + thickness_in_pixels / 2
                + thickness_in_pixels mod 2) r) 255
  end.
Proof.
  intros Hw Hh L a b. unfold thick_line.
  replace (if fst p2 <? fst p1 then (p2, p1) else (p1, p2)) with (a, b)
    by (subst a b; now destruct (fst p2 <? fst p1)).
  pose proof (line_equation_vertical (fst a) (snd a) (fst b) (snd b)) as Hl.
  assert (Hab : fst a = fst b <-> fst p1 = fst p2).
  { subst a b. destruct (Z.ltb_spec (fst p2) (fst p1)); lia. }
  unfold bind at 1. unfold lift.
  destruct (line_equation (fst a) (snd a) (fst b) (snd b)) as [leq|e].
  - split; [lia|]. cbv zeta.
    eapply paint_shape; [apply painted_clipped_runs | exact L | |].
    + intros i (x & y & _ & Hx & _ & Hy & ->)%clipped_runs_spec. nia.
    + intros c r Hc Hr. apply eq_true_iff_eq.
      rewrite clipped_runs_spec, andb_true_iff, !between_spec. split.
      * intros (x & y & Hx & Hx' & Hy & Hy' & E).
        assert (y = r) by nia. assert (x = c) by nia. subst. easy.
      * intros [H1 H2]. exists c, r. lia.
  - destruct Hl as [Hl ->]. split; [lia|reflexivity].
Qed.

Lemma int_of_float_of_int (z : Z) : int_of_float (float_of_int z) = z.
Proof.
  assert (E : (this (float_of_int z) == inject_Z z)%Q) by apply Qc_of_int.
  unfold int_of_float. destruct (fle _ _).
  - rewrite (Qfloor_comp _ _ E). apply Qfloor_Z.
  - rewrite (Qceiling_comp _ _ E). apply Qceiling_Z.
Qed.

Lemma line_equation_horizontal (x1 x2 y : Z) (leq : Z -> float) :
  line_equation x1 y x2 y = Ok leq -> forall x, leq x = float_of_int y.
Proof.
  unfold line_equation, truediv. rewrite Z.sub_diag.
  destruct (x2 - x1 =? 0); cbn [rbind]; [discriminate|].
  intros [= <-] x.
  change (float_of_int 0) with 0%Qc. unfold Qcdiv. rewrite Qcmult_0_l.
  generalize (float_of_int x) (float_of_int x1) (float_of_int y).
  unfold float. intros. ring.
Qed.

(** [thick_line] draws, in each column between the two end points (in
    either order), one run of [thickness_in_pixels] rows and nothing else,
    [row c - thickness_in_pixels // 2] being the first row of column [c];
    what falls outside the cell is dropped.  For a horizontal line [row] is
    the row of the end points.  A vertical line raises [ZeroDivisionError]
    before anything is drawn. *)
Theorem thick_line_columns (width height thickness_in_pixels : Z)
    (p1 p2 : Z * Z) (buf : BufType) :
  0 <= width -> 0 <= height -> Z.of_nat (length buf) = width * height ->
  if fst p1 =? fst p2 then
    thick_line width height thickness_in_pixels p1 p2 buf
    = (buf, Raise ZeroDivisionError)
  else
    exists (row : Z -> Z) (buf' : BufType),
      thick_line width height thickness_in_pixels p1 p2 buf = (buf', Ok tt) /\
      shape_painted buf buf' width height
        (fun c r =>
           between (Z.min (fst p1) (fst p2)) (Z.max (fst p1) (fst p2) + 1) c &&
           between (row c - thickness_in_pixels / 2)
             (row c + thickness_in_pixels / 2 + thickness_in_pixels mod 2) r)
        255 /\
      (snd p1 = snd p2 -> forall c, row c = snd p1).
Proof.
  intros Hw Hh L.
  pose proof (thick_line_pixels width height thickness_in_pixels p1 p2 buf
                Hw Hh L) as T. cbv zeta in T.
  assert (Ea : fst (if fst p2 <? fst p1 then p2 else p1)
               = Z.min (fst p1) (fst p2))
    by (destruct (Z.ltb_spec (fst p2) (fst p1)); lia).
  assert (Eb : fst (if fst p2 <? fst p1 then p1 else p2)
               = Z.max (fst p1) (fst p2))
    by (destruct (Z.ltb_spec (fst p2) (fst p1)); lia).
  destruct (line_equation _ _ _ _) as [leq|e] eqn:El.
  - destruct T as (Hne & buf' & E & P).
    destruct (Z.eqb_spec (fst p1) (fst p2)) as [|_]; [easy|].
    exists (fun c => int_of_float (leq c)), buf'.
    split; [exact E|]. split.
    + now rewrite <- Ea, <- Eb.
    + intros Hy c.
      assert (Es : snd (if fst p2 <? fst p1 then p1 else p2)
                   = snd (if fst p2 <? fst p1 then p2 else p1))
        by (destruct (fst p2 <? fst p1); lia).
      rewrite Es in El.
      rewrite (line_equation_horizontal _ _ _ _ El c), int_of_float_of_int.
      destruct (fst p2 <? fst p1); lia.
  - destruct T as [Hv T].
    destruct (Z.eqb_spec (fst p1) (fst p2)) as [_|]; [exact T|easy].
Qed.

(** ** Filling between limits *)

Lemma range_lookup (a b : Z) (k : nat) :
  range a b !! k = if decide (Z.of_nat k < b - a) then Some (a + Z.of_nat k)
                   else None.
Proof.
  unfold range. rewrite list_lookup_fmap.
  destruct (decide (Z.of_nat k < b - a)) as [H|H].
  - rewrite lookup_seq_lt by lia. reflexivity.
  - rewrite lookup_seq_ge by lia. reflexivity.
Qed.

Lemma enumerate_lookup {A} (l : list A) (k : nat) :
  enumerate l !! k = (fun a => (Z.of_nat k, a)) <$> l !! k.
Proof.
  unfold enumerate. rewrite lookup_zip_with, range_lookup.
  destruct (l !! k) as [a|] eqn:E.
  - apply lookup_lt_Some in E. rewrite decide_True by lia. reflexivity.
  - now destruct (decide _).
Qed.

Lemma in_enumerate {A} (l : list A) (x : Z) (a : A) :
  In (x, a) (enumerate l) <-> 0 <= x /\ l !! Z.to_nat x = Some a.
Proof.
  rewrite <- list_elem_of_In, list_elem_of_lookup. split.
  - intros (k & E). rewrite enumerate_lookup in E.
    destruct (l !! k) as [a'|] eqn:El; [|discriminate].
    injection E as <- <-. rewrite Nat2Z.id. split; [lia|easy].
  - intros [Hx E]. exists (Z.to_nat x). rewrite enumerate_lookup, E. cbn.
    f_equal. f_equal. lia.
Qed.

Lemma NoDup_enumerate {A} (l : list A) : NoDup (enumerate l).
Proof.
  apply NoDup_alt. intros i j [x a] Ei Ej. rewrite enumerate_lookup in Ei, Ej.
  destruct (l !! i); [|discriminate]. destruct (l !! j); [|discriminate].
  cbn in Ei, Ej. injection Ei as E1 _. injection Ej as E2 _. lia.
Qed.

(** The value [fill_region] stores in column [c] of row [r]. *)
Definition region_value (xlimits : list (float * float)) (c r : Z)
    : option Z :=
  match xlimits !! Z.to_nat c with
  | Some (upper, lower) =>
      Some (if fle upper (float_of_int r) && fle (float_of_int r) lower
            then 255 else 0)
  | None => None
  end.

Lemma fill_region_updated (width height : Z) (xlimits : list (float * float)) :
  0 <= height -> Z.of_nat (length xlimits) <= width ->
  updated (fill_region width height xlimits)
    (fun i => between 0 (width * height) i &&
              (i mod width <? Z.of_nat (length xlimits)))
    (fun i _ => default 0 (region_value xlimits (i mod width) (i / width))).
Proof.
  intros Hh Hn. unfold fill_region.
  eapply updated_ext; cycle 1.
  - apply updated_for_each with
      (S := fun y i => between (y * width) (y * width + Z.of_nat (length xlimits)) i).
    + apply NoDup_range.
    + intros a a' i _ _ Hne E. apply between_spec in E.
      apply between_false. nia.
    + intros y Hy%in_range. eapply updated_ext; cycle 1.
      * apply updated_for_each with
          (S := fun (p : Z * (float * float)) i => i =? fst p + y * width).
        -- apply NoDup_enumerate.
        -- intros [x a] [x' a'] i Hin%in_enumerate Hin'%in_enumerate Hne
             E%Z.eqb_eq. apply Z.eqb_neq. cbn [fst] in *. intros E'.
           apply Hne. assert (x = x') by lia. subst x'. f_equal.
           destruct Hin as [_ H1], Hin' as [_ H2]. congruence.
        -- intros [x [upper lower]] [Hx El]%in_enumerate buf Hb.
           cbn [fst] in *.
           assert (Hi : 0 <= x + y * width < Z.of_nat (length buf))
             by (apply Hb, Z.eqb_refl).
           rewrite setitem_in_range by easy.
           eexists. split; [reflexivity|]. split; [apply length_insert|].
           intros i Hi'.
           destruct (Z.eqb_spec i (x + y * width)) as [->|Hne].
           ++ rewrite list_lookup_insert_eq by lia.
              rewrite byte_at_lookup by easy. cbn.
              apply lookup_lt_Some in El as Hlt.
              assert (E1 : (x + y * width) mod width = x)
                by (rewrite Z_mod_plus_full; apply Z.mod_small; lia).
              assert (E2 : (x + y * width) / width = y)
                by (rewrite Z_div_plus_full, Z.div_small by lia; lia).
              rewrite E1, E2. unfold region_value. now rewrite El.
           ++ apply list_lookup_insert_ne. lia.
      * intros i. cbn beta. apply eq_true_iff_eq.
        rewrite existsb_exists, between_spec. split.
        -- intros ([x a] & [Hx El]%in_enumerate & E%Z.eqb_eq).
           apply lookup_lt_Some in El. cbn [fst] in *. lia.
        -- intros Hi.
           destruct (lookup_lt_is_Some_2 xlimits (Z.to_nat (i - y * width)))
             as [a Ha]; [lia|].
           exists (i - y * width, a). split; [apply in_enumerate; split; [lia|easy]|].
           apply Z.eqb_eq. cbn [fst]. lia.
  - intros i. cbn beta. apply eq_true_iff_eq.
    rewrite existsb_range, andb_true_iff, between_spec, Z.ltb_lt. split.
    + intros (y & Hy & E%between_spec).
      assert (Hw : 0 < width) by lia.
      assert (E1 : i mod width = i - y * width).
      { symmetry. apply Z.mod_unique with (q := y); lia. }
      rewrite E1. nia.
    + intros [Hi Hm]. exists (i / width).
      assert (0 < width) by nia.
      pose proof (Z.div_mod i width ltac:(lia)).
      pose proof (Z.mod_pos_bound i width ltac:(lia)).
      split; [split; [apply Z.div_pos; lia | apply Z.div_lt_upper_bound; nia]|].
      apply between_spec. lia.
Qed.

(** [fill_region] rewrites the first [len(xlimits)] columns of every row:
    column [c] of row [r] becomes 255 when [upper <= r <= lower] for the
    limits of that column and 0 otherwise (it erases what was there); the
    other columns keep their content. *)
Theorem fill_region_columns (width height : Z)
    (xlimits : list (float * float)) (buf : BufType) :
  0 <= height -> Z.of_nat (length xlimits) <= width ->
  Z.of_nat (length buf) = width * height ->
  exists buf',
    fill_region width height xlimits buf = (buf', Ok tt) /\
    length buf' = length buf /\
    forall c r, 0 <= c < width -> 0 <= r < height ->
      pixel buf' width c r =
        match region_value xlimits c r with
        | Some v => Some v
        | None => pixel buf width c r
        end.
Proof.
  intros Hh Hn L.
  destruct (fill_region_updated width height xlimits Hh Hn buf)
    as (buf' & E & L' & P).
  { intros i [Hi _]%andb_true_iff. apply between_spec in Hi. lia. }
  exists buf'. split; [easy|]. split; [easy|]. intros c r Hc Hr.
  unfold pixel. rewrite P by nia.
  assert (E1 : (r * width + c) mod width = c)
    by (rewrite Z.add_comm, Z_mod_plus_full; apply Z.mod_small; lia).
  assert (E2 : (r * width + c) / width = r)
    by (rewrite Z.add_comm, Z_div_plus_full, Z.div_small by lia; lia).
  rewrite E1, E2.
  replace (between 0 (width * height) (r * width + c)) with true
    by (symmetry; apply between_spec; nia).
  cbn [andb]. unfold region_value.
  destruct (xlimits !! Z.to_nat c) as [[upper lower]|] eqn:El.
  - apply lookup_lt_Some in El as Hlt.
    replace (c <? Z.of_nat (length xlimits)) with true
      by (symmetry; apply Z.ltb_lt; lia).
    rewrite byte_at_lookup by nia. reflexivity.
  - apply lookup_ge_None in El.
    replace (c <? Z.of_nat (length xlimits)) with false
      by (symmetry; apply Z.ltb_ge; lia).
    reflexivity.
Qed.

(** ** Shades *)

(** A loop whose [break] is never taken. *)
Lemma painted_for_break {A} (l : list A) (body : A -> M bool)
    (step : A -> M unit) (S : A -> Z -> bool) (v : Z) :
  (forall a buf, In a l -> body a buf = (step a ;; ret false) buf) ->
  (forall a, In a l -> painted (step a) (S a) v) ->
  painted (for_break l body) (fun i => existsb (fun a => S a i) l) v.
Proof.
  induction l as [|a l IH]; intros Hb Hs.
  - apply painted_ret.
  - cbn [for_break existsb].
    apply painted_m_ext with (m := (step a ;; for_break l body)).
    + intros buf. unfold bind. rewrite Hb by now left.
      unfold bind, ret. destruct (step a buf) as [b [[]|e]]; reflexivity.
    + apply painted_seq.
      * apply Hs. now left.
      * apply IH; intros; [apply Hb | apply Hs]; now right.
Qed.

(** The pattern of [shade]: squares of side [max(1, width // 12)]; only the
    even rows of squares are used, and in them every second square (every
    fourth for the light shade), shifted in every other used row. *)
Definition shade_pattern (width height : Z) (light : bool) (x y : Z) : bool :=
  let square_sz := Z.max 1 (width / 12) in
  let r := y / square_sz in
  let c := x / square_sz in
  (r <? height / square_sz) && (c <? width / square_sz) &&
  (r mod 2 =? 0) &&
  (if light then c mod 4 =? (if r mod 4 =? 0 then 0 else 2)
   else Bool.eqb (c mod 2 =? 0) (r mod 4 =? 0)).

(** The positions [shade_squares] stores at. *)
Definition shade_at (width height : Z) (light : bool) (i : Z) : bool :=
  let square_sz := Z.max 1 (width / 12) in
  existsb (fun r =>
    negb (negb (r mod 2 =? 0)) &&
    existsb (fun yr =>
      existsb (fun c =>
        (if light then c mod 4 =? (if r mod 4 =? 0 then 0 else 2)
         else Bool.eqb (c mod 2 =? 0) (r mod 4 =? 0)) &&
        existsb (fun xc =>
          width * (r * square_sz + yr) + (c * square_sz + xc) =? i)
          (range 0 square_sz))
        (range 0 (width / square_sz)))
      (range 0 square_sz))
    (range 0 (height / square_sz)).

Lemma painted_unless (b : bool) (m : M unit) (S : Z -> bool) (v : Z) :
  painted m S v ->
  painted (if b then ret tt else m) (fun i => negb b && S i) v.
Proof.
  intros H. destruct b; [apply painted_ret | exact H].
Qed.

Lemma painted_shade_squares (width height : Z) (light : bool) :
  0 <= width -> 0 <= height ->
  painted (shade_squares width height light) (shade_at width height light) 255.
Proof.
  intros Hw Hh. unfold shade_squares, shade_at. cbv zeta.
  set (sq := Z.max 1 (width / 12)).
  assert (Hsq : 1 <= sq) by apply Z.le_max_l.
  apply painted_for_each. intros r Hr%in_range. apply painted_unless.
  apply painted_for_break with
    (step := fun yr =>
       for_each (range 0 (width / sq)) (fun c =>
         if (if light then c mod 4 =? (if r mod 4 =? 0 then 0 else 2)
             else Bool.eqb (c mod 2 =? 0) (r mod 4 =? 0))
         then for_break (range 0 sq) (fun xc =>
                if width <=? c * sq + xc then ret true
                else setitem (width * (r * sq + yr) + (c * sq + xc)) 255 ;;
                     ret false)
         else ret tt)).
  - intros yr buf Hyr%in_range.
    assert (Hy : r * sq + yr < height).
    { pose proof (Z.mul_div_le height sq ltac:(lia)). nia. }
    destruct (Z.leb_spec height (r * sq + yr)); [lia|]. reflexivity.
  - intros yr Hyr%in_range. apply painted_for_each. intros c Hc%in_range.
    apply painted_when.
    apply painted_for_break with
      (step := fun xc =>
         setitem (width * (r * sq + yr) + (c * sq + xc)) 255).
    + intros xc buf Hxc%in_range.
      assert (Hx : c * sq + xc < width).
      { pose proof (Z.mul_div_le width sq ltac:(lia)). nia. }
      destruct (Z.leb_spec width (c * sq + xc)); [lia|]. reflexivity.
    + intros xc _. apply painted_setitem.
Qed.

Lemma shade_at_spec (width height : Z) (light : bool) (i : Z) :
  shade_at width height light i = true <->
  let sq := Z.max 1 (width / 12) in
  exists r yr c xc,
    0 <= r < height / sq /\ 0 <= yr < sq /\ 0 <= c < width / sq /\
    0 <= xc < sq /\ r mod 2 = 0 /\
    (if light then c mod 4 =? (if r mod 4 =? 0 then 0 else 2)
     else Bool.eqb (c mod 2 =? 0) (r mod 4 =? 0)) = true /\
    i = width * (r * sq + yr) + (c * sq + xc).
Proof.
  unfold shade_at. cbv zeta. set (sq := Z.max 1 (width / 12)).
  rewrite existsb_range. split.
  - intros (r & Hr & H). apply andb_true_iff in H as [He H].
    rewrite negb_involutive in He. apply Z.eqb_eq in He.
    apply existsb_range in H as (yr & Hyr & H).
    apply existsb_range in H as (c & Hc & H).
    apply andb_true_iff in H as [Hf H].
    apply existsb_range in H as (xc & Hxc & H%Z.eqb_eq).
    exists r, yr, c, xc. easy.
  - intros (r & yr & c & xc & Hr & Hyr & Hc & Hxc & He & Hf & ->).
    exists r. split; [easy|]. apply andb_true_iff. split.
    { rewrite negb_involutive. now apply Z.eqb_eq. }
    apply existsb_range. exists yr. split; [easy|].
    apply existsb_range. exists c. split; [easy|].
    apply andb_true_iff. split; [easy|].
    apply existsb_range. exists xc. split; [easy|]. apply Z.eqb_refl.
Qed.

Lemma shade_at_bounds (width height : Z) (light : bool) (i : Z) :
  0 <= width -> 0 <= height ->
  shade_at width height light i = true -> 0 <= i < width * height.
Proof.
  intros Hw Hh H. apply shade_at_spec in H. cbv zeta in H.
  set (sq := Z.max 1 (width / 12)) in *.
  assert (Hsq : 1 <= sq) by apply Z.le_max_l.
  destruct H as (r & yr & c & xc & Hr & Hyr & Hc & Hxc & _ & _ & ->).
  pose proof (Z.mul_div_le height sq ltac:(lia)).
  pose proof (Z.mul_div_le width sq ltac:(lia)).
  assert (0 <= r * sq + yr < height) by nia.
  assert (0 <= c * sq + xc < width) by nia. nia.
Qed.

Lemma shade_at_pixel (width height : Z) (light : bool) (x y : Z) :
  0 <= x < width -> 0 <= y < height ->
  shade_at width height light (y * width + x)
  = shade_pattern width height light x y.
Proof.
  intros Hx Hy. apply eq_true_iff_eq. rewrite shade_at_spec.
  unfold shade_pattern. cbv zeta. set (sq := Z.max 1 (width / 12)).
  assert (Hsq : 1 <= sq) by apply Z.le_max_l.
  pose proof (Z.mul_div_le height sq ltac:(lia)) as Dh.
  pose proof (Z.mul_div_le width sq ltac:(lia)) as Dw.
  rewrite !andb_true_iff, !Z.ltb_lt, Z.eqb_eq. split.
  - intros (r & yr & c & xc & Hr & Hyr & Hc & Hxc & He & Hf & E).
    assert (Hx' : 0 <= c * sq + xc < width) by nia.
    assert (Ey : r * sq + yr = y) by nia.
    assert (Ex : c * sq + xc = x) by nia.
    assert (Er : y / sq = r) by (symmetry; apply Z.div_unique with yr; lia).
    assert (Ec : x / sq = c) by (symmetry; apply Z.div_unique with xc; lia).
    rewrite Er, Ec. easy.
  - intros [[[Hr Hc] He] Hf].
    exists (y / sq), (y mod sq), (x / sq), (x mod sq).
    pose proof (Z.div_mod y sq ltac:(lia)).
    pose proof (Z.div_mod x sq ltac:(lia)).
    pose proof (Z.mod_pos_bound y sq ltac:(lia)).
    pose proof (Z.mod_pos_bound x sq ltac:(lia)).
    pose proof (Z.div_pos y sq ltac:(lia) ltac:(lia)).
    pose proof (Z.div_pos x sq ltac:(lia) ltac:(lia)).
    repeat split; try easy; try lia; nia.
Qed.

(** [shade] without [invert] sets the pixels of its pattern to 255 and
    touches no other pixel; squares that do not fit entirely into the cell
    are left out, so the two [break]s of the source are never taken. *)
Theorem shade_draws_pattern (width height : Z) (light : bool)
    (buf : BufType) :
  0 <= width -> 0 <= height -> Z.of_nat (length buf) = width * height ->
  exists buf',
    shade width height light false buf = (buf', Ok tt) /\
    shape_painted buf buf' width height
      (shade_pattern width height light) 255.
Proof.
  intros Hw Hh L. unfold shade.
  apply (paint_shape _ (shade_at width height light)); try easy.
  - now apply painted_shade_squares.
  - intros i. now apply shade_at_bounds.
  - intros c r Hc Hr. now apply shade_at_pixel.
Qed.

(** The loop of [shade] that stores the inverse of [dest]. *)
Lemma invert_copy (dest buf : BufType) (width height : Z) :
  0 <= width -> 0 <= height ->
  Z.of_nat (length dest) = width * height ->
  Z.of_nat (length buf) = width * height ->
  exists buf',
    for_each (range 0 height) (fun y =>
      for_each (range 0 width) (fun x =>
        v <- lift (seq_get dest (width * y + x)) ;;
        setitem (width * y + x) (255 - v))) buf
    = (buf', Ok tt) /\
    length buf' = length buf /\
    forall i, 0 <= i < width * height ->
      buf' !! Z.to_nat i = Some (255 - byte_at dest i).
Proof.
  intros Hw Hh Ld Lb.
  assert (Hu : updated
            (for_each (range 0 height) (fun y =>
               for_each (range 0 width) (fun x =>
                 v <- lift (seq_get dest (width * y + x)) ;;
                 setitem (width * y + x) (255 - v))))
            (fun i => existsb (fun y =>
               existsb (fun x => i =? width * y + x) (range 0 width))
               (range 0 height))
            (fun i _ => 255 - byte_at dest i)).
  { apply updated_for_each.
    - apply NoDup_range.
    - intros a a' i Ha%in_range Ha'%in_range Hne
        (x & Hx%in_range & E%Z.eqb_eq)%existsb_exists.
      apply not_true_iff_false.
      intros (x' & Hx'%in_range & E'%Z.eqb_eq)%existsb_exists. nia.
    - intros y Hy%in_range. apply updated_for_each.
      + apply NoDup_range.
      + intros a a' i _ _ Hne E%Z.eqb_eq. apply Z.eqb_neq. lia.
      + intros x Hx%in_range b Hb.
        assert (Hi : 0 <= width * y + x < Z.of_nat (length b))
          by (apply Hb, Z.eqb_refl).
        unfold bind, lift. rewrite seq_get_byte_at by nia.
        rewrite setitem_in_range by easy.
        eexists. split; [reflexivity|]. split; [apply length_insert|].
        intros i Hi'.
        destruct (Z.eqb_spec i (width * y + x)) as [->|Hne].
        * rewrite list_lookup_insert_eq by lia.
          rewrite byte_at_lookup by easy. reflexivity.
        * apply list_lookup_insert_ne. lia. }
  destruct (Hu buf) as (buf' & E & L & P).
  { intros i (y & Hy & (x & Hx & Ei%Z.eqb_eq)%existsb_range)%existsb_range.
    nia. }
  exists buf'. split; [easy|]. split; [easy|]. intros i Hi.
  rewrite P by lia.
  replace (existsb _ (range 0 height)) with true.
  - rewrite byte_at_lookup by lia. reflexivity.
  - symmetry. apply existsb_range. exists (i / width).
    assert (0 < width) by nia.
    pose proof (Z.div_mod i width ltac:(lia)).
    pose proof (Z.mod_pos_bound i width ltac:(lia)).
    split; [split; [apply Z.div_pos; lia | apply Z.div_lt_upper_bound; nia]|].
    apply existsb_range. exists (i mod width). split; [lia|].
    apply Z.eqb_eq. lia.
Qed.

(** [shade] with [invert] overwrites the whole cell with the inverse of the
    pattern, whatever the buffer held: 0 on the pattern, 255 elsewhere. *)
Theorem shade_inverted (width height : Z) (light : bool) (buf : BufType) :
  0 <= width -> 0 <= height -> Z.of_nat (length buf) = width * height ->
  exists buf',
    shade width height light true buf = (buf', Ok tt) /\
    length buf' = length buf /\
    forall c r, 0 <= c < width -> 0 <= r < height ->
      pixel buf' width c r
      = Some (if shade_pattern width height light c r then 0 else 255).
Proof.
  intros Hw Hh L. unfold shade. rewrite bind_lift. unfold bytearray.
  destruct (Z.ltb_spec (width * height) 0) as [|_]; [nia|].
  fold (zeros (width * height)). rewrite bind_run_on.
  pose proof (length_zeros (width * height) ltac:(nia)) as L0.
  destruct (painted_shade_squares width height light Hw Hh
              (zeros (width * height))) as (dest & E & Ld & Pd).
  { intros i Hi. rewrite L0. now apply shade_at_bounds in Hi. }
  rewrite E. cbn [fst].
  destruct (invert_copy dest buf width height) as (buf' & E' & L' & P');
    try easy; [lia|].
  exists buf'. split; [exact E'|]. split; [exact L'|]. intros c r Hc Hr.
  unfold pixel. rewrite P' by nia. f_equal.
  unfold byte_at. rewrite Pd by nia. rewrite shade_at_pixel by easy.
  destruct (shade_pattern width height light c r); [reflexivity|].
  unfold zeros. rewrite lookup_replicate_2 by nia. reflexivity.
Qed.

(** ** The searches of [D] *)

Lemma find_bezier_for_D_closed (width height : Z) :
  find_bezier_for_D width height
  = Ok (if 0 <? width then 4 * (width - 1) / 3 else width - 1).
Proof.
  pose proof (find_bezier_for_D_terminates width height) as Ht.
  unfold find_bezier_for_D in *. cbv zeta in *. unfold while_true in *.
  set (body := fun '(cx, last_cx) =>
         let '(bezier_x, _) :=
           cubic_bezier (0, 0) (0, height - 1) (cx, snd (0, 0))
             (cx, snd (0, height - 1)) in
         if flt (float_of_int (width - 1)) (bezier_x (lit 1 2))
         then Ok (inr last_cx) else Ok (inl (cx + 1, cx))) in *.
  pose (Inv := fun s : Z * Z =>
          (fst s = width - 1 /\ snd s = width - 1) \/
          (snd s = fst s - 1 /\ 3 * snd s <= 4 * (width - 1) /\
           width - 1 <= snd s)).
  assert (Hstep : forall s s', Inv s -> body s = Ok (inl s') -> Inv s').
  { intros [cx last_cx] s' HI. unfold body. cbn [cubic_bezier fst snd].
    destruct (flt _ _) eqn:E; [discriminate|]. intros [= <-].
    apply flt_false in E. rewrite bezier_x_half, Qc_of_int in E.
    unfold Qle in E. cbn in E. right. cbn [fst snd].
    destruct HI as [[H1 H2]|(H1 & H2 & H3)]; cbn [fst snd] in *; lia. }
  destruct (iterate (find_bezier_for_D_fuel width) body (width - 1, width - 1))
    as [[s'|r]|e] eqn:Ei.
  - now destruct Ht.
  - assert (H0 : Inv (width - 1, width - 1)) by (left; easy).
    destruct (iterate_return Inv body Hstep _ _ _ H0 Ei)
      as ([cx last_cx] & HI & Eb).
    unfold body in Eb. cbn [cubic_bezier fst snd] in Eb.
    destruct (flt _ _) eqn:E; [|discriminate]. injection Eb as <-.
    apply flt_spec in E. rewrite bezier_x_half, Qc_of_int in E.
    unfold Qlt in E. cbn in E. f_equal.
    destruct HI as [[H1 H2]|(H1 & H2 & H3)]; cbn [fst snd] in *.
    + destruct (Z.ltb_spec 0 width); lia.
    + destruct (Z.ltb_spec 0 width); [|lia].
      apply Z.div_unique with (4 * (width - 1) - 3 * last_cx); lia.
  - pose proof (rsafe_iterate (P := fun _ => False)
                  (find_bezier_for_D_fuel width) body (width - 1, width - 1))
      as Hr.
    rewrite Ei in Hr. destruct Hr. intros [cx last_cx]. unfold body.
    cbn [cubic_bezier fst snd]. now destruct (flt _ _).
Qed.

(** [find_bezier_for_D] returns the largest control abscissa [cx] for which
    the curve stays within the width: at its middle the curve is at
    [0.75 * cx], so the result is [4 * (width - 1) // 3], whatever the
    height; for a width below 1 the first test ends the search. *)
Theorem find_bezier_for_D_value (width height : Z) :
  find_bezier_for_D width height
  = Ok (if 0 <? width then 4 * (width - 1) / 3 else width - 1).
Proof. apply find_bezier_for_D_closed. Qed.

Lemma iterate_raise {S R} (Inv : S -> Prop) (body : S -> result (S + R)) :
  (forall s s', Inv s -> body s = Ok (inl s') -> Inv s') ->
  forall fuel s e, Inv s -> iterate fuel body s = Raise e ->
    exists s0, Inv s0 /\ body s0 = Raise e.
Proof.
  intros Hstep. induction fuel as [p IH|p IH|]; intros s e Hs E;
    cbn [iterate] in E.
  - destruct (body s) as [[s1|r1]|e1] eqn:E1; try discriminate.
    + pose proof (Hstep s s1 Hs E1) as H1.
      destruct (iterate p body s1) as [[s2|r2]|e2] eqn:E2; try discriminate.
      * apply (IH s2 e); [|exact E].
        exact (iterate_inv Inv body Hstep p s1 s2 H1 E2).
      * injection E as <-. eauto.
    + injection E as <-. eauto.
  - destruct (iterate p body s) as [[s1|r1]|e1] eqn:E1; try discriminate.
    + apply (IH s1 e); [|exact E].
      exact (iterate_inv Inv body Hstep p s s1 Hs E1).
    + injection E as <-. eauto.
  - eauto.
Qed.

(** A loop that ends leaves through a [return] or a [raise] of its body,
    reached from a state of the invariant. *)
Lemma while_true_post {S R} (Inv : S -> Prop) (P : R -> Prop)
    (Q : exn -> Prop) (body : S -> result (S + R)) (fuel : positive) (s : S) :
  (forall s s', Inv s -> body s = Ok (inl s') -> Inv s') ->
  (forall s r, Inv s -> body s = Ok (inr r) -> P r) ->
  (forall s e, Inv s -> body s = Raise e -> Q e) ->
  Inv s -> while_true fuel body s <> Raise LoopBound ->
  match while_true fuel body s with Ok r => P r | Raise e => Q e end.
Proof.
  intros Hstep Hret Hraise Hs Ht. unfold while_true in *.
  destruct (iterate fuel body s) as [[s'|r]|e] eqn:Ei.
  - now destruct Ht.
  - destruct (iterate_return Inv body Hstep _ _ _ Hs Ei) as (s0 & H0 & Eb).
    eauto.
  - destruct (iterate_raise Inv body Hstep _ _ _ Hs Ei) as (s0 & H0 & Eb).
    eauto.
Qed.

Lemma fabs_spec (q : float) : (this (fabs q) == Qabs (this q))%Q.
Proof. apply Qred_correct. Qed.

(** The search [find_t_for_x] of [get_bezier_limits], started at a
    parameter [start_t >= 0] with the limit 0.5 of its caller: it ends, and
    either raises [ValueError] (the increment fell below 1e-6) or returns a
    parameter [t >= start_t] at which the curve is within 0.1 of [x], or at
    which the limit is reached ([t >= 0.5]); it never goes beyond the limit
    unless it started there. *)
Theorem find_t_for_x_result (bezier_x : BezierFunc) (x : Z)
    (start_t : float) :
  (0 <= this start_t)%Q ->
  match find_t_for_x bezier_x (lit 1 2) x start_t with
  | Ok t =>
      (this start_t <= this t)%Q /\
      (t = start_t \/ (this t <= 1 # 2)%Q) /\
      (flt (fabs (bezier_x t - float_of_int x)) (lit 1 10) = true \/
       (1 # 2 <= this t)%Q)
  | Raise e => e = ValueError
  end.
Proof.
  intros Hs.
  pose proof (find_t_for_x_terminates bezier_x x start_t Hs) as Ht.
  unfold find_t_for_x in *.
  destruct (flt (fabs (bezier_x start_t - float_of_int x)) (lit 1 10)) eqn:E0.
  { split; [apply Qle_refl|]. split; [now left|]. now left. }
  destruct (fle _ 0%Qc) eqn:E1.
  { apply fle_spec in E1. change (this 0%Qc) with 0%Q in E1.
    rewrite Qc_sub, Qc_lit in E1.
    split; [apply Qle_refl|]. split; [now left|]. right. lra. }
  apply fle_false in E1. change (this 0%Qc) with 0%Q in E1.
  rewrite Qc_sub, Qc_lit in E1. clear E0.
  apply while_true_post with
    (Inv := fun st : float * float =>
              find_t_inv st /\ (this start_t <= this (fst st))%Q);
    [| | | |exact Ht]; clear Ht.
  - intros [s inc] st' [HI Hle] Eb. split.
    + exact (proj1 (find_t_step bezier_x x (s, inc) st' HI Eb)).
    + destruct HI as (H1 & H2 & H3). cbn [fst snd] in *. cbv zeta in Eb.
      destruct (flt (fabs (bezier_x (s + inc)%Qc - float_of_int x))
                  (lit 1 10)); [discriminate|].
      destruct (flt (float_of_int x) _).
      * destruct (flt _ (lit 1 1000000)); [discriminate|].
        injection Eb as <-. exact Hle.
      * destruct (fle _ 0%Qc); [discriminate|]. injection Eb as <-.
        cbn [fst]. rewrite Qc_add. lra.
  - intros [s inc] t [(H1 & H2 & H3) Hle] Eb. cbn [fst snd] in *.
    cbv zeta in Eb.
    destruct (flt (fabs (bezier_x (s + inc)%Qc - float_of_int x)) (lit 1 10))
      eqn:Ef.
    + injection Eb as <-. rewrite Qc_add.
      split; [lra|]. split; [right; lra|]. now left.
    + destruct (flt (float_of_int x) _).
      * destruct (flt _ (lit 1 1000000)); discriminate.
      * destruct (fle _ 0%Qc) eqn:El; [|discriminate]. injection Eb as <-.
        apply fle_spec in El. change (this 0%Qc) with 0%Q in El.
        rewrite Qc_sub, Qc_lit, Qc_add in El. rewrite Qc_add.
        split; [lra|]. split; [right; lra|]. right. lra.
  - intros [s inc] e _ Eb. cbv zeta in Eb.
    destruct (flt (fabs (bezier_x (s + inc)%Qc - float_of_int x)) (lit 1 10));
      [discriminate|].
    destruct (flt (float_of_int x) _).
    + destruct (flt _ (lit 1 1000000)); [now injection Eb as <- | discriminate].
    + destruct (fle _ 0%Qc); discriminate.
  - split; [|apply Qle_refl]. unfold find_t_inv. cbn [fst snd].
    rewrite Qc_sub, Qc_lit. repeat split; lra.
Qed.

(** ** Levels outside the scale table *)

Lemma tuple4_get_index (s : float * float * float * float) (i : Z) :
  match tuple4_get s i with
  | Ok _ => -4 <= i <= 3
  | Raise e => e = IndexError /\ (i < -4 \/ 3 < i)
  end /\
  (-4 <= i < 0 -> tuple4_get s i = tuple4_get s (i + 4)).
Proof.
  destruct s as [[[s0 s1] s2] s3]. unfold tuple4_get. split.
  - destruct (Z.ltb_spec i 0) as [Hi|Hi].
    + remember (i + 4) as j eqn:Ej.
      destruct j as [|p|p]; [lia| |split; [reflexivity|lia]].
      destruct p as [p|p|]; [| |lia].
      * destruct p as [p|p|]; [| |lia]; (split; [reflexivity|lia]).
      * destruct p as [p|p|]; [| |lia]; (split; [reflexivity|lia]).
    + destruct i as [|p|p]; [lia| |lia].
      destruct p as [p|p|]; [| |lia].
      * destruct p as [p|p|]; [| |lia]; (split; [reflexivity|lia]).
      * destruct p as [p|p|]; [| |lia]; (split; [reflexivity|lia]).
  - intros H. destruct (Z.ltb_spec i 0); [|lia].
    destruct (Z.ltb_spec (i + 4) 0); [lia|]. reflexivity.
Qed.


Lemma thickness_out_of_range (g : globals) (level : Z) (horizontal : bool) :
  level < -4 \/ 3 < level -> thickness g level horizontal = Raise IndexError.
Proof.
  intros H. unfold thickness.
  destruct (tuple4_get_index (scale g) level) as [H1 _].
  destruct (tuple4_get (scale g) level); [lia|]. now destruct H1 as [-> _].
Qed.

(** The double-line routines read [thickness(level + 1)] first: at level 3,
    the heavy level of the table, (and at any level from 3 on) they raise
    [IndexError] and draw nothing. *)
Theorem double_lines_level_error (g : globals) (width height level : Z)
    (which : string) (only : option string) (ch : Z) (buf : BufType) :
  3 <= level ->
  half_dhline g width height level which only buf = (buf, Raise IndexError) /\
  half_dvline g width height level which only buf = (buf, Raise IndexError) /\
  dhline g width height only level buf = (buf, Raise IndexError) /\
  dvline g width height only level buf = (buf, Raise IndexError) /\
  dcorner g width height level ch buf = (buf, Raise IndexError) /\
  inner_corner g width height which level buf = (buf, Raise IndexError).
Proof.
  intros H.
  assert (Ht : forall hz, thickness g (level + 1) hz = Raise IndexError)
    by (intros hz; apply thickness_out_of_range; lia).
  unfold dhline, dvline, dcorner, inner_corner, half_dhline, half_dvline.
  repeat split;
    repeat match goal with
           | |- context [if ?b then _ else _] => destruct b
           end;
    unfold bind, lift; rewrite ?Ht; reflexivity.
Qed.

(** ** Broken lines with an unknown number of holes *)

(** [get_holes] knows 1, 2 and 3 holes; for any other number its local
    [pts] is unbound.  [hholes] and [vholes] have drawn their line by then:
    they raise [UnboundLocalError] and leave the whole line in the
    buffer. *)
Theorem holes_unknown_number (g : globals) (width height level num sz : Z)
    (buf : BufType) :
  thickness g level true = Ok sz ->
  num < 1 \/ 3 < num ->
  get_holes width (width / hole_factor) num = Raise UnboundLocalError /\
  (forall buf', hline g width height level buf = (buf', Ok tt) ->
     hholes g width height level num buf = (buf', Raise UnboundLocalError)) /\
  (forall buf', vline g width height level buf = (buf', Ok tt) ->
     vholes g width height level num buf = (buf', Raise UnboundLocalError)).
Proof.
  intros Ht Hn.
  assert (Hg : forall a b, get_holes a b num = Raise UnboundLocalError).
  { intros a b. unfold get_holes.
    destruct (Z.eqb_spec num 1); [lia|]. destruct (Z.eqb_spec num 2); [lia|].
    destruct (Z.eqb_spec num 3); [lia|]. reflexivity. }
  split; [apply Hg|]. split; intros buf' E.
  - unfold hholes, bind at 1. rewrite E. unfold add_hholes, bind, lift.
    now rewrite Ht, Hg.
  - unfold vholes, bind at 1. rewrite E. unfold add_vholes, bind, lift.
    replace (thickness g level false) with (Ok sz : result Z) by easy.
    now rewrite Hg.
Qed.

(** ** The buffer keeps its length *)

(** [render_box_char] stores into the buffer it is given and never resizes
    it, whatever the character, the dimensions and the outcome. *)
Theorem render_box_char_keeps_length (g : globals) (ch : Z) (buf : BufType)
    (width height : Z) (dpi : float) :
  length (fst (snd (render_box_char g ch buf width height dpi))) = length buf.
Proof.
  unfold render_box_char. destruct (box_chars !! ch) as [recipe|] eqn:E;
    cbn [snd fst]; [|reflexivity].
  assert (Hr : Forall (step_safe (fun _ => True)) recipe)
    by (apply (box_chars_safe (P := fun _ => True)) with (ch := ch);
        [exact I .. | exact E]).
  apply (recipe_safe_run recipe {| scale := scale g; _dpi := dpi |}
           width height (length buf) Hr buf eq_refl).
Qed.

(** ** The buffer stays a buffer of bytes *)

(** A [bytearray] takes only values from 0 to 255; a store of any other
    value raises [ValueError].  The model stores any integer, which is
    faithful because no routine ever stores anything else into a buffer of
    bytes.  [keeps_bytes m Q]: run on a buffer of bytes, [m] leaves a buffer
    of bytes, and a value of [Q] if it returns. *)
Definition keeps_bytes {A} (m : M A) (Q : A -> Prop) : Prop :=
  forall buf : BufType, is_bytes buf ->
    is_bytes (fst (m buf)) /\
    match snd (m buf) with
    | Ok a => Q a
    | Raise _ => True
    end.

Definition any {A} : A -> Prop := fun _ => True.

Lemma kb_weaken {A} (m : M A) (Q Q' : A -> Prop) :
  (forall a, Q a -> Q' a) -> keeps_bytes m Q -> keeps_bytes m Q'.
Proof.
  intros HQ H buf Hb. destruct (H buf Hb) as [H1 H2]. split; [easy|].
  destruct (snd (m buf)); auto.
Qed.

Lemma kb_ret {A} (a : A) (Q : A -> Prop) : Q a -> keeps_bytes (ret a) Q.
Proof. intros H buf Hb. now split. Qed.

Lemma kb_raise {A} (e : exn) (Q : A -> Prop) : keeps_bytes (raise e) Q.
Proof. intros buf Hb. now split. Qed.

Lemma kb_lift {A} (r : result A) (Q : A -> Prop) :
  match r with Ok a => Q a | Raise _ => True end -> keeps_bytes (lift r) Q.
Proof. intros H buf Hb. now split. Qed.

Lemma kb_lift_any {A} (r : result A) : keeps_bytes (lift r) any.
Proof. apply kb_lift. now destruct r. Qed.

Lemma kb_bind {A B} (m : M A) (k : A -> M B) (Q1 : A -> Prop)
    (Q : B -> Prop) :
  keeps_bytes m Q1 -> (forall a, Q1 a -> keeps_bytes (k a) Q) ->
  keeps_bytes (bind m k) Q.
Proof.
  intros Hm Hk buf Hb. unfold bind. destruct (Hm buf Hb) as [H1 H2].
  destruct (m buf) as [buf' [a|e]]; cbn [fst snd] in *; [|easy].
  now apply Hk.
Qed.

Lemma kb_bind_any {A B} (m : M A) (k : A -> M B) (Q : B -> Prop) :
  keeps_bytes m any -> (forall a, keeps_bytes (k a) Q) ->
  keeps_bytes (bind m k) Q.
Proof. intros Hm Hk. eapply kb_bind; [exact Hm|]. intros a _. apply Hk. Qed.

Lemma kb_void {A} (m : M A) : keeps_bytes m any -> keeps_bytes (void m) any.
Proof. intros H. apply kb_bind_any; [easy|]. intros _. now apply kb_ret. Qed.

Lemma kb_for_each {A} (l : list A) (body : A -> M unit) :
  (forall a, keeps_bytes (body a) any) -> keeps_bytes (for_each l body) any.
Proof.
  intros H. induction l; cbn [for_each]; [now apply kb_ret|].
  apply kb_bind_any; auto.
Qed.

Lemma kb_for_fold {A S} (l : list A) (acc : S) (body : S -> A -> M S) :
  (forall s a, keeps_bytes (body s a) any) ->
  keeps_bytes (for_fold l acc body) any.
Proof.
  intros H. revert acc. induction l; intros acc; cbn [for_fold];
    [now apply kb_ret|].
  apply kb_bind_any; auto.
Qed.

Lemma kb_for_break {A} (l : list A) (body : A -> M bool) :
  (forall a, keeps_bytes (body a) any) -> keeps_bytes (for_break l body) any.
Proof.
  intros H. induction l; cbn [for_break]; [now apply kb_ret|].
  apply kb_bind_any; [auto|]. intros [|]; [now apply kb_ret|easy].
Qed.

Lemma kb_setitem (i v : Z) : 0 <= v <= 255 -> keeps_bytes (setitem i v) any.
Proof.
  intros Hv buf Hb. unfold setitem.
  destruct (norm_index _ i) as [k|]; cbn [fst snd]; [|now split].
  split; [|exact I]. unfold is_bytes in *. now apply Forall_insert.
Qed.

Lemma seq_get_byte (src : BufType) (i : Z) :
  is_bytes src ->
  match seq_get src i with Ok v => 0 <= v <= 255 | Raise _ => True end.
Proof.
  intros H. unfold seq_get. destruct (norm_index _ i) as [k|]; [|exact I].
  destruct (src !! k) as [v|] eqn:E; [|exact I].
  unfold is_bytes in H. rewrite Forall_lookup in H. exact (H _ _ E).
Qed.

Lemma kb_getitem (i : Z) : keeps_bytes (getitem i) (fun v => 0 <= v <= 255).
Proof.
  intros buf Hb. unfold getitem. cbn [fst snd]. split; [easy|].
  now apply seq_get_byte.
Qed.

Lemma kb_run_on {A} (other : BufType) (m : M A) (Q : A -> Prop) :
  is_bytes other -> keeps_bytes m Q ->
  keeps_bytes (run_on other m) (fun r => is_bytes (fst r) /\ Q (snd r)).
Proof.
  intros Ho Hm buf Hb. unfold run_on. destruct (Hm other Ho) as [H1 H2].
  destruct (m other) as [o [a|e]]; cbn [fst snd] in *; now split.
Qed.

Lemma bytearray_bytes (n : Z) :
  match bytearray n with Ok b => is_bytes b | Raise _ => True end.
Proof.
  unfold bytearray. destruct (n <? 0); [exact I|]. apply is_bytes_zeros.
Qed.

Create HintDb bytes.

Ltac bytes_step :=
  cbv beta;
  lazymatch goal with
  | |- keeps_bytes (bind _ _) _ => apply kb_bind_any; [|intros ?]
  | |- keeps_bytes (ret _) _ => apply kb_ret; exact I
  | |- keeps_bytes (raise _) _ => apply kb_raise
  | |- keeps_bytes (lift _) _ => apply kb_lift_any
  | |- keeps_bytes (void _) _ => apply kb_void
  | |- keeps_bytes (for_each _ _) _ => apply kb_for_each; intros ?
  | |- keeps_bytes (for_fold _ _ _) _ => apply kb_for_fold; intros ? ?
  | |- keeps_bytes (for_break _ _) _ => apply kb_for_break; intros ?
  | |- keeps_bytes (setitem _ _) _ => apply kb_setitem; cbv beta in *; lia
  | |- keeps_bytes (match (match ?b with _ => _ end) with _ => _ end) _ =>
      destruct b
  | |- keeps_bytes (match ?p with _ => _ end) _ => destruct p
  end.

Ltac bytes_tac := repeat (bytes_step || (progress auto with bytes)).

Section Bytes.

Lemma kb_draw_hline g width x1 x2 y level :
  keeps_bytes (draw_hline g width x1 x2 y level) any.
Proof. unfold draw_hline. bytes_tac. Qed.

Lemma kb_draw_vline g width y1 y2 x level :
  keeps_bytes (draw_vline g width y1 y2 x level) any.
Proof. unfold draw_vline. bytes_tac. Qed.
#[local] Hint Resolve kb_draw_hline kb_draw_vline : bytes.

Lemma kb_half_hline g width height level which extend_by :
  keeps_bytes (half_hline g width height level which extend_by) any.
Proof. unfold half_hline. bytes_tac. Qed.

Lemma kb_half_vline g width height level which extend_by :
  keeps_bytes (half_vline g width height level which extend_by) any.
Proof. unfold half_vline. bytes_tac. Qed.
#[local] Hint Resolve kb_half_hline kb_half_vline : bytes.

Lemma kb_add_hholes g width height level num :
  keeps_bytes (add_hholes g width height level num) any.
Proof. unfold add_hholes. bytes_tac. Qed.

Lemma kb_add_vholes g width height level num :
  keeps_bytes (add_vholes g width height level num) any.
Proof. unfold add_vholes. bytes_tac. Qed.

Lemma kb_hline g width height level :
  keeps_bytes (hline g width height level) any.
Proof. unfold hline. bytes_tac. Qed.

Lemma kb_vline g width height level :
  keeps_bytes (vline g width height level) any.
Proof. unfold vline. bytes_tac. Qed.
#[local] Hint Resolve kb_add_hholes kb_add_vholes kb_hline kb_vline : bytes.

Lemma kb_hholes g width height level num :
  keeps_bytes (hholes g width height level num) any.
Proof. unfold hholes. bytes_tac. Qed.

Lemma kb_vholes g width height level num :
  keeps_bytes (vholes g width height level num) any.
Proof. unfold vholes. bytes_tac. Qed.

Lemma kb_corner g width height hlevel vlevel which :
  keeps_bytes (corner g width height hlevel vlevel which) any.
Proof. unfold corner. bytes_tac. Qed.

Lemma kb_vert_t g width height a b c which :
  keeps_bytes (vert_t g width height a b c which) any.
Proof. unfold vert_t. bytes_tac. Qed.

Lemma kb_horz_t g width height a b c which :
  keeps_bytes (horz_t g width height a b c which) any.
Proof. unfold horz_t. bytes_tac. Qed.

Lemma kb_cross g width height a b c d :
  keeps_bytes (cross g width height a b c d) any.
Proof. unfold cross. bytes_tac. Qed.

Lemma kb_fill_region width height xlimits :
  keeps_bytes (fill_region width height xlimits) any.
Proof.
  unfold fill_region. bytes_tac. apply kb_setitem.
  match goal with |- context [if ?b then _ else _] => destruct b end; lia.
Qed.
#[local] Hint Resolve kb_fill_region : bytes.

Lemma kb_triangle_body ssf width height left :
  keeps_bytes (triangle_body ssf width height left) any.
Proof. unfold triangle_body. bytes_tac. Qed.

Lemma kb_corner_triangle_body ssf width height corner :
  keeps_bytes (corner_triangle_body ssf width height corner) any.
Proof. unfold corner_triangle_body. bytes_tac. Qed.

Lemma kb_thick_line width height thickness_in_pixels p1 p2 :
  keeps_bytes (thick_line width height thickness_in_pixels p1 p2) any.
Proof. unfold thick_line. bytes_tac. Qed.
#[local] Hint Resolve kb_thick_line : bytes.

Lemma kb_cross_line_body g ssf width height left level :
  keeps_bytes (cross_line_body g ssf width height left level) any.
Proof. unfold cross_line_body. bytes_tac. Qed.

Lemma kb_half_cross_line_body g ssf width height which level :
  keeps_bytes (half_cross_line_body g ssf width height which level) any.
Proof. unfold half_cross_line_body. bytes_tac. Qed.

Lemma kb_half_dhline g width height level which only :
  keeps_bytes (half_dhline g width height level which only) any.
Proof. unfold half_dhline. bytes_tac. Qed.

Lemma kb_half_dvline g width height level which only :
  keeps_bytes (half_dvline g width height level which only) any.
Proof. unfold half_dvline. bytes_tac. Qed.
#[local] Hint Resolve kb_half_dhline kb_half_dvline : bytes.

Lemma kb_dvline g width height only level :
  keeps_bytes (dvline g width height only level) any.
Proof. unfold dvline. bytes_tac. Qed.

Lemma kb_dhline g width height only level :
  keeps_bytes (dhline g width height only level) any.
Proof. unfold dhline. bytes_tac. Qed.
#[local] Hint Resolve kb_dvline kb_dhline : bytes.

Lemma kb_dvcorner g width height level which :
  keeps_bytes (dvcorner g width height level which) any.
Proof. unfold dvcorner. bytes_tac. Qed.

Lemma kb_dhcorner g width height level which :
  keeps_bytes (dhcorner g width height level which) any.
Proof. unfold dhcorner. bytes_tac. Qed.

Lemma kb_dcorner g width height level which :
  keeps_bytes (dcorner g width height level which) any.
Proof. unfold dcorner. bytes_tac. Qed.

Lemma kb_dpip g width height level which :
  keeps_bytes (dpip g width height level which) any.
Proof. unfold dpip. bytes_tac. Qed.

Lemma kb_inner_corner g width height which level :
  keeps_bytes (inner_corner g width height which level) any.
Proof. unfold inner_corner. bytes_tac. Qed.

Lemma kb_vblock width height frac gravity :
  keeps_bytes (vblock width height frac gravity) any.
Proof. unfold vblock. bytes_tac. Qed.

Lemma kb_hblock width height frac gravity :
  keeps_bytes (hblock width height frac gravity) any.
Proof. unfold hblock. bytes_tac. Qed.

Lemma kb_shade_squares width height light :
  keeps_bytes (shade_squares width height light) any.
Proof. unfold shade_squares. bytes_tac. Qed.

Lemma kb_quad width height x y : keeps_bytes (quad width height x y) any.
Proof. unfold quad. bytes_tac. Qed.

Lemma kb_render_missing_glyph g width height :
  keeps_bytes (render_missing_glyph g width height) any.
Proof. unfold render_missing_glyph. bytes_tac. Qed.

End Bytes.

(** Values read from a buffer of bytes are bytes; sums of them are not
    negative. *)
Lemma rfold_sum_nonneg (src : BufType) (l : list Z) (idx : Z -> Z) (acc : Z) :
  is_bytes src -> 0 <= acc ->
  match rfold l acc (fun total x =>
          rbind (seq_get src (idx x)) (fun v => Ok (total + v))) with
  | Ok total => 0 <= total
  | Raise _ => True
  end.
Proof.
  intros Hs. revert acc. induction l as [|x l IH]; intros acc Ha;
    cbn [rfold]; [easy|].
  pose proof (seq_get_byte src (idx x) Hs) as Hv.
  destruct (seq_get src (idx x)) as [v|e]; cbn [rbind]; [|exact I].
  apply IH. lia.
Qed.

Lemma rfold_rows_nonneg (src : BufType) (rows cols : list Z)
    (idx : Z -> Z -> Z) (acc : Z) :
  is_bytes src -> 0 <= acc ->
  match rfold rows acc (fun total y =>
          rfold cols total (fun total x =>
            rbind (seq_get src (idx y x)) (fun v => Ok (total + v)))) with
  | Ok total => 0 <= total
  | Raise _ => True
  end.
Proof.
  intros Hs. revert acc. induction rows as [|y rows IH]; intros acc Ha;
    cbn [rfold]; [easy|].
  pose proof (rfold_sum_nonneg src cols (idx y) acc Hs Ha) as Hr.
  destruct (rfold cols acc _) as [t|e]; cbn [rbind]; [|exact I].
  now apply IH.
Qed.

Lemma average_intensity_nonneg (src : BufType) (src_width factor x y : Z) :
  is_bytes src ->
  match average_intensity_in_src src src_width factor x y with
  | Ok avg => 0 <= avg
  | Raise _ => True
  end.
Proof.
  intros Hs. unfold average_intensity_in_src. cbv zeta.
  pose proof (rfold_rows_nonneg src
                (range (y * factor) (y * factor + factor))
                (range (x * factor) (x * factor + factor))
                (fun y x => src_width * y + x) 0 Hs (Z.le_refl 0)) as Hr.
  cbv beta in Hr.
  destruct (rfold (range (y * factor) (y * factor + factor)) 0 _)
    as [total|e]; cbn [rbind]; [|exact I].
  unfold floordiv. destruct (Z.eqb_spec (factor * factor) 0); [exact I|].
  apply Z.div_pos; nia.
Qed.

Ltac bytes_step' :=
  cbv beta;
  lazymatch goal with
  | |- keeps_bytes (bind (getitem _) _) _ =>
      eapply kb_bind; [apply kb_getitem | intros ? ?]
  | |- keeps_bytes (bind (lift (seq_get _ _)) _) _ =>
      eapply kb_bind;
      [apply kb_lift, seq_get_byte; assumption | intros ? ?]
  | |- keeps_bytes (bind (lift (bytearray _)) _) _ =>
      eapply kb_bind; [apply kb_lift, bytearray_bytes | intros ? ?]
  | |- keeps_bytes (bind (run_on _ _) _) _ =>
      eapply kb_bind; [apply kb_run_on; [assumption|] | intros ? [? ?]]
  | _ => bytes_step
  end.

Ltac bytes_tac' := repeat (bytes_step' || (progress auto with bytes)).

Lemma kb_downsample (src : BufType) (dest_width dest_height factor : Z) :
  is_bytes src ->
  keeps_bytes (downsample src dest_width dest_height factor) any.
Proof.
  intros Hs. unfold downsample. cbv zeta.
  apply kb_for_each. intros y. apply kb_for_each. intros x.
  eapply kb_bind; [apply kb_getitem|]. intros old Ho. cbv beta in Ho.
  apply (kb_bind _ _ (fun avg => 0 <= avg));
    [apply kb_lift, (average_intensity_nonneg src _ factor x y Hs)|].
  intros avg Ha. apply kb_setitem. lia.
Qed.

Lemma kb_supersampled (f : Z -> Z -> Z -> M unit) (width height : Z) :
  (forall ssf w h, keeps_bytes (f ssf w h) any) ->
  keeps_bytes (supersampled f width height) any.
Proof.
  intros Hf. unfold supersampled. cbv zeta.
  eapply kb_bind; [apply kb_lift, bytearray_bytes|]. intros ssbuf Hs.
  eapply kb_bind; [apply kb_run_on; [exact Hs | apply Hf]|].
  intros r [Hr _]. now apply kb_downsample.
Qed.

Lemma kb_draw_parametrized_curve width height thickness_in_pixels
    xfunc yfunc :
  keeps_bytes (draw_parametrized_curve width height thickness_in_pixels
                 xfunc yfunc) any.
Proof. unfold draw_parametrized_curve. bytes_tac'. Qed.

Lemma kb_rounded_corner_body g ssf width height level which :
  keeps_bytes (rounded_corner_body g ssf width height level which) any.
Proof.
  unfold rounded_corner_body. bytes_tac'.
  all: apply kb_draw_parametrized_curve.
Qed.

Lemma kb_D_body ssf width height left :
  keeps_bytes (D_body ssf width height left) any.
Proof.
  unfold D_body. bytes_tac'; try apply kb_fill_region.
Qed.

Lemma kb_shade width height light invert :
  keeps_bytes (shade width height light invert) any.
Proof.
  unfold shade. destruct invert; [|apply kb_shade_squares].
  bytes_tac'; try apply kb_shade_squares.
Qed.

#[export] Hint Resolve kb_half_hline kb_half_vline kb_hline kb_vline
  kb_hholes kb_vholes kb_corner kb_vert_t kb_horz_t kb_cross kb_supersampled
  kb_triangle_body kb_corner_triangle_body kb_cross_line_body
  kb_half_cross_line_body kb_D_body kb_rounded_corner_body kb_half_dhline
  kb_half_dvline kb_dvline kb_dhline kb_dvcorner kb_dhcorner kb_dcorner
  kb_dpip kb_inner_corner kb_vblock kb_hblock kb_shade kb_quad kb_void
  : bytes.

(** A step that keeps a buffer of bytes a buffer of bytes, whatever the
    globals and the dimensions. *)
Definition step_bytes (func : DrawingStep) : Prop :=
  forall g w h, keeps_bytes (func g w h) any.

Ltac recipe_bytes :=
  repeat first
    [ apply List.Forall_nil
    | apply List.Forall_cons;
      [intros ? ? ?; cbv beta;
       unfold triangle, corner_triangle, D, cross_line, half_cross_line,
         rounded_corner; auto 6 with bytes |] ].

Ltac each_entry H :=
  apply list_elem_of_In in H; cbn [In] in H;
  repeat match type of H with
         | _ \/ _ => destruct H as [H | H]
         | False => destruct H
         | _ = _ => subst
         end.

Lemma box_chars_display_bytes :
  Forall (fun kv => Forall step_bytes (snd kv)) box_chars_display.
Proof.
  unfold box_chars_display.
  repeat (apply List.Forall_cons; [cbn [snd map]; recipe_bytes |]).
  apply List.Forall_nil.
Qed.

Lemma corner_family_bytes :
  Forall (fun kv => Forall step_bytes (snd kv)) corner_family.
Proof.
  unfold corner_family. apply Forall_flat_map, Forall_forall. intros start _.
  apply (family_Forall (Forall step_bytes)). intros [hl vl] _. recipe_bytes.
Qed.

Lemma rounded_corner_family_bytes :
  Forall (fun kv => Forall step_bytes (snd kv)) rounded_corner_family.
Proof.
  unfold rounded_corner_family. apply Forall_map, Forall_forall.
  intros ch _. cbn [snd]. recipe_bytes.
Qed.

Lemma cross_family_bytes :
  Forall (fun kv => Forall step_bytes (snd kv)) cross_family.
Proof.
  unfold cross_family. apply (family_Forall (Forall step_bytes)).
  intros [[[a b] c] d] _. recipe_bytes.
Qed.

Lemma t_families_bytes :
  Forall (fun kv => Forall step_bytes (snd kv)) t_families.
Proof.
  unfold t_families. apply Forall_flat_map, Forall_forall.
  intros [[starts func] pattern] H. apply Forall_flat_map, Forall_forall.
  intros start _. apply (family_Forall (Forall step_bytes)).
  intros [[a b] c] _. each_entry H; injection H as <- <- <-; recipe_bytes.
Qed.

Lemma double_families_bytes :
  Forall (fun kv => Forall step_bytes (snd kv)) double_families.
Proof.
  unfold double_families. apply Forall_flat_map, Forall_forall.
  intros [chars func] H. apply Forall_map, Forall_forall. intros ch _.
  cbn [snd]. each_entry H; injection H as <- <-; recipe_bytes.
Qed.

Lemma box_chars_bytes (ch : Z) (recipe : list DrawingStep) :
  box_chars !! ch = Some recipe -> Forall step_bytes recipe.
Proof.
  revert ch recipe. change (map_Forall (fun _ v => Forall step_bytes v)
                              box_chars).
  unfold box_chars. apply dict_update_Forall; [apply map_Forall_empty|].
  apply Forall_app_2; [apply box_chars_display_bytes|].
  apply Forall_app_2; [apply corner_family_bytes|].
  apply Forall_app_2; [apply rounded_corner_family_bytes|].
  apply Forall_app_2; [apply cross_family_bytes|].
  apply Forall_app_2; [apply t_families_bytes | apply double_families_bytes].
Qed.

(** [render_box_char] maps a buffer of bytes to a buffer of bytes, for every
    character, dimension and dpi, and whether it returns or raises: every
    value a recipe stores is 0, 255, a sum clamped to 255, or the inverse
    [255 - v] or a copy of a byte.  So no store of a recipe into a
    [bytearray] fails for its value. *)
Theorem render_box_char_keeps_bytes (g : globals) (ch : Z) (buf : BufType)
    (width height : Z) (dpi : float) :
  is_bytes buf ->
  is_bytes (fst (snd (render_box_char g ch buf width height dpi))).
Proof.
  intros Hb. unfold render_box_char.
  destruct (box_chars !! ch) as [recipe|] eqn:E; cbn [snd fst]; [|exact Hb].
  apply box_chars_bytes in E.
  assert (H : keeps_bytes
                (for_each recipe (fun func =>
                   func {| scale := scale g; _dpi := dpi |} width height))
                any).
  { induction E as [|func recipe Hf _ IH]; cbn [for_each];
      [now apply kb_ret|].
    apply kb_bind_any; [apply Hf | intros _; apply IH]. }
  apply (H buf Hb).
Qed.

(** ** The exceptions of a recipe *)

(** The exceptions a drawing routine raises when it is given parameters it
    knows: a subscript outside the buffer or the scale table, a negative
    size of a scratch buffer or a search without result, a division by
    zero. *)
Definition drawing_error (e : exn) : Prop :=
  e = IndexError \/ e = ValueError \/ e = ZeroDivisionError.

Lemma drawing_error_IndexError : drawing_error IndexError.
Proof. now left. Qed.

Lemma drawing_error_ValueError : drawing_error ValueError.
Proof. right. now left. Qed.

Lemma drawing_error_ZeroDivisionError : drawing_error ZeroDivisionError.
Proof. right. now right. Qed.

#[export] Hint Resolve drawing_error_IndexError drawing_error_ValueError
  drawing_error_ZeroDivisionError : safe.

Definition known_num (num : Z) : bool := (1 <=? num) && (num <=? 3).

Section Known.

Context {P : exn -> Prop}.
Hypothesis P_IndexError : P IndexError.
Hypothesis P_ValueError : P ValueError.
Hypothesis P_ZeroDivisionError : P ZeroDivisionError.

Lemma rsafe_get_holes_known (sz hole_sz num : Z) :
  known_num num = true -> rsafe P (get_holes sz hole_sz num).
Proof.
  intros H. apply andb_true_iff in H as [H1%Z.leb_le H2%Z.leb_le].
  assert (E : num = 1 \/ num = 2 \/ num = 3) by lia.
  destruct E as [E | [E | E]]; subst num; exact I.
Qed.

Lemma safe_hholes_known (n : nat) g width height level num :
  known_num num = true -> safe P n (hholes g width height level num).
Proof.
  intros H. unfold hholes, add_hholes. safe_tac.
  now apply rsafe_get_holes_known.
Qed.

Lemma safe_vholes_known (n : nat) g width height level num :
  known_num num = true -> safe P n (vholes g width height level num).
Proof.
  intros H. unfold vholes, add_vholes. safe_tac.
  now apply rsafe_get_holes_known.
Qed.

Definition known_corner (corner : string) : bool :=
  existsb (String.eqb corner)
    ["top-right"; "bottom-left"; "top-left"; "bottom-right"]%string.

Lemma safe_corner_triangle_body_known (n : nat) ssf width height corner :
  known_corner corner = true ->
  safe P n (corner_triangle_body ssf width height corner).
Proof.
  intros H. unfold known_corner in H. cbn [existsb] in H.
  repeat apply orb_true_iff in H as [H|H]; try discriminate;
    apply String.eqb_eq in H; subst corner;
    unfold corner_triangle_body; cbn [String.eqb Ascii.eqb Bool.eqb orb];
    safe_tac; now apply safe_fill_region.
Qed.

Definition known_rounded (which : Z) : bool :=
  existsb (Z.eqb which) [0x256d; 0x256e; 0x2570; 0x256f].

Lemma safe_rounded_corner_body_known (n : nat) g ssf width height level
    which :
  known_rounded which = true ->
  safe P n (rounded_corner_body g ssf width height level which).
Proof.
  intros H. unfold known_rounded in H. cbn [existsb] in H.
  repeat apply orb_true_iff in H as [H|H]; try discriminate;
    apply Z.eqb_eq in H; subst which;
    unfold rounded_corner_body; cbn [Z.eqb Pos.eqb]; safe_tac;
    now apply safe_draw_parametrized_curve.
Qed.

Lemma rsafe_ends {A} (r : result A) :
  rsafe (fun e => P e \/ e = LoopBound) r -> r <> Raise LoopBound ->
  rsafe P r.
Proof.
  destruct r as [a|e]; cbn; [easy|]. intros [H| ->] Hn; [easy|].
  now destruct Hn.
Qed.

Lemma safe_D_body_ends (n : nat) ssf width height left :
  safe P n (D_body ssf width height left).
Proof.
  unfold D_body. apply safe_bind.
  { apply safe_lift. rewrite find_bezier_for_D_closed. exact I. }
  intros c1x. cbv zeta. cbn [cubic_bezier fst snd]. apply safe_bind.
  { apply safe_lift, rsafe_ends.
    - apply rsafe_get_bezier_limits; auto.
    - apply get_bezier_limits_terminates. }
  intros xlimits. destruct left; [now apply safe_fill_region|].
  safe_tac. now apply safe_fill_region.
Qed.

End Known.

Ltac known_side := first [reflexivity | solve [auto 6 with safe]].

Ltac step_known :=
  intros ? ? ? ?; cbv beta;
  unfold triangle, corner_triangle, D, cross_line, half_cross_line,
    rounded_corner;
  lazymatch goal with
  | |- safe _ _ (hholes _ _ _ _ _) => apply safe_hholes_known; known_side
  | |- safe _ _ (vholes _ _ _ _ _) => apply safe_vholes_known; known_side
  | |- context [D_body] =>
      apply safe_supersampled; [known_side .. |]; intros ? ? ? ?;
      apply safe_D_body_ends; known_side
  | |- context [corner_triangle_body] =>
      apply safe_supersampled; [known_side .. |]; intros ? ? ? ?;
      apply safe_corner_triangle_body_known; known_side
  | |- context [rounded_corner_body] =>
      apply safe_supersampled; [known_side .. |]; intros ? ? ? ?;
      apply safe_rounded_corner_body_known; known_side
  | _ => solve [auto 6 with safe]
  end.

Ltac recipe_known :=
  repeat first
    [ apply List.Forall_nil
    | apply List.Forall_cons; [step_known |] ].

Lemma box_chars_display_known :
  Forall (fun kv => Forall (step_safe drawing_error) (snd kv))
    box_chars_display.
Proof.
  unfold box_chars_display.
  repeat (apply List.Forall_cons; [cbn [snd map]; recipe_known |]).
  apply List.Forall_nil.
Qed.

Lemma corner_family_known :
  Forall (fun kv => Forall (step_safe drawing_error) (snd kv)) corner_family.
Proof.
  unfold corner_family. apply Forall_flat_map, Forall_forall. intros start _.
  apply (family_Forall (Forall (step_safe drawing_error))).
  intros [hl vl] _. recipe_known.
Qed.

Lemma rounded_corner_family_known :
  Forall (fun kv => Forall (step_safe drawing_error) (snd kv))
    rounded_corner_family.
Proof.
  unfold rounded_corner_family. apply Forall_map, Forall_forall.
  intros ch H. cbn [snd]. each_entry H; recipe_known.
Qed.

Lemma cross_family_known :
  Forall (fun kv => Forall (step_safe drawing_error) (snd kv)) cross_family.
Proof.
  unfold cross_family.
  apply (family_Forall (Forall (step_safe drawing_error))).
  intros [[[a b] c] d] _. recipe_known.
Qed.

Lemma t_families_known :
  Forall (fun kv => Forall (step_safe drawing_error) (snd kv)) t_families.
Proof.
  unfold t_families. apply Forall_flat_map, Forall_forall.
  intros [[starts func] pattern] H. apply Forall_flat_map, Forall_forall.
  intros start _. apply (family_Forall (Forall (step_safe drawing_error))).
  intros [[a b] c] _. each_entry H; injection H as <- <- <-; recipe_known.
Qed.

Lemma double_families_known :
  Forall (fun kv => Forall (step_safe drawing_error) (snd kv))
    double_families.
Proof.
  unfold double_families. apply Forall_flat_map, Forall_forall.
  intros [chars func] H. apply Forall_map, Forall_forall. intros ch _.
  cbn [snd]. each_entry H; injection H as <- <-; recipe_known.
Qed.

Lemma box_chars_known (ch : Z) (recipe : list DrawingStep) :
  box_chars !! ch = Some recipe -> Forall (step_safe drawing_error) recipe.
Proof.
  revert ch recipe.
  change (map_Forall (fun _ v => Forall (step_safe drawing_error) v)
            box_chars).
  unfold box_chars. apply dict_update_Forall; [apply map_Forall_empty|].
  apply Forall_app_2; [apply box_chars_display_known|].
  apply Forall_app_2; [apply corner_family_known|].
  apply Forall_app_2; [apply rounded_corner_family_known|].
  apply Forall_app_2; [apply cross_family_known|].
  apply Forall_app_2; [apply t_families_known | apply double_families_known].
Qed.

(** The outcomes of [render_box_char] in the model. *)
Lemma render_box_char_outcome (g : globals) (ch : Z) (buf : BufType)
    (width height : Z) (dpi : float) :
  match snd (snd (render_box_char g ch buf width height dpi)) with
  | Ok _ => box_chars !! ch <> None
  | Raise e =>
      (e = KeyError /\ box_chars !! ch = None) \/
      (drawing_error e /\ box_chars !! ch <> None)
  end.
Proof.
  unfold render_box_char. destruct (box_chars !! ch) as [recipe|] eqn:E;
    cbn [snd fst]; [|now left].
  apply box_chars_known in E.
  assert (H : safe drawing_error (length buf)
                (for_each recipe (fun func =>
                   func {| scale := scale g; _dpi := dpi |} width height))).
  { induction E as [|func recipe Hf _ IH]; cbn [for_each]; [apply safe_ret|].
    apply safe_bind; [apply Hf | intros _; apply IH]. }
  destruct (H buf eq_refl) as [_ Hr].
  destruct (snd (for_each recipe _ buf)) as [[]|e]; [easy|].
  right. now split.
Qed.

(** Every call of [render_box_char] ends (the searches of [D] included) and
    leaves no local variable unbound: every recipe gives its routine a
    number of holes, a corner or a character that the routine knows, so
    [UnboundLocalError] is never raised; [KeyError] is raised exactly for a
    character without a recipe. *)
Theorem render_box_char_exceptions (g : globals) (ch : Z) (buf : BufType)
    (width height : Z) (dpi : float) :
  match snd (snd (render_box_char g ch buf width height dpi)) with
  | Ok _ => box_chars !! ch <> None
  | Raise e =>
      e <> UnboundLocalError /\ e <> LoopBound /\
      (e = KeyError <-> box_chars !! ch = None)
  end.
Proof.
  pose proof (render_box_char_outcome g ch buf width height dpi) as H.
  destruct (snd (snd (render_box_char g ch buf width height dpi))) as [|e];
    [exact H|].
  destruct H as [[-> Hn] | [He Hs]].
  - repeat split; try discriminate; easy.
  - unfold drawing_error in He.
    repeat split; try (intros ->; destruct He as [|[|]]; discriminate).
    intros Hn. now destruct Hs.
Qed.

(** ** Routines that cannot fail *)

(** [never_raises n m]: on a buffer of [n] items [m] returns. *)
Definition never_raises (n : nat) (m : M unit) : Prop :=
  safe (fun _ => False) n m.

Lemma never_raises_run (n : nat) (m : M unit) (buf : BufType) :
  never_raises n m -> length buf = n ->
  exists buf', m buf = (buf', Ok tt) /\ length buf' = length buf.
Proof.
  intros H L. destruct (H buf L) as [L' R].
  destruct (m buf) as [buf' [[]|e]]; cbn [fst snd] in *; [|easy].
  exists buf'. split; [reflexivity|congruence].
Qed.

Section InBounds.

Context {P : exn -> Prop} {n : nat}.

Lemma safe_setitem_in (i v : Z) :
  0 <= i < Z.of_nat n -> safe P n (setitem i v).
Proof.
  intros H buf L. split; [now rewrite setitem_length|].
  rewrite setitem_in_range by lia. exact I.
Qed.

Lemma safe_getitem_in (i : Z) : 0 <= i < Z.of_nat n -> safe P n (getitem i).
Proof.
  intros H buf L. split; [easy|]. unfold getitem. cbn [snd].
  rewrite seq_get_byte_at by lia. exact I.
Qed.

Lemma safe_for_each_in {A} (l : list A) (body : A -> M unit) :
  (forall a, In a l -> safe P n (body a)) -> safe P n (for_each l body).
Proof.
  induction l as [|a l IH]; intros H; cbn [for_each]; [apply safe_ret|].
  apply safe_bind; [apply H; now left|]. intros _. apply IH.
  intros a' Ha'. apply H. now right.
Qed.

(** A store guarded by [0 <= x < width] and [0 <= y < height]. *)
Lemma safe_guarded_run (width height x : Z) (ys : list Z)
    (store : Z -> M unit) :
  Z.of_nat n = width * height ->
  (forall y, 0 <= x < width -> 0 <= y < height -> safe P n (store y)) ->
  safe P n
    (if (0 <=? x) && (x <? width) then
       for_each ys (fun y =>
         if (0 <=? y) && (y <? height) then store y else ret tt)
     else ret tt).
Proof.
  intros L H.
  destruct (Z.leb_spec 0 x), (Z.ltb_spec x width); cbn [andb];
    try apply safe_ret.
  apply safe_for_each. intros y.
  destruct (Z.leb_spec 0 y), (Z.ltb_spec y height); cbn [andb];
    try apply safe_ret.
  apply H; lia.
Qed.

Lemma safe_thick_line_in (width height thickness_in_pixels : Z)
    (p1 p2 : Z * Z) :
  Z.of_nat n = width * height -> fst p1 <> fst p2 ->
  safe P n (thick_line width height thickness_in_pixels p1 p2).
Proof.
  intros L Hne. unfold thick_line.
  set (a := if fst p2 <? fst p1 then p2 else p1).
  set (b := if fst p2 <? fst p1 then p1 else p2).
  replace (if fst p2 <? fst p1 then (p2, p1) else (p1, p2)) with (a, b)
    by (subst a b; now destruct (fst p2 <? fst p1)).
  pose proof (line_equation_vertical (fst a) (snd a) (fst b) (snd b)) as Hl.
  assert (Hab : fst a <> fst b).
  { subst a b. destruct (Z.ltb_spec (fst p2) (fst p1)); lia. }
  apply safe_bind.
  { apply safe_lift. destruct (line_equation _ _ _ _); [exact I|].
    now destruct Hl. }
  intros leq. cbv zeta. apply safe_for_each. intros x.
  apply safe_guarded_run; [exact L|]. intros y Hx Hy.
  apply safe_setitem_in. nia.
Qed.

Lemma safe_fill_region_in (width height : Z)
    (xlimits : list (float * float)) :
  Z.of_nat n = width * height -> Z.of_nat (length xlimits) <= width ->
  safe P n (fill_region width height xlimits).
Proof.
  intros L Hn. unfold fill_region. apply safe_for_each_in.
  intros y Hy%in_range. cbv zeta. apply safe_for_each_in.
  intros [x [upper lower]] [Hx El]%in_enumerate.
  apply lookup_lt_Some in El. apply safe_setitem_in. nia.
Qed.

Lemma safe_draw_parametrized_curve_in (width height thickness_in_pixels : Z)
    (xfunc yfunc : BezierFunc) :
  Z.of_nat n = width * height -> height <> 0 ->
  safe P n (draw_parametrized_curve width height thickness_in_pixels
              xfunc yfunc).
Proof.
  intros L Hh. unfold draw_parametrized_curve. cbv zeta.
  apply safe_bind; [|intros _; apply safe_ret].
  apply safe_for_fold. intros seen i. apply safe_bind.
  { apply safe_lift. unfold truediv.
    destruct (Z.eqb_spec (height * 4) 0); [lia|exact I]. }
  intros t. destruct (bool_decide _); [apply safe_ret|].
  apply safe_bind; [|intros _; apply safe_ret].
  apply safe_for_each. intros y.
  destruct (Z.leb_spec 0 y), (Z.ltb_spec y height); cbn [andb];
    try apply safe_ret.
  apply safe_for_each. intros x.
  destruct (Z.leb_spec 0 x), (Z.ltb_spec x width); cbn [andb];
    try apply safe_ret.
  apply safe_bind; [apply safe_getitem_in; nia|]. intros old.
  apply safe_setitem_in. nia.
Qed.

End InBounds.

Lemma line_equation_ok {P : exn -> Prop} (x1 y1 x2 y2 : Z) :
  x1 <> x2 -> rsafe P (line_equation x1 y1 x2 y2).
Proof.
  intros H. pose proof (line_equation_vertical x1 y1 x2 y2) as Hl.
  destruct (line_equation x1 y1 x2 y2); [exact I|]. now destruct Hl.
Qed.

Section Bodies.

Context {P : exn -> Prop} {n : nat}.
Variables width height : Z.
Hypothesis L : Z.of_nat n = width * height.
Hypothesis Hw : 2 <= width.

Lemma safe_triangle_body_in ssf left :
  safe P n (triangle_body ssf width height left).
Proof.
  unfold triangle_body.
  destruct left; cbv zeta;
    (apply safe_bind; [apply safe_lift, line_equation_ok; lia|]; intros uppery;
     apply safe_bind; [apply safe_lift, line_equation_ok; lia|]; intros lowery;
     apply safe_fill_region_in; [exact L|];
     rewrite length_map, length_range; lia).
Qed.

Lemma safe_corner_triangle_body_in ssf corner :
  known_corner corner = true ->
  safe P n (corner_triangle_body ssf width height corner).
Proof.
  intros H. unfold known_corner in H. cbn [existsb] in H.
  repeat apply orb_true_iff in H as [H|H]; try discriminate;
    apply String.eqb_eq in H; subst corner;
    unfold corner_triangle_body; cbn [String.eqb Ascii.eqb Bool.eqb orb];
    (apply triple_bind with
       (Q1 := fun xl : list (float * float) =>
                Z.of_nat (length xl) <= width);
     [eapply triple_bind;
      [apply safe_lift, line_equation_ok; lia|];
      intros diagonal_y _; apply triple_ret;
      rewrite length_map, length_range; lia
     |intros xlimits Hx; now apply safe_fill_region_in]).
Qed.

End Bodies.

Section LineBodies.

Context {P : exn -> Prop} {n : nat}.
Variables (g : globals) (width height level sz : Z).
Hypothesis L : Z.of_nat n = width * height.
Hypothesis Hw : 2 <= width.
Hypothesis Ht : thickness g level true = Ok sz.

Lemma safe_cross_line_body_in ssf left :
  safe P n (cross_line_body g ssf width height left level).
Proof.
  unfold cross_line_body. destruct left;
    (apply safe_bind; [apply safe_lift; now rewrite Ht|]; intros t;
     apply safe_thick_line_in; [exact L | cbn [fst]; lia]).
Qed.

Lemma safe_half_cross_line_body_in ssf which :
  safe P n (half_cross_line_body g ssf width height which level).
Proof.
  unfold half_cross_line_body.
  apply safe_bind; [apply safe_lift; now rewrite Ht|]. intros t. cbv zeta.
  destruct (String.eqb which "tl"); [|destruct (String.eqb which "bl");
    [|destruct (String.eqb which "tr")]];
    (apply safe_thick_line_in; [exact L | cbn [fst]; lia]).
Qed.

Lemma safe_rounded_corner_body_in ssf which :
  height <> 0 -> known_rounded which = true ->
  safe P n (rounded_corner_body g ssf width height level which).
Proof.
  intros Hh H. unfold known_rounded in H. cbn [existsb] in H.
  unfold rounded_corner_body.
  apply safe_bind; [apply safe_lift; now rewrite Ht|]. intros t. cbv zeta.
  repeat apply orb_true_iff in H as [H|H]; try discriminate;
    apply Z.eqb_eq in H; subst which; cbn [Z.eqb Pos.eqb];
    (apply safe_bind; [apply safe_ret|]; intros pts;
     destruct pts as [[[start end_] c1] c2];
     destruct (cubic_bezier start end_ c1 c2) as [xfunc yfunc];
     now apply safe_draw_parametrized_curve_in).
Qed.

End LineBodies.

(** A wrapped routine that cannot fail on its scratch buffer makes
    [supersampled] return. *)
Lemma supersampled_never_raises (f : Z -> Z -> Z -> M unit)
    (width height : Z) (n : nat) :
  0 <= width -> 0 <= height -> Z.of_nat n = width * height ->
  never_raises (Z.to_nat (4 * width * (4 * height)))
    (f supersample_factor (4 * width) (4 * height)) ->
  never_raises n (supersampled f width height).
Proof.
  intros Hw Hh L Hf buf Lb.
  pose proof (length_zeros (4 * width * (4 * height)) ltac:(nia)) as L0.
  destruct (never_raises_run _ _ (zeros (4 * width * (4 * height))) Hf)
    as (ss & E & Ls); [lia|].
  destruct (supersampled_run f width height buf ss Hw Hh ltac:(lia) E
              ltac:(lia)) as (dest' & E' & L' & _).
  rewrite E'. cbn [fst snd]. split; [congruence|exact I].
Qed.

(** The diagonal, triangle and rounded corner glyphs cannot fail: on a cell
    of at least one column and one row, with a buffer of [width * height]
    items and a level of the scale table, [triangle], [corner_triangle],
    [cross_line], [half_cross_line] and [rounded_corner] return, for each of
    their variants.  Their lines are never vertical (the scratch buffer is
    at least four pixels wide) and every store is inside the scratch
    buffer. *)
Theorem supersampled_glyphs_return (g : globals) (width height level sz : Z)
    (buf : BufType) :
  thickness g level true = Ok sz ->
  1 <= width -> 1 <= height -> Z.of_nat (length buf) = width * height ->
  let ends (m : M unit) :=
    exists buf', m buf = (buf', Ok tt) /\ length buf' = length buf in
  (forall left, ends (triangle width height left)) /\
  (forall corner, known_corner corner = true ->
     ends (corner_triangle width height corner)) /\
  (forall left, ends (cross_line g width height left level)) /\
  (forall which, ends (half_cross_line g width height which level)) /\
  (forall which, known_rounded which = true ->
     ends (rounded_corner g width height level which)).
Proof.
  intros Ht Hw Hh L ends.
  assert (Ls : Z.of_nat (Z.to_nat (4 * width * (4 * height)))
               = 4 * width * (4 * height)) by nia.
  assert (R : forall f,
            never_raises (Z.to_nat (4 * width * (4 * height)))
              (f supersample_factor (4 * width) (4 * height)) ->
            ends (supersampled f width height)).
  { intros f Hf. apply never_raises_run with (n := length buf); [|easy].
    apply supersampled_never_raises; try easy; lia. }
  repeat split.
  - intros left. apply R. apply safe_triangle_body_in; [exact Ls|lia].
  - intros corner Hc. apply R.
    apply safe_corner_triangle_body_in; [exact Ls|lia|exact Hc].
  - intros left. apply R.
    apply safe_cross_line_body_in with (sz := sz); [exact Ls|lia|exact Ht].
  - intros which. apply R.
    apply safe_half_cross_line_body_in with (sz := sz);
      [exact Ls|lia|exact Ht].
  - intros which Hk. apply R.
    apply safe_rounded_corner_body_in with (sz := sz);
      [exact Ls|exact Ht|lia|exact Hk].
Qed.

(** ** The D shape stays inside its buffer *)

Lemma bezier_limits_loop_length (bezier_x bezier_y : BezierFunc)
    (t_limit : float) (start_x : Z) (xs : list Z) (last_t : float)
    (limits : list (float * float)) :
  bezier_limits_loop bezier_x bezier_y t_limit start_x xs last_t = Ok limits ->
  (length limits <= length xs)%nat.
Proof.
  revert last_t limits. induction xs as [|x xs IH]; intros last_t limits;
    cbn [bezier_limits_loop].
  - intros [= <-]. cbn. lia.
  - destruct (if start_x <? x then _ else _) as [t|e]; cbn [rbind];
      [|discriminate].
    destruct (fle _ _); [intros [= <-]; cbn; lia|].
    destruct (bezier_limits_loop _ _ _ _ xs t) as [rest|e] eqn:E;
      cbn [rbind]; [|discriminate].
    intros [= <-]. apply IH in E. cbn. lia.
Qed.

Lemma bezier_x_zero (cx : Z) :
  ((bezier_eq 0 cx cx 0 (float_of_int 0) : Q) == 0)%Q.
Proof.
  unfold bezier_eq.
  rewrite ?Qc_add, ?Qc_mul, ?Qc_sub, ?Qc_add, ?Qc_mul, ?Qc_sub, ?Qc_of_int.
  change (this 1%Qc) with 1%Q. change (inject_Z 0) with 0%Q.
  change (inject_Z 3) with 3%Q. field.
Qed.

Lemma int_of_float_eq (q : float) (x : Q) :
  (this q == x)%Q ->
  int_of_float q = if Qle_bool 0 x then Qfloor x else Qceiling x.
Proof.
  intros E. unfold int_of_float, fle. change (this 0%Qc) with 0%Q.
  assert (Eb : Qle_bool 0 q = Qle_bool 0 x).
  { apply eq_true_iff_eq. rewrite !Qle_bool_iff. now rewrite E. }
  rewrite Eb. destruct (Qle_bool 0 x).
  - now apply Qfloor_comp.
  - now apply Qceiling_comp.
Qed.

(** The limits of the curve of [D] are at most [width] many. *)
Lemma get_bezier_limits_D_length (width height : Z)
    (limits : list (float * float)) :
  1 <= width ->
  get_bezier_limits (bezier_eq 0 (4 * (width - 1) / 3) (4 * (width - 1) / 3) 0)
    (bezier_eq 0 0 (height - 1) (height - 1)) = Ok limits ->
  Z.of_nat (length limits) <= width.
Proof.
  intros Hw. unfold get_bezier_limits. cbv zeta.
  set (c := 4 * (width - 1) / 3).
  assert (Hc : 0 <= c /\ 3 * c <= 4 * (width - 1)) by (subst c; div_lia).
  rewrite (int_of_float_eq _ _ (bezier_x_zero c)).
  rewrite (int_of_float_eq _ _ (bezier_x_half c)).
  change (Qle_bool 0 0) with true. change (Qfloor 0) with 0.
  assert (Hq : (0 <= (3 # 4) * inject_Z c)%Q).
  { apply Qmult_le_0_compat; [easy|]. unfold Qle. cbn. lia. }
  apply Qle_bool_iff in Hq as Hb. rewrite Hb.
  assert (Hf : Qfloor ((3 # 4) * inject_Z c) < width).
  { apply floor_upper.
    assert (inject_Z c <= (4 # 3) * inject_Z (width - 1))%Q.
    { unfold Qle, Qmult, inject_Z. cbn. lia. }
    assert (inject_Z (width - 1) < inject_Z width)%Q
      by (rewrite <- Zlt_Qlt; lia).
    lra. }
  intros E. apply bezier_limits_loop_length in E.
  rewrite length_range in E.
  assert (0 <= Qfloor ((3 # 4) * inject_Z c)).
  { apply floor_lower. exact Hq. }
  lia.
Qed.

Lemma safe_D_body_left (n : nat) (ssf width height : Z) :
  1 <= width -> Z.of_nat n = width * height ->
  safe (fun e => e = ValueError) n (D_body ssf width height true).
Proof.
  intros Hw L. unfold D_body. rewrite find_bezier_for_D_closed.
  destruct (Z.ltb_spec 0 width); [|lia].
  intros buf Lb. rewrite bind_lift. cbv zeta. cbn [cubic_bezier fst snd].
  revert buf Lb.
  change (safe (fun e => e = ValueError) n
            (xlimits <- lift (get_bezier_limits
                                (bezier_eq 0 (4 * (width - 1) / 3)
                                   (4 * (width - 1) / 3) 0)
                                (bezier_eq 0 0 (height - 1) (height - 1))) ;;
             fill_region width height xlimits)).
  apply triple_bind with
    (Q1 := fun xl : list (float * float) => Z.of_nat (length xl) <= width).
  - apply triple_lift.
    pose proof (get_bezier_limits_D_length width height) as Hl.
    pose proof (get_bezier_limits_terminates
                  (bezier_eq 0 (4 * (width - 1) / 3) (4 * (width - 1) / 3) 0)
                  (bezier_eq 0 0 (height - 1) (height - 1))) as Ht.
    pose proof (rsafe_get_bezier_limits
                  (P := fun e => e = ValueError \/ e = LoopBound)
                  (or_introl eq_refl) (or_intror eq_refl)
                  (bezier_eq 0 (4 * (width - 1) / 3) (4 * (width - 1) / 3) 0)
                  (bezier_eq 0 0 (height - 1) (height - 1))) as Hr.
    destruct (get_bezier_limits _ _) as [limits|e].
    + now apply Hl.
    + destruct Hr as [->| ->]; [reflexivity | now destruct Ht].
  - intros xlimits Hx. now apply safe_fill_region_in.
Qed.

(** [D] never stores outside its buffers: for a cell of at least one column
    its curve gives at most as many limits as the scratch buffer has
    columns.  So [D], on a buffer of [width * height] items, returns, or
    raises [ValueError] when the search for a curve parameter gives up, and
    then the buffer is as it was. *)
Theorem D_stays_in_buffer (width height : Z) (left : bool) (buf : BufType) :
  1 <= width -> 0 <= height -> Z.of_nat (length buf) = width * height ->
  (exists buf',
     D width height left buf = (buf', Ok tt) /\ length buf' = length buf) \/
  D width height left buf = (buf, Raise ValueError).
Proof.
  intros Hw Hh L.
  destruct (D_body_mirrored supersample_factor (4 * width) (4 * height)
              ltac:(lia) ltac:(lia))
    as (a & b & r & Ea & Eb & La & Lb & _ & _).
  pose proof (length_zeros (4 * width * (4 * height)) ltac:(nia)) as L0.
  destruct (safe_D_body_left (Z.to_nat (4 * width * (4 * height)))
              supersample_factor (4 * width) (4 * height) ltac:(lia)
              ltac:(nia) (zeros (4 * width * (4 * height))) ltac:(lia))
    as [_ Hr].
  rewrite Ea in Hr. cbn [snd] in Hr.
  assert (E : exists ss,
            D_body supersample_factor (4 * width) (4 * height) left
              (zeros (4 * width * (4 * height))) = (ss, r) /\
            Z.of_nat (length ss) = 4 * width * (4 * height)).
  { destruct left; [exists a | exists b]; easy. }
  destruct E as (ss & E & Ls). destruct r as [[]|e].
  - left.
    destruct (supersampled_run (fun ssf w h => D_body ssf w h left)
                width height buf ss ltac:(lia) Hh L E Ls)
      as (dest' & E' & L' & _).
    exists dest'. easy.
  - right. subst e. unfold D, supersampled, bind, lift, bytearray, run_on.
    change supersample_factor with 4 in *.
    destruct (Z.ltb_spec (4 * width * (4 * height)) 0) as [|_]; [nia|].
    fold (zeros (4 * width * (4 * height))). now rewrite E.
Qed.

(** ** Instances of the further properties *)

Lemma quad_quadrant_witness :
  exists buf',
    quad 4 4 1 0 (zeros 16) = (buf', Ok tt) /\
    shape_painted (zeros 16) buf' 4 4
      (fun c r =>
         (if 1 =? 0 then c <? 4 / 2 else 4 / 2 <=? c) &&
         (if 0 =? 0 then r <? 4 / 2 else 4 / 2 <=? r)) 255.
Proof. apply (quad_quadrant 4 4 1 0 (zeros 16)); try lia; reflexivity. Defined.

Lemma quads_tile_cell_witness :
  exists buf',
    (quad 3 3 0 0 ;; quad 3 3 1 0 ;; quad 3 3 0 1 ;; quad 3 3 1 1) (zeros 9)
    = (buf', Ok tt) /\
    shape_painted (zeros 9) buf' 3 3 (fun _ _ => true) 255.
Proof. apply (quads_tile_cell 3 3 (zeros 9)); try lia; reflexivity. Defined.

Lemma vblock_rows_witness :
  exists buf',
    vblock 4 12 (lit 3 8) "bottom" (zeros 48) = (buf', Ok tt) /\
    shape_painted (zeros 48) buf' 4 12 (fun c r => between 8 (8 + 4) r) 255.
Proof.
  apply (vblock_rows 4 12 3 "bottom" (zeros 48)); try lia; reflexivity.
Defined.

Lemma hblock_columns_witness :
  exists buf',
    hblock 8 4 (lit 3 8) "left" (zeros 32) = (buf', Ok tt) /\
    shape_painted (zeros 32) buf' 8 4 (fun c r => between 0 (0 + 3) c) 255.
Proof.
  apply (hblock_columns 8 4 3 "left" (zeros 32)); try lia; reflexivity.
Defined.

Lemma half_blocks_cover_witness :
  exists buf',
    (vblock 2 5 (lit 1 2) "top" ;; vblock 2 5 (lit 1 2) "bottom") (zeros 10)
    = (buf', Ok tt) /\
    shape_painted (zeros 10) buf' 2 5
      (fun c r => negb ((5 mod 4 =? 1) && (r =? 5 / 2))) 255.
Proof. apply (half_blocks_cover 2 5 (zeros 10)); try lia; reflexivity. Defined.

Lemma cross_arms_witness :
  exists buf',
    cross initial_globals 8 8 1 3 1 3 (zeros 64) = (buf', Ok tt) /\
    shape_painted (zeros 64) buf' 8 8
      (fun x y =>
         in_rect 0 (8 / 2) (8 / 2 - 2 / 2) (8 / 2 - 2 / 2 + 2) x y ||
         in_rect (8 / 2) 8 (8 / 2 - 3 / 2) (8 / 2 - 3 / 2 + 3) x y ||
         in_rect (8 / 2 - 2 / 2) (8 / 2 - 2 / 2 + 2) 0 (8 / 2) x y ||
         in_rect (8 / 2 - 3 / 2) (8 / 2 - 3 / 2 + 3) (8 / 2) 8 x y) 255.
Proof.
  apply (cross_arms initial_globals 8 8 1 3 1 3 2 3 2 3 (zeros 64));
    try lia; reflexivity.
Defined.

Lemma hline_vline_full_witness :
  hline initial_globals 5 5 1 (zeros 25)
  = draw_hline initial_globals 5 0 5 (5 / 2) 1 (zeros 25) /\
  vline initial_globals 5 5 1 (zeros 25)
  = draw_vline initial_globals 5 0 5 (5 / 2) 1 (zeros 25).
Proof.
  apply (hline_vline_full initial_globals 5 5 1 2 (zeros 25));
    try lia; reflexivity.
Defined.

Lemma render_missing_glyph_outline_witness :
  exists buf',
    render_missing_glyph initial_globals 6 6 (zeros 36) = (buf', Ok tt) /\
    shape_painted (zeros 36) buf' 6 6
      (fun c r =>
         ((r =? 2) || (r =? 6 - 2)) && between 2 (6 - 1) c ||
         ((c =? 2) || (c =? 6 - 2)) && between 2 (6 - 1) r) 255.
Proof.
  apply (render_missing_glyph_outline initial_globals 6 6 (zeros 36));
    try lia; reflexivity.
Defined.

Lemma dhline_double_line_witness :
  exists buf',
    dhline initial_globals 8 16 None 1 (zeros 128)
    = (buf', Ok (16 / 2 - 2, 16 / 2 + 2)) /\
    shape_painted (zeros 128) buf' 8 16
      (fun c r =>
         negb (opt_str_eq None "bottom") &&
           between (16 / 2 - 2 - 2 / 2) (16 / 2 - 2 - 2 / 2 + 2) r ||
         negb (opt_str_eq None "top") &&
           between (16 / 2 + 2 - 2 / 2) (16 / 2 + 2 - 2 / 2 + 2) r) 255.
Proof.
  apply (dhline_double_line initial_globals 8 16 1 2 2 None (zeros 128));
    try lia; try reflexivity; apply Z.leb_le; reflexivity.
Defined.

Lemma thick_line_columns_witness :
  exists (row : Z -> Z) (buf' : BufType),
    thick_line 8 8 2 (7, 3) (0, 3) (zeros 64) = (buf', Ok tt) /\
    shape_painted (zeros 64) buf' 8 8
      (fun c r =>
         between (Z.min 7 0) (Z.max 7 0 + 1) c &&
         between (row c - 2 / 2) (row c + 2 / 2 + 2 mod 2) r) 255 /\
    (3 = 3 -> forall c, row c = 3).
Proof.
  apply (thick_line_columns 8 8 2 (7, 3) (0, 3) (zeros 64)); try lia;
    reflexivity.
Defined.

Lemma fill_region_columns_witness :
  exists buf',
    fill_region 2 2 [(float_of_int 1, float_of_int 1)] [7; 7; 7; 7]
    = (buf', Ok tt) /\
    length buf' = 4%nat /\
    forall c r, 0 <= c < 2 -> 0 <= r < 2 ->
      pixel buf' 2 c r =
        match region_value [(float_of_int 1, float_of_int 1)] c r with
        | Some v => Some v
        | None => pixel [7; 7; 7; 7] 2 c r
        end.
Proof.
  apply (fill_region_columns 2 2 [(float_of_int 1, float_of_int 1)]
           [7; 7; 7; 7]); try lia; try reflexivity. cbn. lia.
Defined.

Lemma shade_draws_pattern_witness :
  exists buf',
    shade 8 8 true false (zeros 64) = (buf', Ok tt) /\
    shape_painted (zeros 64) buf' 8 8 (shade_pattern 8 8 true) 255.
Proof.
  apply (shade_draws_pattern 8 8 true (zeros 64)); try lia; reflexivity.
Defined.

Lemma shade_inverted_witness :
  exists buf',
    shade 8 8 false true (zeros 64) = (buf', Ok tt) /\
    length buf' = length (zeros 64) /\
    forall c r, 0 <= c < 8 -> 0 <= r < 8 ->
      pixel buf' 8 c r
      = Some (if shade_pattern 8 8 false c r then 0 else 255).
Proof.
  apply (shade_inverted 8 8 false (zeros 64)); try lia; reflexivity.
Defined.

Lemma find_t_for_x_result_witness :
  match find_t_for_x (bezier_eq 0 0 4 4) (lit 1 2) 1 0%Qc with
  | Ok t =>
      (this 0%Qc <= this t)%Q /\
      (t = 0%Qc \/ (this t <= 1 # 2)%Q) /\
      (flt (fabs (bezier_eq 0 0 4 4 t - float_of_int 1)) (lit 1 10) = true \/
       (1 # 2 <= this t)%Q)
  | Raise e => e = ValueError
  end.
Proof.
  apply (find_t_for_x_result (bezier_eq 0 0 4 4) 1 0%Qc).
  unfold Qle. simpl. lia.
Defined.

Lemma double_lines_level_error_witness :
  half_dhline initial_globals 8 8 3 "left" None (zeros 64)
  = (zeros 64, Raise IndexError) /\
  half_dvline initial_globals 8 8 3 "left" None (zeros 64)
  = (zeros 64, Raise IndexError) /\
  dhline initial_globals 8 8 None 3 (zeros 64) = (zeros 64, Raise IndexError) /\
  dvline initial_globals 8 8 None 3 (zeros 64) = (zeros 64, Raise IndexError) /\
  dcorner initial_globals 8 8 3 0x2554 (zeros 64)
  = (zeros 64, Raise IndexError) /\
  inner_corner initial_globals 8 8 "tl" 3 (zeros 64)
  = (zeros 64, Raise IndexError).
Proof.
  apply (double_lines_level_error initial_globals 8 8 3 "left" None 0x2554
           (zeros 64)). lia.
Defined.

Lemma holes_unknown_number_witness :
  get_holes 8 (8 / hole_factor) 4 = Raise UnboundLocalError /\
  (forall buf', hline initial_globals 8 8 1 (zeros 64) = (buf', Ok tt) ->
     hholes initial_globals 8 8 1 4 (zeros 64)
     = (buf', Raise UnboundLocalError)) /\
  (forall buf', vline initial_globals 8 8 1 (zeros 64) = (buf', Ok tt) ->
     vholes initial_globals 8 8 1 4 (zeros 64)
     = (buf', Raise UnboundLocalError)).
Proof.
  apply (holes_unknown_number initial_globals 8 8 1 4 2 (zeros 64));
    [reflexivity | lia].
Defined.

Lemma render_box_char_keeps_bytes_witness :
  is_bytes
    (fst (snd (render_box_char initial_globals 0x2592 [0; 255; 7; 100] 2 2
                 (lit 96 1)))).
Proof.
  apply (render_box_char_keeps_bytes initial_globals 0x2592 [0; 255; 7; 100]
           2 2 (lit 96 1)).
  repeat constructor; lia.
Defined.

Lemma supersampled_glyphs_return_witness :
  (forall left, exists buf',
     triangle 2 2 left (zeros 4) = (buf', Ok tt) /\
     length buf' = length (zeros 4)) /\
  (forall corner, known_corner corner = true -> exists buf',
     corner_triangle 2 2 corner (zeros 4) = (buf', Ok tt) /\
     length buf' = length (zeros 4)) /\
  (forall left, exists buf',
     cross_line initial_globals 2 2 left 1 (zeros 4) = (buf', Ok tt) /\
     length buf' = length (zeros 4)) /\
  (forall which, exists buf',
     half_cross_line initial_globals 2 2 which 1 (zeros 4) = (buf', Ok tt) /\
     length buf' = length (zeros 4)) /\
  (forall which, known_rounded which = true -> exists buf',
     rounded_corner initial_globals 2 2 1 which (zeros 4) = (buf', Ok tt) /\
     length buf' = length (zeros 4)).
Proof.
  apply (supersampled_glyphs_return initial_globals 2 2 1 2 (zeros 4));
    try lia; reflexivity.
Defined.

Lemma D_stays_in_buffer_witness :
  (exists buf',
     D 2 2 true (zeros 4) = (buf', Ok tt) /\
     length buf' = length (zeros 4)) \/
  D 2 2 true (zeros 4) = (zeros 4, Raise ValueError).
Proof. apply (D_stays_in_buffer 2 2 true (zeros 4)); try lia; reflexivity. Defined.
